(** * FreqCacheEmbedding: the pipelined training engine and the all-to-all exchange

    A shallow embedding of [recsys/dlrm_main_pipeline.py] (batch placement
    and [TrainPipelineBase]) and of the all-to-all exchange exercised by
    [tests/test_comm.py].

    Layout:
    - [Tensors]: [torch.Tensor] values as a size plus nested rows, with the
      two torch operations the code relies on, slicing along a dimension
      ([narrow], [tensor_split]) and concatenation ([cat]);
    - [Exchange]: the all-to-all collective;
    - [Pipeline]: the Python object store, [put_data_in_device],
      [_wait_for_batch] and [TrainPipelineBase]. *)

From stdpp Require Import list.

Set Warnings "-register-all".

(** Outcome of a fallible call: a value or a raised error. *)
Inductive res (E A : Type) : Type :=
  | Ok (a : A)
  | Raise (e : E).
Arguments Ok {E A} a.
Arguments Raise {E A} e.

(** ** Tensors *)

(** The rows of a tensor, as [Tensor.tolist()] shows them: a scalar at
    rank 0, a list of sub-tensors otherwise. *)
Inductive nest (A : Type) : Type :=
  | Leaf (a : A)
  | Node (l : list (nest A)).
Arguments Leaf {A} a.
Arguments Node {A} l.

(** A tensor carries its [size] explicitly, as torch does: an empty
    dimension does not forget the extents below it. *)
Record tensor (A : Type) : Type := Tensor {
  size : list nat;
  data : nest A
}.
Arguments Tensor {A} size data.
Arguments size {A} t.
Arguments data {A} t.

Section Tensors.
Context {A : Type}.

Definition children (t : nest A) : list (nest A) :=
  match t with
  | Leaf _ => []
  | Node l => l
  end.

(** [child i t] is [t[i]]. *)
Definition child (i : nat) (t : nest A) : nest A :=
  default (Node []) (children t !! i).

(** [conforms sh t]: the rows [t] are rectangular of size [sh]. *)
Fixpoint conforms (sh : list nat) (t : nest A) {struct sh} : bool :=
  match sh, t with
  | [], Leaf _ => true
  | n :: sh', Node l => bool_decide (length l = n) && forallb (conforms sh') l
  | _, _ => false
  end.

Definition wf (t : tensor A) : Prop := conforms (size t) (data t).

(** [torch.narrow(t, d, start, len)] on the rows. *)
Fixpoint narrow_nest (d start len : nat) (t : nest A) {struct d} : nest A :=
  match t with
  | Leaf a => Leaf a
  | Node l =>
      match d with
      | 0 => Node (take len (drop start l))
      | S d' => Node (narrow_nest d' start len <$> l)
      end
  end.

Definition narrow (d start len : nat) (t : tensor A) : tensor A :=
  Tensor (<[d := len]> (size t)) (narrow_nest d start len (data t)).

(** [torch.cat(ts, dim=d)] on the rows; [sh] is the size of the result. *)
Fixpoint cat_nest (sh : list nat) (d : nat) (ts : list (nest A)) {struct d} : nest A :=
  match d with
  | 0 => Node (ts ≫= children)
  | S d' =>
      match sh with
      | [] => Node []
      | n :: sh' => Node ((λ i, cat_nest sh' d' (child i <$> ts)) <$> seq 0 n)
      end
  end.

(** The extent of [t] along [d] (0 when [d] is out of range). *)
Definition extent (d : nat) (t : tensor A) : nat := default 0 (size t !! d).

Definition cat_size (d : nat) (ts : list (tensor A)) : list nat :=
  match ts with
  | [] => []
  | t0 :: _ => <[d := sum_list (extent d <$> ts)]> (size t0)
  end.

Definition cat (d : nat) (ts : list (tensor A)) : tensor A :=
  Tensor (cat_size d ts) (cat_nest (cat_size d ts) d (data <$> ts)).

(** [torch.tensor_split(t, sections, dim)], following the loop of its
    implementation: the first [extent mod sections] sections get one
    more row than the others, [start_idx] runs over the dimension. *)
Fixpoint tensor_split_from (t : tensor A) (dim min_split_size num_splits_one_extra : nat)
    (split_idxs : list nat) (start_idx : nat) : list (tensor A) :=
  match split_idxs with
  | [] => []
  | split_idx :: rest =>
      let split_size :=
        if bool_decide (split_idx < num_splits_one_extra)
        then min_split_size + 1 else min_split_size in
      narrow dim start_idx split_size t
        :: tensor_split_from t dim min_split_size num_splits_one_extra rest
             (start_idx + split_size)
  end.

(** [None] stands for the [RuntimeError] torch raises on a 0-dimensional
    tensor, on [sections <= 0] and on a dimension out of range. *)
Definition tensor_split (t : tensor A) (sections dim : nat) : option (list (tensor A)) :=
  match size t !! dim with
  | None => None
  | Some dim_size =>
      if bool_decide (sections = 0) then None
      else Some (tensor_split_from t dim (dim_size / sections) (dim_size mod sections)
                   (seq 0 sections) 0)
  end.

End Tensors.

(** ** The all-to-all exchange *)

(** The error taxonomy of the exchange. *)
Inductive failure : Type :=
  | InitializationError
  | ShapeError
  | CommunicationError
  | EndOfData.

Section Exchange.
Context {A : Type}.

(** Modelled from the spec: the functions [ext_all_to_al_fwd],
    [ext_all_to_all_bwd] ([recsys.utils.extended_distributed]) and
    [dual_all_to_all] ([recsys.modules.functional]) that
    [tests/test_comm.py] imports are not among the sources.  [world] lists
    the local input of every worker, so [length world] is the world size;
    the function is what worker [rank] computes: (1) split every input
    into [world_size] equal chunks along [scatter_dim], (2) worker [rank]
    receives chunk [rank] from every worker, (3) the received chunks are
    concatenated along [gather_dim].  An extent not divisible by the
    world size, and inputs on which the workers do not agree on the
    size, are a [ShapeError]; the spec does not name the error of a
    dimension out of range, [ShapeError] is used. *)
Definition all_to_all (world : list (tensor A)) (rank scatter_dim gather_dim : nat)
    : res failure (tensor A) :=
  let world_size := length world in
  match world !! rank with
  | None => Raise InitializationError
  | Some input =>
      match size input !! scatter_dim, size input !! gather_dim with
      | Some E, Some _ =>
          if bool_decide (E mod world_size ≠ 0) then Raise ShapeError
          else if bool_decide (Forall (λ t, size t = size input) world) then
            let chunk := E / world_size in
            Ok (cat gather_dim (narrow scatter_dim (rank * chunk) chunk <$> world))
          else Raise ShapeError
      | _, _ => Raise ShapeError
      end
  end.

(** All the results of a list of calls, or the first error. *)
Fixpoint collect {E X : Type} (rs : list (res E X)) : res E (list X) :=
  match rs with
  | [] => Ok []
  | Raise e :: _ => Raise e
  | Ok x :: rs' =>
      match collect rs' with
      | Ok xs => Ok (x :: xs)
      | Raise e => Raise e
      end
  end.

(** Modelled from the spec: one collective round of [all_to_all], in
    which every worker of the group takes part: what each of them holds
    afterwards, or the first error. *)
Definition all_to_all_round (world : list (tensor A)) (scatter_dim gather_dim : nat)
    : res failure (list (tensor A)) :=
  collect ((λ rank, all_to_all world rank scatter_dim gather_dim) <$> seq 0 (length world)).

(** Modelled from the spec: the differentiable operator of
    [recsys.modules.functional] (not among the sources) is a forward
    transform registered together with its gradient rule, and the
    gradient rule is the forward operator invoked on the incoming
    gradient with the two dimensions exchanged. *)
Record autograd_function : Type := {
  forward : list (tensor A) → res failure (list (tensor A));
  backward : list (tensor A) → res failure (list (tensor A))
}.

(** Modelled from the spec: [dual_all_to_all(input, mode, scatter_dim,
    gather_dim)] of [recsys.modules.functional], seen from all workers
    at once; its backward is the forward with the pair swapped. *)
Definition dual_all_to_all (scatter_dim gather_dim : nat) : autograd_function := {|
  forward inputs := all_to_all_round inputs scatter_dim gather_dim;
  backward grad_outputs := all_to_all_round grad_outputs gather_dim scatter_dim
|}.

(** [_collect_tensors] of [tests/test_comm.py]: rank 0 gathers the local
    tensors of all workers and concatenates them along [dim]. *)
Definition _collect_tensors (locals : list (tensor A)) (dim : nat) : tensor A :=
  cat dim locals.

End Exchange.

(** The inner product of two tensors of integers, and of two worlds. *)
Fixpoint dot_nest (x y : nest Z) {struct x} : Z :=
  match x, y with
  | Leaf a, Leaf b => (a * b)%Z
  | Node l, Node m =>
      (fix go (l m : list (nest Z)) {struct l} : Z :=
         match l, m with
         | x' :: l', y' :: m' => (dot_nest x' y' + go l' m')%Z
         | _, _ => 0%Z
         end) l m
  | _, _ => 0%Z
  end.

Definition dot (x y : tensor Z) : Z := dot_nest (data x) (data y).

Fixpoint dot_world (xs ys : list (tensor Z)) : Z :=
  match xs, ys with
  | x :: xs', y :: ys' => (dot x y + dot_world xs' ys')%Z
  | _, _ => 0%Z
  end.

(** ** The pipeline: Python values *)

Inductive device : Type :=
  | cpu
  | cuda (index : nat).

Global Instance device_eq_dec : EqDecision device.
Proof. solve_decision. Defined.

(** [device.type == "cuda"]. *)
Definition is_cuda (d : device) : bool :=
  match d with
  | cpu => false
  | cuda _ => true
  end.

(** A [torch.Tensor] with the device that holds it.  The elements are kept
    as their stored bit patterns: the pipeline moves them and never
    computes on them. *)
Record TorchTensor : Type := mkTorchTensor {
  tensor_device : device;
  payload : tensor Z
}.

(** The sparse feature indices (a keyed jagged tensor): the pipeline only
    relocates them. *)
Record KeyedJaggedTensor : Type := mkKJT {
  kjt_device : device;
  kjt_values : list Z
}.

(** [Tensor.to(device)]; [device=None] leaves the tensor where it is. *)
Definition tensor_to (x : TorchTensor) (target : option device) : TorchTensor :=
  match target with
  | None => x
  | Some d => mkTorchTensor d (payload x)
  end.

Definition kjt_to (x : KeyedJaggedTensor) (target : option device) : KeyedJaggedTensor :=
  match target with
  | None => x
  | Some d => mkKJT d (kjt_values x)
  end.

(** The [Batch] objects the data loader yields. *)
Record Batch : Type := mkBatch {
  dense_features : TorchTensor;
  sparse_features : KeyedJaggedTensor;
  labels : TorchTensor
}.

(** Objects of the store: the pipeline handles [Batch] objects, which it
    mutates in place, and the 3-tuples [put_data_in_device] builds. *)
Inductive object : Type :=
  | BatchObject (b : Batch)
  | TupleObject (dense : TorchTensor) (sparse : KeyedJaggedTensor) (label : TorchTensor).

(** A reference is a position in the store. *)
Abbreviation ref := nat.

(** A Python value as far as the pipeline is concerned: [None] or a
    reference to an object of the store. *)
Abbreviation value := (option nat).

Inductive exn : Type :=
  | StopIteration
  | AssertionError
  | AttributeError
  | TypeError
  | IndexError
  | RuntimeError.

Inductive stream : Type :=
  | default_stream
  | memcpy_stream.

Inductive attr : Type :=
  | attr_dense_features
  | attr_sparse_features
  | attr_labels.

(** What the pipeline asks of its collaborators (the iterator, the CUDA
    runtime, the model, the metrics, the criterion, the optimizer), in
    program order. *)
Inductive event : Type :=
  | Next (b : ref)
  | To (b : ref) (a : attr) (target : option device) (non_blocking : bool) (on : stream)
  | WaitStream
  | RecordStream (b : ref)
  | ZeroGrad
  | Forward (b : ref) (dense : TorchTensor) (sparse : KeyedJaggedTensor)
  | Metric (i : nat) (b : ref)
  | Criterion (b : ref)
  | Backward
  | OptimizerStep.

(** The instance attribute slot [_connect] of a pipeline object: the
    method of the class until an assignment shadows it. *)
Inductive connect_slot : Type :=
  | BoundMethod
  | Shadowed (v : bool).

(** The attributes of a [TrainPipelineBase] object.  [training] is
    [self._model.training]; the criterion and the optimizer are kept as
    "given or [None]", the metrics as their number. *)
Record TrainPipelineBase : Type := mkPipe {
  training : bool;
  _criterion : bool;
  _optimizer : bool;
  _metrics : nat;
  _sparse_device : option device;
  _dense_device : option device;
  _memcpy_stream : option stream;
  _cur_batch : value;
  _connected : bool;
  _connect_attr : connect_slot
}.

(** The local variables of the running [progress] call and of the
    [_connect] call inside it ([None] when unbound). *)
Record Locals : Type := mkLocals {
  next_batch : value;
  cur_batch : value;
  connect_cur_batch : value
}.

Definition no_locals : Locals := mkLocals None None None.

(** The state a call runs in.  [dataloader_iter] is what the iterator has
    still to yield; [peak] is the largest number of distinct batches the
    engine has referenced at once so far. *)
Record World : Type := mkWorld {
  heap : list object;
  dataloader_iter : list Batch;
  log : list event;
  current_stream : stream;
  self : TrainPipelineBase;
  locals : Locals;
  peak : nat
}.

(** The batches the engine holds: the objects referenced by
    [self._cur_batch] and by the live locals, each counted once. *)
Definition held_refs (cur : value) (l : Locals) : list ref :=
  remove_dups (omap id [cur; next_batch l; cur_batch l; connect_cur_batch l]).

Definition held (w : World) : list ref :=
  held_refs (_cur_batch (self w)) (locals w).

Definition observe (w : World) : World :=
  mkWorld (heap w) (dataloader_iter w) (log w) (current_stream w) (self w) (locals w)
          (peak w `max` length (held w)).

(** ** The pipeline: statements *)

Definition M (X : Type) : Type := World → res exn X * World.

Global Instance M_ret : MRet M := λ X x w, (Ok x, w).

Global Instance M_bind : MBind M := λ X Y f m w,
  match m w with
  | (Ok x, w') => f x w'
  | (Raise e, w') => (Raise e, w')
  end.

Definition raise {X : Type} (e : exn) : M X := λ w, (Raise e, w).

Definition modify (f : World → World) : M unit := λ w, (Ok tt, f w).

Definition gets {X : Type} (f : World → X) : M X := λ w, (Ok (f w), w).

Definition emit (e : event) : M unit :=
  modify (λ w, mkWorld (heap w) (dataloader_iter w) (log w ++ [e]) (current_stream w)
                       (self w) (locals w) (peak w)).

(** Assignments to the attributes of [self] and to the locals are the
    statements that change what the engine references: the held batches
    are counted after each of them. *)
Definition set_self (f : TrainPipelineBase → TrainPipelineBase) : M unit :=
  modify (λ w, observe (mkWorld (heap w) (dataloader_iter w) (log w) (current_stream w)
                                (f (self w)) (locals w) (peak w))).

Definition set_locals (f : Locals → Locals) : M unit :=
  modify (λ w, observe (mkWorld (heap w) (dataloader_iter w) (log w) (current_stream w)
                                (self w) (f (locals w)) (peak w))).

Definition set_stream (s : stream) : M unit :=
  modify (λ w, mkWorld (heap w) (dataloader_iter w) (log w) s
                       (self w) (locals w) (peak w)).

Definition when (c : bool) (m : M unit) : M unit := if c then m else mret tt.

(** [next(dataloader_iter)]: a fresh [Batch] object, or [StopIteration]. *)
Definition next : M value := λ w,
  match dataloader_iter w with
  | [] => (Raise StopIteration, w)
  | b :: rest =>
      (Ok (Some (length (heap w))),
       mkWorld (heap w ++ [BatchObject b]) rest (log w ++ [Next (length (heap w))])
               (current_stream w) (self w) (locals w) (peak w))
  end.

(** Attribute access on a value that should be a [Batch]: [None] and
    tuples have no such attribute. *)
Definition get_batch (v : value) : M (ref * Batch) := λ w,
  match v with
  | None => (Raise AttributeError, w)
  | Some r =>
      match heap w !! r with
      | Some (BatchObject b) => (Ok (r, b), w)
      | _ => (Raise AttributeError, w)
      end
  end.

(** Assignment to the attributes of the [Batch] object at [r]. *)
Definition update_batch (r : ref) (f : Batch → Batch) : M unit :=
  modify (λ w,
    mkWorld (match heap w !! r with
             | Some (BatchObject b) => <[r := BatchObject (f b)]> (heap w)
             | _ => heap w
             end)
            (dataloader_iter w) (log w) (current_stream w) (self w) (locals w) (peak w)).

Definition new_tuple (d : TorchTensor) (s : KeyedJaggedTensor) (l : TorchTensor) : M value := λ w,
  (Ok (Some (length (heap w))),
   mkWorld (heap w ++ [TupleObject d s l]) (dataloader_iter w) (log w)
           (current_stream w) (self w) (locals w) (peak w)).

(** [x.to(target, non_blocking=...)], issued on the current stream. *)
Definition to_device (r : ref) (a : attr) (x : TorchTensor) (target : option device)
    (non_blocking : bool) : M TorchTensor :=
  on ← gets current_stream;
  emit (To r a target non_blocking on);;
  mret (tensor_to x target).

Definition kjt_to_device (r : ref) (x : KeyedJaggedTensor) (target : option device)
    (non_blocking : bool) : M KeyedJaggedTensor :=
  on ← gets current_stream;
  emit (To r attr_sparse_features target non_blocking on);;
  mret (kjt_to x target).

(** [torch.tensor_split(x, world_size, dim=0)[rank]]. *)
Definition split_take (x : TorchTensor) (world_size rank : nat) : M TorchTensor :=
  match tensor_split (payload x) world_size 0 with
  | None => raise RuntimeError
  | Some shards =>
      match shards !! rank with
      | None => raise IndexError
      | Some shard => mret (mkTorchTensor (tensor_device x) shard)
      end
  end.

Definition put_data_in_device (batch : value) (dense_device sparse_device : option device)
    (is_dist : bool) (rank world_size : nat) (non_blocking : bool) : M value :=
  if is_dist then
    '(r, b) ← get_batch batch;
    d ← to_device r attr_dense_features (dense_features b) dense_device false;
    '(r, b) ← get_batch batch;
    s ← kjt_to_device r (sparse_features b) sparse_device false;
    '(r, b) ← get_batch batch;
    l ← to_device r attr_labels (labels b) dense_device false;
    new_tuple d s l
  else
    '(r, b) ← get_batch batch;
    moved ← to_device r attr_dense_features (dense_features b) dense_device non_blocking;
    shard ← split_take moved world_size rank;
    update_batch r (λ b, mkBatch shard (sparse_features b) (labels b));;
    '(r, b) ← get_batch batch;
    moved ← to_device r attr_labels (labels b) dense_device non_blocking;
    shard ← split_take moved world_size rank;
    update_batch r (λ b, mkBatch (dense_features b) (sparse_features b) shard);;
    '(r, b) ← get_batch batch;
    moved ← kjt_to_device r (sparse_features b) sparse_device non_blocking;
    update_batch r (λ b, mkBatch (dense_features b) moved (labels b));;
    mret batch.

(** The [Batch] class (not among the sources) is taken to provide the
    [record_stream] method this function calls; a tuple has none. *)
Definition _wait_for_batch (batch : value) (stream : option stream) : M unit :=
  match stream with
  | None => mret tt
  | Some _ =>
      emit WaitStream;;
      '(r, _) ← get_batch batch;
      emit (RecordStream r)
  end.

(** [with torch.cuda.stream(s): body]; [s = None] selects nothing, and
    the previous stream is restored however the body ends. *)
Definition with_stream {X : Type} (s : option stream) (body : M X) : M X :=
  match s with
  | None => body
  | Some s' => λ w,
      let previous := current_stream w in
      match (set_stream s';; body) w with
      | (r, w') => (r, snd (set_stream previous w'))
      end
  end.

(** [TrainPipelineBase.__init__]. *)
Definition __init__ (model_training criterion optimizer : bool)
    (sparse_device dense_device : option device) (metrics : nat) : TrainPipelineBase := {|
  training := model_training;
  _criterion := criterion;
  _optimizer := optimizer;
  _metrics := metrics;
  _sparse_device := sparse_device;
  _dense_device := dense_device;
  _memcpy_stream :=
    match sparse_device with
    | Some d => if is_cuda d then Some memcpy_stream else None
    | None => None
    end;
  _cur_batch := None;
  _connected := false;
  _connect_attr := BoundMethod
|}.

Definition set_cur_batch (v : value) (p : TrainPipelineBase) : TrainPipelineBase :=
  mkPipe (training p) (_criterion p) (_optimizer p) (_metrics p) (_sparse_device p)
         (_dense_device p) (_memcpy_stream p) v (_connected p) (_connect_attr p).

Definition set_connected (c : bool) (p : TrainPipelineBase) : TrainPipelineBase :=
  mkPipe (training p) (_criterion p) (_optimizer p) (_metrics p) (_sparse_device p)
         (_dense_device p) (_memcpy_stream p) (_cur_batch p) c (_connect_attr p).

Definition set_connect_attr (s : connect_slot) (p : TrainPipelineBase) : TrainPipelineBase :=
  mkPipe (training p) (_criterion p) (_optimizer p) (_metrics p) (_sparse_device p)
         (_dense_device p) (_memcpy_stream p) (_cur_batch p) (_connected p) s.

(** A call: the locals of the callee are gone when it returns or raises. *)
Definition call {X : Type} (body : M X) : M X := λ w,
  match body w with
  | (r, w') => (r, snd (set_locals (λ _, no_locals) w'))
  end.

(** [TrainPipelineBase.reset]: the assignment goes to the attribute
    [_connect], not to [_connected]. *)
Definition reset : M unit :=
  set_self (set_connect_attr (Shadowed false));;
  set_self (set_cur_batch None).

(** [TrainPipelineBase._connect]; the devices are passed to
    [put_data_in_device] in the order the source passes them. *)
Definition _connect (use_distributed_dataloader : bool) (rank world_size : nat) : M unit :=
  b ← next;
  set_locals (λ l, mkLocals (next_batch l) (cur_batch l) b);;
  set_self (set_cur_batch b);;
  p ← gets self;
  placed ← with_stream (_memcpy_stream p)
    (cur ← gets (λ w, connect_cur_batch (locals w));
     put_data_in_device cur (_sparse_device p) (_dense_device p)
       use_distributed_dataloader rank world_size true);
  set_self (set_cur_batch placed);;
  set_self (set_connected true);;
  set_locals (λ l, mkLocals (next_batch l) (cur_batch l) None).

(** [self._connect(...)]: the instance attribute wins over the method,
    and a [bool] is not callable. *)
Definition call_connect (use_distributed_dataloader : bool) (rank world_size : nat) : M unit :=
  slot ← gets (λ w, _connect_attr (self w));
  match slot with
  | BoundMethod => _connect use_distributed_dataloader rank world_size
  | Shadowed _ => raise TypeError
  end.

Fixpoint update_metrics (r : ref) (n i : nat) : M unit :=
  match n with
  | 0 => mret tt
  | S n' => emit (Metric i r);; update_metrics r n' (S i)
  end.

(** [TrainPipelineBase.progress]. *)
Definition progress (use_distributed_dataloader : bool) (rank world_size : nat) : M unit :=
  call (
    connected ← gets (λ w, _connected (self w));
    when (negb connected) (call_connect use_distributed_dataloader rank world_size);;
    (* Fetch next batch *)
    b ← next;
    set_locals (λ l, mkLocals b (cur_batch l) (connect_cur_batch l));;
    c ← gets (λ w, _cur_batch (self w));
    set_locals (λ l, mkLocals (next_batch l) c (connect_cur_batch l));;
    (if c is None then raise AssertionError else mret tt);;
    p ← gets self;
    when (training p) (emit ZeroGrad);;
    _wait_for_batch c (_memcpy_stream p);;
    '(r, cb) ← get_batch c;
    emit (Forward r (dense_features cb) (sparse_features cb));;
    update_metrics r (_metrics p) 0;;
    when (training p)
      ((if _criterion p then emit (Criterion r) else raise TypeError);;
       emit Backward);;
    (* Copy the next batch to GPU *)
    nb ← gets (λ w, next_batch (locals w));
    set_self (set_cur_batch nb);;
    placed ← with_stream (_memcpy_stream p)
      (cur ← gets (λ w, cur_batch (locals w));
       put_data_in_device cur (_sparse_device p) (_dense_device p)
         use_distributed_dataloader rank world_size true);
    set_self (set_cur_batch placed);;
    (* Update *)
    when (training p) (if _optimizer p then emit OptimizerStep else raise AttributeError)
  ).

(** A fresh engine on a data loader, as [_train] and [_evaluate] set it up. *)
Definition start (pipe : TrainPipelineBase) (batches : list Batch) : World :=
  mkWorld [] batches [] default_stream pipe no_locals 0.

(** ** Reading the log *)

(** The batches on which the forward computation ran, in order. *)
Definition consumed (l : list event) : list ref :=
  omap (λ e, match e with Forward b _ _ => Some b | _ => None end) l.

(** The transfers issued, in order: batch, attribute and target. *)
Definition transfers (l : list event) : list (nat * attr * option device) :=
  omap (λ e, match e with To b a target _ _ => Some (b, a, target) | _ => None end) l.

(** The batches the iterator yielded, in order. *)
Definition pulled (l : list event) : list ref :=
  omap (λ e, match e with Next b => Some b | _ => None end) l.

(** [staged_ok pending l]: scanning [l], no forward computation runs on a
    batch that has a transfer on the copy stream which the compute stream
    has not joined since.  [pending] are the batches with such a transfer
    before [l]. *)
Fixpoint staged_ok (pending : list ref) (l : list event) : bool :=
  match l with
  | [] => true
  | To b _ _ _ memcpy_stream :: l' => staged_ok (b :: pending) l'
  | WaitStream :: l' => staged_ok [] l'
  | Forward b _ _ :: l' => bool_decide (b ∉ pending) && staged_ok pending l'
  | _ :: l' => staged_ok pending l'
  end.


(** ** Vocabulary of the statements *)

(** Every worker holds a well-formed tensor of size [sh]. *)
Definition uniform {A : Type} (sh : list nat) (world : list (tensor A)) : Prop :=
  Forall (λ t, size t = sh ∧ wf t) world.

Definition sumZ (zs : list Z) : Z := foldr Z.add 0%Z zs.

(** [is_batch_at r h]: the object at [r] is a [Batch]. *)
Definition is_batch_at (r : ref) (h : list object) : bool :=
  match h !! r with
  | Some (BatchObject _) => true
  | _ => false
  end.

(** [tensor_split(..., dim=0)] needs tensors of at least one dimension. *)
Definition splittable (b : Batch) : Prop :=
  size (payload (dense_features b)) ≠ [] ∧ size (payload (labels b)) ≠ [].

(** A transfer issued on stream [s]. *)
Definition transfer_on (s : stream) (e : event) : Prop :=
  ∃ b a target non_blocking, e = To b a target non_blocking s.

(** [frame w w']: what a callee that only relocates batches may change:
    it appends transfers on the current stream to the log and objects to
    the store, and keeps which objects are batches. *)
Definition frame (w w' : World) : Prop :=
  self w' = self w ∧ locals w' = locals w ∧ peak w' = peak w
  ∧ dataloader_iter w' = dataloader_iter w
  ∧ current_stream w' = current_stream w
  ∧ length (heap w) ≤ length (heap w')
  ∧ (∀ i, is_batch_at i (heap w') = is_batch_at i (heap w))
  ∧ ∃ evs, log w' = log w ++ evs ∧ Forall (transfer_on (current_stream w)) evs.

Definition framing {X : Type} (m : M X) : Prop := ∀ w, frame w (m w).2.

Definition set_log (w : World) (l : list event) : World :=
  mkWorld (heap w) (dataloader_iter w) l (current_stream w) (self w) (locals w) (peak w).

Fixpoint metric_events (r : ref) (n i : nat) : list event :=
  match n with
  | 0 => []
  | S n' => Metric i r :: metric_events r n' (S i)
  end.

(** The stream the engine stages on: the copy stream when it has one. *)
Definition staging_stream (p : TrainPipelineBase) : stream :=
  default default_stream (_memcpy_stream p).

(** The transfers one staging of the batch [r] issues. *)
Definition staging_events (p : TrainPipelineBase) (r : ref) : list event :=
  [ To r attr_dense_features (_sparse_device p) true (staging_stream p);
    To r attr_labels (_sparse_device p) true (staging_stream p);
    To r attr_sparse_features (_dense_device p) true (staging_stream p) ].

(** What a [progress] call that runs to its end asks of its collaborators:
    [n] is the batch it pulls, [r] its current batch, whose attributes are
    those of [b] when the forward computation runs. *)
Definition progress_events (p : TrainPipelineBase) (n r : ref) (b : Batch) : list event :=
  [Next n]
  ++ (if training p then [ZeroGrad] else [])
  ++ (if _memcpy_stream p is Some _ then [WaitStream; RecordStream r] else [])
  ++ [Forward r (dense_features b) (sparse_features b)]
  ++ metric_events r (_metrics p) 0
  ++ (if training p then [Criterion r; Backward] else [])
  ++ staging_events p r
  ++ (if training p then [OptimizerStep] else []).

(** A training engine has a criterion and an optimizer. *)
Definition runnable (p : TrainPipelineBase) : Prop :=
  training p = true → _criterion p = true ∧ _optimizer p = true.

(** Between two calls: no locals are alive, the engine never referenced
    more than two batches, its current batch is an object of the store
    and, with distributed batches, a placed tuple. *)
Definition between_calls (is_dist : bool) (w : World) : Prop :=
  locals w = no_locals ∧ peak w ≤ 2
  ∧ current_stream w = default_stream
  ∧ ∀ r, _cur_batch (self w) = Some r →
         r < length (heap w) ∧ (is_dist = true → is_batch_at r (heap w) = false).

(** [connect()] on its own, and the scenario "one [connect()], then three
    [progress()] calls". *)
Definition connect (use_distributed_dataloader : bool) (rank world_size : nat) : M unit :=
  call (call_connect use_distributed_dataloader rank world_size).

Definition connect_then_three_progress (use_distributed_dataloader : bool)
    (rank world_size : nat) : M unit :=
  connect use_distributed_dataloader rank world_size;;
  progress use_distributed_dataloader rank world_size;;
  progress use_distributed_dataloader rank world_size;;
  progress use_distributed_dataloader rank world_size.

(** ** Concrete inputs *)

(** A matrix and a vector of integers. *)
Definition matrix (rows : list (list Z)) (cols : nat) : tensor Z :=
  Tensor [length rows; cols] (Node ((λ r, Node (Leaf <$> r)) <$> rows)).

Definition vector (xs : list Z) : tensor Z :=
  Tensor [length xs] (Node (Leaf <$> xs)).

(** A batch of 4 rows of 2 dense features, as the loader yields it (on the
    host), with content derived from [k]. *)
Definition example_batch (k : Z) : Batch :=
  mkBatch
    (mkTorchTensor cpu
       (matrix [[k; k + 1]; [k + 2; k + 3]; [k + 4; k + 5]; [k + 6; k + 7]]%Z 2))
    (mkKJT cpu [k])
    (mkTorchTensor cpu (vector [k; k; k; k])).

(** The engine of [_train] when everything lives on one accelerator, and
    with [--use_cpu] (sparse parameters on the host). *)
Definition example_pipe : TrainPipelineBase :=
  __init__ true true true (Some (cuda 0)) (Some (cuda 0)) 0.

Definition example_pipe_use_cpu : TrainPipelineBase :=
  __init__ true true true (Some cpu) (Some (cuda 0)) 0.

(** Two workers, each with a 2 x 2 local tensor. *)
Definition example_world : list (tensor Z) :=
  [matrix [[1; 2]; [3; 4]]%Z 2; matrix [[5; 6]; [7; 8]]%Z 2].

(** ** Executions of the engine *)

(** What a driver does with an engine: it calls [progress] and [reset]. *)
Inductive command : Type :=
  | CallProgress
  | CallReset.

Definition run_command (use_distributed_dataloader : bool) (rank world_size : nat)
    (c : command) : M unit :=
  match c with
  | CallProgress => progress use_distributed_dataloader rank world_size
  | CallReset => reset
  end.

(** The state after a sequence of calls, whatever each call returned or
    raised. *)
Fixpoint run_commands (use_distributed_dataloader : bool) (rank world_size : nat)
    (cs : list command) (w : World) : World :=
  match cs with
  | [] => w
  | c :: cs' =>
      run_commands use_distributed_dataloader rank world_size cs'
        (run_command use_distributed_dataloader rank world_size c w).2
  end.

(** Where the shard of worker [rank] starts and how many rows it has when
    4 rows are split over 3 workers. *)
Definition shard_start_4_3 (rank : nat) : nat :=
  match rank with 0 => 0 | 1 => 2 | _ => 3 end.

Definition shard_rows_4_3 (rank : nat) : nat :=
  match rank with 0 => 2 | _ => 1 end.

(** A store that holds one batch, as [put_data_in_device] finds it when
    [main] calls it on a batch of the loader. *)
Definition store_of (b : Batch) : World :=
  mkWorld [BatchObject b] [] [] default_stream example_pipe no_locals 0.

(** The inputs of [tests/test_comm.py] for 2 workers: [B = 4] and
    [H = 8], worker [rank] holding a [rows] x [cols] tensor of its own
    numbers. *)
Definition test_tensor (rows cols : nat) (rank : nat) : tensor Z :=
  Tensor [rows; cols]
    (Node ((λ i, Node ((λ j, Leaf (Z.of_nat (100 * rank + i * cols + j))) <$> seq 0 cols))
             <$> seq 0 rows)).

Definition test_world (rows cols : nat) : list (tensor Z) :=
  test_tensor rows cols <$> seq 0 2.

(** ** The shards of a split *)

(** The rows [torch.tensor_split] gives to section [rank] when it splits
    [n] rows into [world_size] sections: how many, and from which row
    on. *)
Definition shard_rows (n world_size rank : nat) : nat :=
  n / world_size + (if bool_decide (rank < n mod world_size) then 1 else 0).

Definition shard_start (n world_size rank : nat) : nat :=
  rank * (n / world_size) + rank `min` (n mod world_size).

Definition shard_of {A : Type} (world_size rank : nat) (t : tensor A) : tensor A :=
  narrow 0 (shard_start (extent 0 t) world_size rank)
           (shard_rows (extent 0 t) world_size rank) t.

(** [torch.tensor_split(x.to(target), world_size, dim=0)[rank]] in closed
    form, and what [put_data_in_device] makes of a batch that is not
    distributed. *)
Definition split_to (target : option device) (world_size rank : nat) (x : TorchTensor)
    : TorchTensor :=
  mkTorchTensor (tensor_device (tensor_to x target))
                (shard_of world_size rank (payload (tensor_to x target))).

Definition place_batch (dense_device sparse_device : option device)
    (rank world_size : nat) (b : Batch) : Batch :=
  mkBatch (split_to dense_device world_size rank (dense_features b))
          (kjt_to (sparse_features b) sparse_device)
          (split_to dense_device world_size rank (labels b)).

(** A batch as the loader can yield it: its dense features and labels are
    rectangular and have a leading dimension. *)
Definition wf_batch (b : Batch) : Prop :=
  wf (payload (dense_features b)) ∧ wf (payload (labels b)) ∧ splittable b.

(** A loader whose first batch can be split. *)
Definition first_splittable (data_loader : list Batch) : Prop :=
  ∀ b, head data_loader = Some b → splittable b.

(** ** Invariants of the engine *)

(** The attributes of an engine that no statement of the pipeline
    assigns. *)
Definition same_config (p q : TrainPipelineBase) : Prop :=
  training q = training p ∧ _criterion q = _criterion p ∧ _optimizer q = _optimizer p
  ∧ _metrics q = _metrics p ∧ _sparse_device q = _sparse_device p
  ∧ _dense_device q = _dense_device p ∧ _memcpy_stream q = _memcpy_stream p.

(** What an engine configured as [p] may ask of its collaborators while
    the current stream is [cs]. *)
Definition allowed (p : TrainPipelineBase) (cs : stream) (e : event) : Prop :=
  match e with
  | To _ _ _ _ on => on = default cs (_memcpy_stream p)
  | WaitStream | RecordStream _ => is_Some (_memcpy_stream p)
  | ZeroGrad | Backward => training p = true
  | Criterion _ => training p = true ∧ _criterion p = true
  | OptimizerStep => training p = true ∧ _optimizer p = true
  | Metric i _ => i < _metrics p
  | Next _ | Forward _ _ _ => True
  end.

(** [engine_step p w w']: what a statement of the engine may have done
    between [w] and [w']: it took batches from the front of the iterator,
    logging one [Next] for each, it appended allowed events to the log,
    and it kept the configuration and the current stream. *)
Definition engine_step (p : TrainPipelineBase) (w w' : World) : Prop :=
  same_config p (self w')
  ∧ current_stream w' = current_stream w
  ∧ ∃ yielded evs,
      dataloader_iter w = yielded ++ dataloader_iter w'
      ∧ log w' = log w ++ evs
      ∧ length (pulled evs) = length yielded
      ∧ Forall (allowed p (current_stream w)) evs.

Definition tracks (p : TrainPipelineBase) {X : Type} (m : M X) : Prop :=
  ∀ w, same_config p (self w) → engine_step p w (m w).2.

(** [pulls p m]: moreover, [m] returns only after taking a batch. *)
Definition pulls (p : TrainPipelineBase) {X : Type} (m : M X) : Prop :=
  ∀ w, same_config p (self w) →
       engine_step p w (m w).2
       ∧ ∀ x, (m w).1 = Ok x →
              length (dataloader_iter (m w).2) < length (dataloader_iter w).

(** The batches with a transfer on the copy stream that the compute
    stream has not joined, after the events [l]: the state [staged_ok]
    scans with. *)
Fixpoint pending_after (pending : list ref) (l : list event) : list ref :=
  match l with
  | [] => pending
  | To b _ _ _ memcpy_stream :: l' => pending_after (b :: pending) l'
  | WaitStream :: l' => pending_after [] l'
  | _ :: l' => pending_after pending l'
  end.

(** [synchronised p w]: between two statements of an engine configured
    as [p]: the default stream is current, no forward computation ran on
    a batch with a pending transfer, and without copy stream no transfer
    is ever pending. *)
Definition synchronised (p : TrainPipelineBase) (w : World) : Prop :=
  same_config p (self w) ∧ current_stream w = default_stream
  ∧ staged_ok [] (log w) = true
  ∧ (_memcpy_stream p = None → pending_after [] (log w) = []).

Definition keeps_synchronised (p : TrainPipelineBase) {X : Type} (m : M X) : Prop :=
  ∀ w, synchronised p w → synchronised p (m w).2.

(** An event that neither computes nor transfers. *)
Definition quiet (e : event) : bool :=
  match e with
  | Forward _ _ _ | To _ _ _ _ _ => false
  | _ => true
  end.

(** The state [reset] leaves: the method [_connect] is shadowed and there
    is no current batch. *)
Definition is_reset (p : TrainPipelineBase) : Prop :=
  (∃ v, _connect_attr p = Shadowed v) ∧ _cur_batch p = None.

(** The inputs of the forward computations, in order. *)
Definition forwards (l : list event) : list (ref * TorchTensor * KeyedJaggedTensor) :=
  omap (λ e, match e with Forward b d s => Some (b, d, s) | _ => None end) l.

(** An event of a training step. *)
Definition training_event (e : event) : bool :=
  match e with
  | ZeroGrad | Criterion _ | Backward | OptimizerStep => true
  | _ => false
  end.

(** The stream an engine built with [sparse_device] stages on. *)
Definition staging_stream_of (sparse_device : option device) : stream :=
  match sparse_device with
  | Some d => if is_cuda d then memcpy_stream else default_stream
  | None => default_stream
  end.

(** ** The drivers: [_train], [_evaluate] and [train_val_test] *)

(** The loop of [_train]: [progress] until it raises; [StopIteration]
    ends the loop, any other error leaves the function.  [prof] is the
    profiler, kept as the number of its steps ([None] without
    profiler).  The loop of the source runs over [itertools.count()];
    [fuel] bounds the number of iterations, and [None] says that more are
    needed. *)
Fixpoint _train_loop (fuel : nat) (use_distributed_dataloader : bool)
    (rank world_size : nat) (prof : option nat) (w : World)
    : option (res exn (option nat) * World) :=
  match fuel with
  | 0 => None
  | S fuel' =>
      match progress use_distributed_dataloader rank world_size w with
      | (Ok _, w') =>
          _train_loop fuel' use_distributed_dataloader rank world_size (S <$> prof) w'
      | (Raise StopIteration, w') => Some (Ok prof, w')
      | (Raise e, w') => Some (Raise e, w')
      end
  end.

(** [_train]: [model.train()], a fresh engine on [iter(data_loader)] with
    the devices of the model, then the loop.  The result is the profiler
    after the call. *)
Definition _train (fuel : nat) (sparse_device dense_device : option device)
    (optimizer criterion : bool) (data_loader : list Batch) (prof : option nat)
    (use_distributed_dataloader : bool) (rank world_size : nat)
    : option (res exn (option nat) * World) :=
  _train_loop fuel use_distributed_dataloader rank world_size prof
    (start (__init__ true criterion optimizer sparse_device dense_device 0) data_loader).

(** The loop of [_evaluate], over [iter(int, 1)], which never ends
    either. *)
Fixpoint _evaluate_loop (fuel : nat) (use_distributed_dataloader : bool)
    (rank world_size : nat) (w : World) : option (res exn unit * World) :=
  match fuel with
  | 0 => None
  | S fuel' =>
      match progress use_distributed_dataloader rank world_size w with
      | (Ok _, w') => _evaluate_loop fuel' use_distributed_dataloader rank world_size w'
      | (Raise StopIteration, w') => Some (Ok tt, w')
      | (Raise e, w') => Some (Raise e, w')
      end
  end.

(** What [metric.compute()] is computed from: the metric and, in order,
    the batches it was updated on. *)
Inductive metric_kind : Type :=
  | AUROC
  | Accuracy.

Record metric_result : Type := mkMetricResult {
  metric_of : metric_kind;
  updated_on : list ref
}.

(** The updates metric number [i] of the engine received. *)
Definition metric_updates (i : nat) (l : list event) : list ref :=
  omap (λ e, match e with
             | Metric j b => if bool_decide (j = i) then Some b else None
             | _ => None
             end) l.

(** [_evaluate]: [model.eval()], a fresh engine without criterion and
    optimizer and with [metrics=[auroc, accuracy]], the loop, and the
    pair [(auroc_res, accuracy_res)]. *)
Definition _evaluate (fuel : nat) (sparse_device dense_device : option device)
    (data_loader : list Batch) (use_distributed_dataloader : bool) (rank world_size : nat)
    : option (res exn (metric_result * metric_result) * World) :=
  match _evaluate_loop fuel use_distributed_dataloader rank world_size
          (start (__init__ false false false sparse_device dense_device 2) data_loader) with
  | None => None
  | Some (Raise e, w) => Some (Raise e, w)
  | Some (Ok _, w) =>
      let auroc_res := mkMetricResult AUROC (metric_updates 0 (log w)) in
      let accuracy_res := mkMetricResult Accuracy (metric_updates 1 (log w)) in
      Some (Ok (auroc_res, accuracy_res), w)
  end.

(** The dataclass [TrainValTestResults]. *)
Record TrainValTestResults : Type := mkTrainValTestResults {
  val_accuracies : list metric_result;
  val_aurocs : list metric_result;
  test_accuracy : option metric_result;
  test_auroc : option metric_result
}.

(** The epochs of [train_val_test]: [_train] on the training loader, then
    [_evaluate] on the validation loader, whose pair is unpacked as
    [val_accuracy, val_auroc] and appended to the results.  [prof] counts
    the steps of the profiler the function opens, [logs] collects the log
    of every engine that ran, in order. *)
Fixpoint train_val_test_epochs (fuel epochs : nat) (sparse_device dense_device : option device)
    (optimizer criterion : bool) (train_dataloader val_dataloader : list Batch)
    (use_distributed_dataloader : bool) (rank world_size : nat)
    (results : TrainValTestResults) (prof : nat) (logs : list (list event))
    : option (res exn (TrainValTestResults * nat) * list (list event)) :=
  match epochs with
  | 0 => Some (Ok (results, prof), logs)
  | S epochs' =>
      match _train fuel sparse_device dense_device optimizer criterion train_dataloader
              (Some prof) use_distributed_dataloader rank world_size with
      | None => None
      | Some (Raise e, w) => Some (Raise e, logs ++ [log w])
      | Some (Ok prof', w) =>
          match _evaluate fuel sparse_device dense_device val_dataloader
                  use_distributed_dataloader rank world_size with
          | None => None
          | Some (Raise e, w') => Some (Raise e, logs ++ [log w; log w'])
          | Some (Ok (val_accuracy, val_auroc), w') =>
              train_val_test_epochs fuel epochs' sparse_device dense_device
                optimizer criterion train_dataloader val_dataloader
                use_distributed_dataloader rank world_size
                (mkTrainValTestResults (val_accuracies results ++ [val_accuracy])
                   (val_aurocs results ++ [val_auroc])
                   (test_accuracy results) (test_auroc results))
                (default prof prof') (logs ++ [log w; log w'])
          end
      end
  end.

(** [train_val_test]: the epochs, then [_evaluate] on the test loader,
    whose pair is unpacked as [test_accuracy, test_auroc]. *)
Definition train_val_test (fuel epochs : nat) (sparse_device dense_device : option device)
    (optimizer criterion : bool) (train_dataloader val_dataloader test_dataloader : list Batch)
    (use_distributed_dataloader : bool) (rank world_size : nat)
    : option (res exn (TrainValTestResults * nat) * list (list event)) :=
  match train_val_test_epochs fuel epochs sparse_device dense_device optimizer criterion
          train_dataloader val_dataloader use_distributed_dataloader rank world_size
          (mkTrainValTestResults [] [] None None) 0 [] with
  | None => None
  | Some (Raise e, logs) => Some (Raise e, logs)
  | Some (Ok (results, prof), logs) =>
      match _evaluate fuel sparse_device dense_device test_dataloader
              use_distributed_dataloader rank world_size with
      | None => None
      | Some (Raise e, w) => Some (Raise e, logs ++ [log w])
      | Some (Ok (test_accuracy, test_auroc), w) =>
          Some (Ok (mkTrainValTestResults (val_accuracies results) (val_aurocs results)
                      (Some test_accuracy) (Some test_auroc), prof),
                logs ++ [log w])
      end
  end.

(** ** What the engine holds from one call to the next *)

(** A statement that assigns neither an attribute of the engine nor a
    local of the running call. *)
Definition keeps_bindings {X : Type} (m : M X) : Prop :=
  ∀ w, self (m w).2 = self w ∧ locals (m w).2 = locals w.

(** A connected engine has a current batch. *)
Definition holds_current (p : TrainPipelineBase) : Prop :=
  _connected p = true → is_Some (_cur_batch p).

(** [ensures P m Q R]: from a state whose attributes and locals satisfy
    [P], the statement [m] returns [x] with [Q x] of the attributes and
    locals, or raises with [R] of the attributes. *)
Definition ensures {X : Type} (P : TrainPipelineBase → Locals → Prop) (m : M X)
    (Q : X → TrainPipelineBase → Locals → Prop) (R : TrainPipelineBase → Prop) : Prop :=
  ∀ w, P (self w) (locals w) →
       match m w with
       | (Ok x, w') => Q x (self w') (locals w')
       | (Raise _, w') => R (self w')
       end.

(** ** The assertions of [tests/test_comm.py] *)

Section Allclose.
Context {A : Type}.

(** Every element of the rows satisfies [P]. *)
Fixpoint all_elements (P : A → bool) (t : nest A) {struct t} : bool :=
  match t with
  | Leaf a => P a
  | Node l => forallb (all_elements P) l
  end.

(** [torch.allclose(input, other)] on tensors of one size: every
    element of [input] is close to the element of [other] at its
    place.  [isclose a b] stands for torch's test of two elements,
    [|a - b| <= atol + rtol * |b|], which a NaN fails against every
    number, itself included.  On sizes that differ torch broadcasts or
    raises: that case is left out ([None]). *)
Fixpoint allclose_nest (isclose : A → A → bool) (x y : nest A) {struct x} : bool :=
  match x, y with
  | Leaf a, Leaf b => isclose a b
  | Node l, Node m =>
      (fix go (l m : list (nest A)) {struct l} : bool :=
         match l, m with
         | [], [] => true
         | x' :: l', y' :: m' => allclose_nest isclose x' y' && go l' m'
         | _, _ => false
         end) l m
  | _, _ => false
  end.

Definition allclose (isclose : A → A → bool) (input other : tensor A) : option bool :=
  if decide (size input = size other)
  then Some (allclose_nest isclose (data input) (data other))
  else None.

End Allclose.

(** * Facts about tensors *)

Section TensorFacts.
Context {A : Type}.
Implicit Types (t x : nest A) (l xs : list (nest A)) (sh : list nat).

Lemma conforms_cons n sh l :
  conforms (n :: sh) (Node l) ↔ length l = n ∧ Forall (λ x, conforms sh x) l.
Proof.
  simpl. rewrite andb_True, bool_decide_spec, forallb_True. done.
Qed.

Lemma conforms_cons_inv n sh t :
  conforms (n :: sh) t →
  ∃ l, t = Node l ∧ length l = n ∧ Forall (λ x, conforms sh x) l.
Proof.
  destruct t as [a|l]; [done|].
  intros H%conforms_cons. by exists l.
Qed.

Lemma child_lookup i l x : l !! i = Some x → child i (Node l) = x.
Proof. unfold child. simpl. by intros ->. Qed.

Lemma child_fmap {B : Type} (f : nest B → nest A) i (l : list (nest B)) y :
  l !! i = Some y → child i (Node (f <$> l)) = f y.
Proof. intros H. apply child_lookup. by rewrite list_lookup_fmap, H. Qed.

(** A node is the list of its children. *)
Lemma children_rebuild l : (λ i, child i (Node l)) <$> seq 0 (length l) = l.
Proof.
  apply list_eq. intros i. rewrite list_lookup_fmap.
  destruct (decide (i < length l)) as [Hi|Hi].
  - rewrite lookup_seq_lt by done. simpl.
    destruct (lookup_lt_is_Some_2 l i Hi) as [x Hx].
    by rewrite (child_lookup _ _ _ Hx), Hx.
  - rewrite lookup_seq_ge by lia. simpl. symmetry. apply lookup_ge_None. lia.
Qed.

Lemma conforms_children n sh xs i :
  Forall (λ x, conforms (n :: sh) x) xs → i < n →
  Forall (λ x, conforms sh x) (child i <$> xs).
Proof.
  intros Hxs Hi. apply Forall_fmap. eapply Forall_impl; [exact Hxs|].
  intros x Hx. simpl in Hx.
  apply conforms_cons_inv in Hx as (l & -> & Hl & Hall). simpl.
  destruct (lookup_lt_is_Some_2 l i ltac:(lia)) as [y Hy].
  rewrite (child_lookup _ _ _ Hy).
  exact (Forall_lookup_1 _ _ _ _ Hall Hy).
Qed.

(** ** Chunks of a list *)

Lemma bind_chunks c l W s :
  ((λ j, narrow_nest 0 (j * c) c (Node l)) <$> seq s W) ≫= children
  = take (W * c) (drop (s * c) l).
Proof.
  revert s. induction W as [|W IH]; intros s; [done|].
  change (seq s (S W)) with (s :: seq (S s) W).
  rewrite fmap_cons, bind_cons, IH. cbn [narrow_nest children].
  replace (S W * c) with (c + W * c) by lia.
  rewrite <-(take_take_drop (drop (s * c) l) c (W * c)).
  f_equal. rewrite drop_drop. f_equal. f_equal. lia.
Qed.

Lemma chunk_of_bind e xs j x :
  Forall (λ x, length (children x) = e) xs → xs !! j = Some x →
  take e (drop (j * e) (xs ≫= children)) = children x.
Proof.
  intros Hxs. revert j x.
  induction Hxs as [|x0 xs Hx0 _ IH]; intros j x Hj; [done|].
  rewrite bind_cons. destruct j as [|j].
  - injection Hj as ->. change (0 * e) with 0. rewrite drop_0.
    by rewrite take_app_length'.
  - replace (S j * e) with (e + j * e) by lia.
    rewrite drop_app_add' by done. by apply IH.
Qed.

End TensorFacts.

Section TensorFacts2.
Context {A : Type}.
Implicit Types (t x : nest A) (l xs : list (nest A)) (sh : list nat).

(** ** Slicing and concatenation are inverse to each other *)

(** The chunks of a tensor along [d], concatenated along [d], give the
    tensor back. *)
Lemma cat_nest_chunks d sh t c W :
  conforms sh t → sh !! d = Some (W * c) →
  cat_nest sh d ((λ j, narrow_nest d (j * c) c t) <$> seq 0 W) = t.
Proof.
  revert sh t. induction d as [|d IH]; intros [|n sh] t Ht Hd; try done.
  - apply conforms_cons_inv in Ht as (l & -> & Hl & _).
    injection Hd as ->. cbn [cat_nest].
    rewrite bind_chunks. change (0 * c) with 0.
    by rewrite drop_0, take_ge by lia.
  - apply conforms_cons_inv in Ht as (l & -> & Hl & Hall).
    simpl in Hd. cbn [cat_nest]. f_equal.
    etrans; [|exact (children_rebuild l)]. rewrite Hl.
    apply list_fmap_ext. intros i ? [-> Hi]%lookup_seq. simpl.
    destruct (lookup_lt_is_Some_2 l i ltac:(lia)) as [y Hy].
    rewrite (child_lookup _ _ _ Hy), <-list_fmap_compose.
    etrans; [|apply (IH sh y); [exact (Forall_lookup_1 _ _ _ _ Hall Hy)|done]].
    f_equal. apply list_fmap_ext. intros _ j _. simpl.
    by apply child_fmap.
Qed.

(** Chunk [j] of a concatenation of equal-sized tensors is the [j]-th
    of them. *)
Lemma narrow_cat_nest d sh shx xs j x e :
  Forall (λ x, conforms shx x) xs → shx !! d = Some e →
  take d sh = take d shx → xs !! j = Some x →
  narrow_nest d (j * e) e (cat_nest sh d xs) = x.
Proof.
  revert sh shx xs x.
  induction d as [|d IH]; intros sh [|n shx] xs x Hxs Hd Hsh Hj; try done.
  - injection Hd as ->. cbn [cat_nest narrow_nest].
    pose proof (Forall_lookup_1 _ _ _ _ Hxs Hj) as Hx. simpl in Hx.
    apply conforms_cons_inv in Hx as (l & -> & Hl & _).
    f_equal. rewrite (chunk_of_bind e xs j (Node l)); [done| |done].
    eapply Forall_impl; [exact Hxs|]. intros y Hy. simpl in Hy.
    by apply conforms_cons_inv in Hy as (? & -> & ? & _).
  - destruct sh as [|n' sh]; [done|]. simpl in Hsh, Hd.
    injection Hsh as -> Hsh. cbn [cat_nest narrow_nest].
    pose proof (Forall_lookup_1 _ _ _ _ Hxs Hj) as Hx. simpl in Hx.
    apply conforms_cons_inv in Hx as (l & -> & Hl & _).
    f_equal. rewrite <-list_fmap_compose.
    etrans; [|exact (children_rebuild l)]. rewrite Hl.
    apply list_fmap_ext. intros i ? [-> Hi]%lookup_seq. simpl.
    apply (IH sh shx); [by eapply conforms_children|done|done|].
    by rewrite list_lookup_fmap, Hj.
Qed.

End TensorFacts2.

Section TensorShapes.
Context {A : Type}.
Implicit Types (t x : nest A) (l xs : list (nest A)) (sh : list nat).

Lemma conforms_narrow_nest d sh t E start len :
  conforms sh t → sh !! d = Some E → start + len ≤ E →
  conforms (<[d := len]> sh) (narrow_nest d start len t).
Proof.
  revert sh t. induction d as [|d IH]; intros [|n sh] t Ht Hd Hle; try done.
  - apply conforms_cons_inv in Ht as (l & -> & Hl & Hall).
    injection Hd as ->. apply conforms_cons. split.
    + rewrite length_take, length_drop. lia.
    + by apply Forall_take, Forall_drop.
  - apply conforms_cons_inv in Ht as (l & -> & Hl & Hall).
    simpl in Hd. apply conforms_cons. split; [by rewrite length_fmap|].
    apply Forall_fmap. eapply Forall_impl; [exact Hall|].
    intros y Hy. simpl. by eapply IH.
Qed.

Lemma length_bind_children e xs :
  Forall (λ x, length (children x) = e) xs →
  length (xs ≫= children) = length xs * e.
Proof.
  induction 1 as [|x xs Hx _ IH]; [done|].
  rewrite bind_cons, length_app, IH, Hx. simpl. lia.
Qed.

Lemma conforms_length_children n sh xs :
  Forall (λ x, conforms (n :: sh) x) xs →
  Forall (λ x, length (children x) = n) xs.
Proof.
  intros H. eapply Forall_impl; [exact H|]. intros y Hy. simpl in Hy.
  by apply conforms_cons_inv in Hy as (? & -> & ? & _).
Qed.

Lemma conforms_cat_nest d shx xs e m :
  Forall (λ x, conforms shx x) xs → shx !! d = Some e → m = length xs * e →
  conforms (<[d := m]> shx) (cat_nest (<[d := m]> shx) d xs).
Proof.
  intros Hxs Hd ->. revert shx xs Hxs Hd.
  induction d as [|d IH]; intros [|n shx] xs Hxs Hd; try done.
  - injection Hd as ->. apply conforms_cons. split.
    + by apply length_bind_children, (conforms_length_children _ shx).
    + apply Forall_bind. eapply Forall_impl; [exact Hxs|].
      intros y Hy. simpl in Hy.
      by apply conforms_cons_inv in Hy as (? & -> & ? & ?).
  - simpl in Hd. cbn [cat_nest insert list_insert]. apply conforms_cons.
    split; [by rewrite length_fmap, length_seq|].
    apply Forall_fmap, Forall_seq. intros i Hi. simpl.
    assert (length xs = length (child i <$> xs)) as -> by by rewrite length_fmap.
    apply IH; [|done]. apply (conforms_children n); [done|lia].
Qed.

End TensorShapes.

Section TensorLevel.
Context {A : Type}.
Implicit Types (t x : tensor A) (ts xs world : list (tensor A)) (sh : list nat).

Lemma tensor_eq t x : size t = size x → data t = data x → t = x.
Proof. destruct t, x. simpl. by intros -> ->. Qed.

Lemma uniform_size sh world : uniform sh world → Forall (λ t, size t = sh) world.
Proof. intros H. eapply Forall_impl; [exact H|]. by intros t [? _]. Qed.

Lemma uniform_data sh world :
  uniform sh world → Forall (λ y, conforms sh y) (data <$> world).
Proof.
  intros H. apply Forall_fmap. eapply Forall_impl; [exact H|].
  intros t [<- Hwf]. exact Hwf.
Qed.

Lemma uniform_lookup sh world j x :
  uniform sh world → world !! j = Some x → size x = sh ∧ wf x.
Proof. intros H Hj. exact (Forall_lookup_1 _ _ _ _ H Hj). Qed.

Lemma cat_size_uniform d sh ts e :
  ts ≠ [] → Forall (λ t, size t = sh) ts → sh !! d = Some e →
  cat_size d ts = <[d := length ts * e]> sh.
Proof.
  intros Hne Hts Hd. destruct ts as [|t0 ts]; [done|].
  unfold cat_size. rewrite (sum_list_fmap_same e).
  - by rewrite (Forall_inv Hts).
  - eapply Forall_impl; [exact Hts|]. intros t Ht. simpl.
    unfold extent. by rewrite Ht, Hd.
Qed.

Lemma uniform_narrow sh world d E start len :
  uniform sh world → sh !! d = Some E → start + len ≤ E →
  uniform (<[d := len]> sh) (narrow d start len <$> world).
Proof.
  intros H Hd Hle. apply Forall_fmap. eapply Forall_impl; [exact H|].
  intros t [<- Hwf]. simpl. split; [done|].
  unfold wf. simpl. by eapply conforms_narrow_nest.
Qed.

Lemma uniform_cat sh xs d e :
  uniform sh xs → xs ≠ [] → sh !! d = Some e →
  size (cat d xs) = <[d := length xs * e]> sh ∧ wf (cat d xs).
Proof.
  intros H Hne Hd. unfold wf, cat. simpl.
  rewrite (cat_size_uniform d sh xs e) by eauto using uniform_size.
  split; [done|].
  apply (conforms_cat_nest _ _ _ e); [by apply uniform_data|done|].
  by rewrite length_fmap.
Qed.

(** Chunk [j] of the concatenation of a uniform world is worker [j]'s
    tensor. *)
Lemma narrow_cat sh d xs j x e :
  uniform sh xs → sh !! d = Some e → xs !! j = Some x →
  narrow d (j * e) e (cat d xs) = x.
Proof.
  intros H Hd Hj.
  assert (xs ≠ []) as Hne by (by intros ->).
  destruct (uniform_lookup _ _ _ _ H Hj) as [Hsz _].
  apply tensor_eq; simpl.
  - rewrite (cat_size_uniform d sh xs e) by eauto using uniform_size.
    rewrite list_insert_insert_eq, Hsz. by apply list_insert_id.
  - apply (narrow_cat_nest _ _ sh); [by apply uniform_data|done| |].
    + rewrite (cat_size_uniform d sh xs e) by eauto using uniform_size.
      by rewrite take_insert_ge.
    + by rewrite list_lookup_fmap, Hj.
Qed.

(** The [W] chunks of a tensor, concatenated, are the tensor. *)
Lemma cat_chunks d t W c :
  wf t → size t !! d = Some (W * c) → 0 < W →
  cat d ((λ j, narrow d (j * c) c t) <$> seq 0 W) = t.
Proof.
  intros Hwf Hd HW.
  assert (cat_size d ((λ j, narrow d (j * c) c t) <$> seq 0 W) = size t) as Hsz.
  { rewrite (cat_size_uniform d (<[d := c]> (size t)) _ c).
    - rewrite length_fmap, length_seq, list_insert_insert_eq.
      by apply list_insert_id.
    - destruct W; [lia|done].
    - apply Forall_fmap, Forall_seq. by intros j _.
    - apply list_lookup_insert_eq. by eapply lookup_lt_Some. }
  apply tensor_eq; simpl; [done|].
  rewrite Hsz, <-list_fmap_compose. by apply cat_nest_chunks.
Qed.

End TensorLevel.

(** * The all-to-all exchange *)

Section ExchangeFacts.
Context {A : Type}.
Implicit Types (t x : tensor A) (world : list (tensor A)) (sh : list nat).

Lemma collect_fmap_Ok {E X Y : Type} (g : Y → res E X) (f : Y → X) (l : list Y) :
  Forall (λ y, g y = Ok (f y)) l → collect (g <$> l) = Ok (f <$> l).
Proof.
  induction 1 as [|y l Hy _ IH]; [done|].
  cbn [fmap list_fmap collect]. fold (fmap g l). fold (fmap f l).
  by rewrite Hy, IH.
Qed.

Lemma fmap_seq_lookup {X : Type} (f : nat → X) (l : list X) :
  (∀ j y, l !! j = Some y → f j = y) → f <$> seq 0 (length l) = l.
Proof.
  intros H. apply list_eq. intros j. rewrite list_lookup_fmap.
  destruct (l !! j) as [y|] eqn:Hj.
  - rewrite lookup_seq_lt by (by eapply lookup_lt_Some). simpl.
    by rewrite (H _ _ Hj).
  - rewrite lookup_seq_ge; [done|]. apply lookup_ge_None in Hj. lia.
Qed.

Lemma exact_division E W : E mod W = 0 → E = W * (E / W).
Proof. intros H. pose proof (Nat.div_mod_eq E W). lia. Qed.

Lemma all_to_all_ok world rank sd gd sh E G :
  rank < length world → uniform sh world →
  sh !! sd = Some E → sh !! gd = Some G → E mod length world = 0 →
  all_to_all world rank sd gd
  = Ok (cat gd (narrow sd (rank * (E / length world)) (E / length world) <$> world)).
Proof.
  intros Hr Hu Hsd Hgd Hdiv. unfold all_to_all.
  destruct (lookup_lt_is_Some_2 world rank Hr) as [input Hin].
  destruct (uniform_lookup _ _ _ _ Hu Hin) as [Hsz _].
  rewrite Hin, Hsz, Hsd, Hgd.
  rewrite bool_decide_eq_false_2 by (intros ?; done).
  rewrite bool_decide_eq_true_2; [done|].
  by apply uniform_size.
Qed.

Lemma all_to_all_not_divisible world rank sd gd sh E G :
  rank < length world → uniform sh world →
  sh !! sd = Some E → sh !! gd = Some G → E mod length world ≠ 0 →
  all_to_all world rank sd gd = Raise ShapeError.
Proof.
  intros Hr Hu Hsd Hgd Hdiv. unfold all_to_all.
  destruct (lookup_lt_is_Some_2 world rank Hr) as [input Hin].
  destruct (uniform_lookup _ _ _ _ Hu Hin) as [Hsz _].
  rewrite Hin, Hsz, Hsd, Hgd. by rewrite bool_decide_eq_true_2.
Qed.

(** What a worker holds after the exchange: size and well-formedness. *)
Lemma exchanged_uniform world rank sd gd sh E G' :
  rank < length world → uniform sh world →
  sh !! sd = Some E → <[sd := E / length world]> sh !! gd = Some G' →
  E mod length world = 0 →
  let out := cat gd (narrow sd (rank * (E / length world)) (E / length world) <$> world) in
  size out = <[gd := length world * G']> (<[sd := E / length world]> sh) ∧ wf out.
Proof.
  intros Hr Hu Hsd Hgd Hdiv. simpl.
  set (c := E / length world) in *.
  assert (uniform (<[sd := c]> sh) (narrow sd (rank * c) c <$> world)) as Hn.
  { eapply uniform_narrow; [done..|].
    pose proof (exact_division _ _ Hdiv). fold c in H. nia. }
  destruct (uniform_cat _ _ gd G' Hn) as [Hsz Hwf]; [|done|].
  { destruct world; [simpl in Hr; lia|done]. }
  by rewrite length_fmap in Hsz.
Qed.

(** C3 (as amended): for a world of W workers holding tensors of one
    size, with extent E along [scatter_dim] and G along [gather_dim]:
    if W does not divide E, the forward all-to-all of every worker
    fails with [ShapeError], whether or not the two dimensions differ;
    if W divides E it returns a well-formed tensor.  When the two
    dimensions differ, its size is the input size with E / W at
    [scatter_dim] and G * W at [gather_dim], the other dimensions
    unchanged; when they are one and the same dimension, its size is
    the size of the input: the W chunks of E / W go back together
    along the dimension they were cut from. *)
Theorem all_to_all_shape_law world rank scatter_dim gather_dim sh E G :
  rank < length world → uniform sh world →
  sh !! scatter_dim = Some E → sh !! gather_dim = Some G →
  (E mod length world = 0 →
     ∃ out, all_to_all world rank scatter_dim gather_dim = Ok out
            ∧ wf out
            ∧ (scatter_dim ≠ gather_dim →
               size out = <[gather_dim := G * length world]>
                            (<[scatter_dim := E / length world]> sh))
            ∧ (scatter_dim = gather_dim → size out = sh))
  ∧ (E mod length world ≠ 0 →
     all_to_all world rank scatter_dim gather_dim = Raise ShapeError).
Proof.
  intros Hr Hu Hsd Hgd. split; intros Hdiv.
  - eexists. split; [by eapply all_to_all_ok|].
    destruct (decide (scatter_dim = gather_dim)) as [<-|Hne].
    + destruct (exchanged_uniform world rank scatter_dim scatter_dim sh E
                  (E / length world)) as [Hsz Hwf]; try done.
      { apply list_lookup_insert_eq. by eapply lookup_lt_Some. }
      split; [done|]. split; [done|]. intros _.
      rewrite Hsz, list_insert_insert_eq, <-(exact_division _ _ Hdiv).
      by apply list_insert_id.
    + destruct (exchanged_uniform world rank scatter_dim gather_dim sh E G)
        as [Hsz Hwf]; try done.
      { by rewrite list_lookup_insert_ne. }
      split; [done|]. split; [|done]. intros _.
      by rewrite Hsz, (Nat.mul_comm G).
  - by eapply all_to_all_not_divisible.
Qed.

Lemma all_to_all_round_ok world sd gd sh E G :
  uniform sh world → sh !! sd = Some E → sh !! gd = Some G →
  E mod length world = 0 →
  all_to_all_round world sd gd
  = Ok ((λ r, cat gd (narrow sd (r * (E / length world)) (E / length world) <$> world))
          <$> seq 0 (length world)).
Proof.
  intros Hu Hsd Hgd Hdiv. unfold all_to_all_round.
  apply collect_fmap_Ok, Forall_seq. intros r Hr.
  eapply all_to_all_ok; [lia|done..].
Qed.

End ExchangeFacts.

Section RoundTrip.
Context {A : Type}.
Implicit Types (t x : tensor A) (world : list (tensor A)) (sh : list nat).

(** The world after one round is uniform again. *)
Lemma round_uniform world sd gd sh E G' :
  uniform sh world → sh !! sd = Some E →
  <[sd := E / length world]> sh !! gd = Some G' →
  E mod length world = 0 →
  uniform (<[gd := length world * G']> (<[sd := E / length world]> sh))
    ((λ r, cat gd (narrow sd (r * (E / length world)) (E / length world) <$> world))
       <$> seq 0 (length world)).
Proof.
  intros Hu Hsd Hgd Hdiv. apply Forall_fmap, Forall_seq. intros r Hr.
  apply (exchanged_uniform world r sd gd sh E G'); [lia|done..].
Qed.

Lemma exchange_there_and_back world a b sh E G :
  uniform sh world → sh !! a = Some E → sh !! b = Some G →
  E mod length world = 0 →
  ∃ world', all_to_all_round world a b = Ok world'
            ∧ all_to_all_round world' b a = Ok world.
Proof.
  intros Hu Ha Hb Hdiv.
  destruct (decide (length world = 0)) as [H0|HW].
  { apply nil_length_inv in H0 as ->. by exists []. }
  set (W := length world) in *. set (c := E / W) in *.
  assert (a < length sh) as Hla by by eapply lookup_lt_Some.
  assert (b < length sh) as Hlb by by eapply lookup_lt_Some.
  assert (∃ G', <[a := c]> sh !! b = Some G') as [G' Hb'].
  { apply lookup_lt_is_Some_2. by rewrite length_insert. }
  set (sh1 := <[a := c]> sh) in *.
  set (world' := (λ r, cat b (narrow a (r * c) c <$> world)) <$> seq 0 W).
  assert (length world' = W) as HW' by (unfold world'; by rewrite length_fmap, length_seq).
  exists world'. split; [by eapply all_to_all_round_ok|].
  pose proof (round_uniform world a b sh E G' Hu Ha Hb' Hdiv) as Hu'.
  fold W c sh1 world' in Hu'.
  assert (<[b := W * G']> sh1 !! b = Some (W * G')) as Hb2.
  { apply list_lookup_insert_eq. unfold sh1. by rewrite length_insert. }
  assert (∃ E', <[b := W * G']> sh1 !! a = Some E') as [E' Ha2].
  { apply lookup_lt_is_Some_2. unfold sh1. by rewrite !length_insert. }
  assert ((W * G') / W = G') as Hq by (rewrite Nat.mul_comm; apply Nat.div_mul; lia).
  rewrite (all_to_all_round_ok world' b a _ (W * G') E' Hu' Hb2 Ha2);
    rewrite HW'; [|rewrite Nat.mul_comm; by apply Nat.Div0.mod_mul].
  rewrite Hq. f_equal. apply fmap_seq_lookup. intros j x Hj.
  destruct (uniform_lookup _ _ _ _ Hu Hj) as [Hsz Hwf].
  pose proof (exact_division _ _ Hdiv) as HE. fold W c in HE.
  etrans; [|apply (cat_chunks a x W c); [done| |lia]].
  2:{ by rewrite Hsz, Ha, HE. }
  f_equal. unfold world'. rewrite <-list_fmap_compose.
  apply list_fmap_ext. intros i r [-> Hr]%lookup_seq. simpl.
  apply (narrow_cat sh1); [|done|by rewrite list_lookup_fmap, Hj].
  eapply uniform_narrow; [done..|]. nia.
Qed.

(** C5: on a world of tensors of one size whose extent along [a] the
    world size divides, the all-to-all with (scatter_dim = a,
    gather_dim = b) followed by the all-to-all with (scatter_dim = b,
    gather_dim = a) succeeds and gives every worker exactly the tensor
    it started with. *)
Theorem all_to_all_round_trip world a b sh E G :
  uniform sh world → sh !! a = Some E → sh !! b = Some G →
  E mod length world = 0 →
  ∃ world', all_to_all_round world a b = Ok world'
            ∧ all_to_all_round world' b a = Ok world.
Proof. apply exchange_there_and_back. Qed.

End RoundTrip.

(** * The inner product and the exchange *)

Section Sums.

Lemma sumZ_app (l k : list Z) : sumZ (l ++ k) = (sumZ l + sumZ k)%Z.
Proof. induction l as [|z l IH]; simpl; [done|]. rewrite IH. lia. Qed.

Lemma sumZ_fmap_zero {I : Type} (l : list I) : sumZ ((λ _, 0%Z) <$> l) = 0%Z.
Proof. induction l as [|i l IH]; csimpl; [done|]. by rewrite IH. Qed.

Lemma sumZ_fmap_add {I : Type} (f g : I → Z) (l : list I) :
  sumZ ((λ i, (f i + g i)%Z) <$> l) = (sumZ (f <$> l) + sumZ (g <$> l))%Z.
Proof. induction l as [|i l IH]; csimpl; [done|]. rewrite IH. lia. Qed.

Lemma sumZ_swap {I X Y : Type} (H : I → X → Y → Z) (l : list I) (xs : list X) (ys : list Y) :
  sumZ ((λ i, sumZ (zip_with (H i) xs ys)) <$> l)
  = sumZ (zip_with (λ x y, sumZ ((λ i, H i x y) <$> l)) xs ys).
Proof.
  revert ys. induction xs as [|x xs IH]; intros [|y ys]; simpl;
    try apply sumZ_fmap_zero.
  by rewrite (sumZ_fmap_add (λ i, H i x y)), IH.
Qed.

Lemma zip_with_ext_Forall {X Y R : Type} (f g : X → Y → R) (P : X → Prop) (Q : Y → Prop)
    (xs : list X) (ys : list Y) :
  Forall P xs → Forall Q ys → (∀ x y, P x → Q y → f x y = g x y) →
  zip_with f xs ys = zip_with g xs ys.
Proof.
  intros Hxs. revert ys. induction Hxs as [|x xs Hx _ IH]; intros ys Hys Hfg; [done|].
  destruct Hys as [|y ys Hy Hys]; [done|]. simpl.
  by rewrite (Hfg x y), IH.
Qed.

Lemma zip_with_fmap_seq {R S T : Type} (f : R → S → T) (F : nat → R) (G : nat → S) n :
  zip_with f (F <$> seq 0 n) (G <$> seq 0 n) = (λ i, f (F i) (G i)) <$> seq 0 n.
Proof. by rewrite zip_with_fmap_l, zip_with_fmap_r, zip_with_diag. Qed.

Lemma dot_nest_Node (l m : list (nest Z)) :
  dot_nest (Node l) (Node m) = sumZ (zip_with dot_nest l m).
Proof.
  simpl. revert m. induction l as [|x l IH]; intros [|y m]; simpl; try done.
  by rewrite IH.
Qed.

Lemma dot_world_sum (xs ys : list (tensor Z)) :
  dot_world xs ys = sumZ (zip_with dot xs ys).
Proof.
  revert ys. induction xs as [|x xs IH]; intros [|y ys]; simpl; try done.
  by rewrite IH.
Qed.

(** The inner product of two tensors is the sum over their rows. *)
Lemma dot_nest_rows n sh (x y : nest Z) :
  conforms (n :: sh) x → conforms (n :: sh) y →
  sumZ ((λ i, dot_nest (child i x) (child i y)) <$> seq 0 n) = dot_nest x y.
Proof.
  intros (l & -> & Hl & _)%conforms_cons_inv (m & -> & Hm & _)%conforms_cons_inv.
  rewrite dot_nest_Node, <-zip_with_fmap_seq.
  rewrite <-Hl at 1. rewrite <-Hm. by rewrite !children_rebuild.
Qed.

(** The inner product of two concatenations is the sum of the inner
    products of the parts. *)
Lemma dot_cat_nest d sh shx e (xs ys : list (nest Z)) :
  Forall (λ x, conforms shx x) xs → Forall (λ y, conforms shx y) ys →
  shx !! d = Some e → take d sh = take d shx →
  dot_nest (cat_nest sh d xs) (cat_nest sh d ys) = sumZ (zip_with dot_nest xs ys).
Proof.
  revert sh shx xs ys.
  induction d as [|d IH]; intros sh [|n shx] xs ys Hxs Hys Hd Hsh; try done.
  - cbn [cat_nest]. rewrite dot_nest_Node. clear Hsh. injection Hd as ->.
    revert ys Hys. induction Hxs as [|x xs Hx _ IHxs]; intros ys Hys; [done|].
    destruct Hys as [|y ys Hy Hys]; [by destruct ((x :: xs) ≫= children)|].
    apply conforms_cons_inv in Hx as (l & -> & Hl & _).
    apply conforms_cons_inv in Hy as (m & -> & Hm & _).
    rewrite !bind_cons. cbn [children zip_with sumZ foldr].
    rewrite zip_with_app by congruence.
    rewrite sumZ_app, (IHxs _ Hys), dot_nest_Node. done.
  - destruct sh as [|n' sh]; [done|]. simpl in Hsh, Hd.
    injection Hsh as -> Hsh. cbn [cat_nest].
    rewrite dot_nest_Node, zip_with_fmap_seq.
    etrans.
    { apply (f_equal sumZ). apply list_fmap_ext. intros i ? [-> Hi]%lookup_seq.
      simpl. rewrite (IH sh shx) by eauto using conforms_children.
      rewrite zip_with_fmap_l, zip_with_fmap_r. reflexivity. }
    rewrite (sumZ_swap (λ i x y, dot_nest (child i x) (child i y))).
    f_equal. eapply zip_with_ext_Forall; [exact Hxs|exact Hys|].
    intros x y Hx Hy. exact (dot_nest_rows n shx x y Hx Hy).
Qed.

End Sums.

Section Adjoint.
Implicit Types (x y : tensor Z) (xs ys : list (tensor Z)) (sh : list nat).

Lemma dot_cat d sh e xs ys :
  uniform sh xs → uniform sh ys → length xs = length ys → sh !! d = Some e →
  dot (cat d xs) (cat d ys) = dot_world xs ys.
Proof.
  intros Hx Hy Hlen Hd.
  destruct (decide (xs = [])) as [->|Hne].
  { destruct ys; [|done]. by destruct d. }
  assert (ys ≠ []) as Hne' by (intros ->; by destruct xs).
  unfold dot, cat. simpl.
  rewrite !(cat_size_uniform d sh _ e) by eauto using uniform_size.
  rewrite <-Hlen.
  rewrite (dot_cat_nest d _ sh e); [|by apply uniform_data..|done|by rewrite take_insert_ge].
  by rewrite dot_world_sum, zip_with_fmap_l, zip_with_fmap_r.
Qed.

Lemma dot_chunks d sh W c x y :
  size x = sh → wf x → size y = sh → wf y → sh !! d = Some (W * c) → 0 < W →
  sumZ ((λ r, dot (narrow d (r * c) c x) (narrow d (r * c) c y)) <$> seq 0 W)
  = dot x y.
Proof.
  intros Hsx Hwx Hsy Hwy Hd HW.
  assert (cat d ((λ j, narrow d (j * c) c x) <$> seq 0 W) = x) as Hcx
    by (apply cat_chunks; by rewrite ?Hsx).
  assert (cat d ((λ j, narrow d (j * c) c y) <$> seq 0 W) = y) as Hcy
    by (apply cat_chunks; by rewrite ?Hsy).
  trans (dot (cat d ((λ j, narrow d (j * c) c x) <$> seq 0 W))
             (cat d ((λ j, narrow d (j * c) c y) <$> seq 0 W)));
    [|by rewrite Hcx, Hcy].
  rewrite (dot_cat d (<[d := c]> sh) c).
  - by rewrite dot_world_sum, zip_with_fmap_seq.
  - apply Forall_fmap, Forall_seq. intros r Hr. simpl. split; [by rewrite Hsx|].
    unfold wf. simpl. rewrite Hsx. eapply conforms_narrow_nest; [by rewrite <-Hsx|done|nia].
  - apply Forall_fmap, Forall_seq. intros r Hr. simpl. split; [by rewrite Hsy|].
    unfold wf. simpl. rewrite Hsy. eapply conforms_narrow_nest; [by rewrite <-Hsy|done|nia].
  - by rewrite !length_fmap.
  - apply list_lookup_insert_eq. by eapply lookup_lt_Some.
Qed.

(** One round of the exchange preserves the inner product of two
    worlds. *)
Lemma round_isometry xs ys scatter_dim gather_dim sh E G xs' ys' :
  uniform sh xs → uniform sh ys → length xs = length ys →
  sh !! scatter_dim = Some E → sh !! gather_dim = Some G →
  E mod length xs = 0 →
  all_to_all_round xs scatter_dim gather_dim = Ok xs' →
  all_to_all_round ys scatter_dim gather_dim = Ok ys' →
  dot_world xs' ys' = dot_world xs ys.
Proof.
  intros Hx Hy Hlen Hs Hg Hdiv Hxs' Hys'.
  rewrite (all_to_all_round_ok xs _ _ sh E G) in Hxs' by done.
  rewrite (all_to_all_round_ok ys _ _ sh E G) in Hys' by (by rewrite <-?Hlen).
  injection Hxs' as <-. injection Hys' as <-. rewrite <-Hlen.
  destruct (decide (length xs = 0)) as [H0|HW].
  { apply nil_length_inv in H0 as ->. by destruct ys. }
  set (W := length xs) in *. set (c := E / W).
  pose proof (exact_division _ _ Hdiv) as HE. fold c in HE.
  assert (∃ G', <[scatter_dim := c]> sh !! gather_dim = Some G') as [G' Hg'].
  { apply lookup_lt_is_Some_2. rewrite length_insert. by eapply lookup_lt_Some. }
  rewrite dot_world_sum, zip_with_fmap_seq.
  etrans.
  { apply (f_equal sumZ). apply list_fmap_ext. intros i ? [-> Hi]%lookup_seq.
    simpl. rewrite (dot_cat gather_dim (<[scatter_dim := c]> sh) G').
    - rewrite dot_world_sum, zip_with_fmap_l, zip_with_fmap_r. reflexivity.
    - eapply uniform_narrow; [done..|nia].
    - eapply uniform_narrow; [done..|nia].
    - by rewrite !length_fmap.
    - done. }
  rewrite (sumZ_swap (λ r x y, dot (narrow scatter_dim (r * c) c x)
                                   (narrow scatter_dim (r * c) c y))).
  rewrite dot_world_sum. f_equal.
  eapply zip_with_ext_Forall; [exact Hx|exact Hy|].
  intros x y [Hsx Hwx] [Hsy Hwy].
  apply (dot_chunks scatter_dim sh W c); try done; [by rewrite Hs, HE|lia].
Qed.

End Adjoint.

Section Gradient.
Implicit Types (x y : tensor Z) (xs ys : list (tensor Z)) (sh : list nat).

Lemma round_result_uniform {A : Type} (world out : list (tensor A)) sd gd sh E G :
  uniform sh world → sh !! sd = Some E → sh !! gd = Some G →
  E mod length world = 0 →
  all_to_all_round world sd gd = Ok out →
  ∃ G', <[sd := E / length world]> sh !! gd = Some G'
        ∧ uniform (<[gd := length world * G']> (<[sd := E / length world]> sh)) out
        ∧ length out = length world.
Proof.
  intros Hu Hsd Hgd Hdiv Hout.
  assert (∃ G', <[sd := E / length world]> sh !! gd = Some G') as [G' HG'].
  { apply lookup_lt_is_Some_2. rewrite length_insert. by eapply lookup_lt_Some. }
  rewrite (all_to_all_round_ok world _ _ sh E G) in Hout by done.
  injection Hout as <-. exists G'. split; [done|]. split.
  - by apply round_uniform.
  - by rewrite length_fmap, length_seq.
Qed.

Lemma uniform_unique {A : Type} (world : list (tensor A)) sh sh' :
  world ≠ [] → uniform sh world → uniform sh' world → sh = sh'.
Proof.
  destruct world as [|t world]; [done|]. intros _ H H'.
  destruct (Forall_inv H) as [<- _]. by destruct (Forall_inv H') as [<- _].
Qed.

(** C4: the gradient rule registered by [dual_all_to_all] is the same
    all-to-all primitive applied to the output gradient with
    [scatter_dim] and [gather_dim] exchanged; it succeeds on every
    output gradient of the outputs' sizes, its result has the sizes of
    the inputs, and it is the exact adjoint of the forward exchange:
    the inner product of the outputs with the output gradient equals
    the inner product of the inputs with the input gradient. *)
Theorem dual_all_to_all_gradient xs scatter_dim gather_dim sh E G :
  uniform sh xs → sh !! scatter_dim = Some E → sh !! gather_dim = Some G →
  E mod length xs = 0 →
  ∃ outputs,
    forward (dual_all_to_all scatter_dim gather_dim) xs = Ok outputs
    ∧ ∀ grad_outputs,
        Forall2 (λ o g, size g = size o ∧ wf g) outputs grad_outputs →
        ∃ grad_inputs,
          backward (dual_all_to_all scatter_dim gather_dim) grad_outputs = Ok grad_inputs
          ∧ all_to_all_round grad_outputs gather_dim scatter_dim = Ok grad_inputs
          ∧ uniform sh grad_inputs
          ∧ length grad_inputs = length xs
          ∧ dot_world outputs grad_outputs = dot_world xs grad_inputs.
Proof.
  intros Hu Hs Hg Hdiv.
  destruct (exchange_there_and_back xs scatter_dim gather_dim sh E G)
    as (outputs & Hfwd & Hback); [done..|].
  exists outputs. split; [done|]. intros gs Hgs.
  destruct (decide (xs = [])) as [->|Hne].
  { injection Hfwd as <-. apply Forall2_nil_inv_l in Hgs as ->.
    exists []. by repeat split. }
  destruct (round_result_uniform xs outputs scatter_dim gather_dim sh E G) as (G' & HG' & Hu2 & Hlen2);
    [done..|].
  set (W := length xs) in *. set (sh2 := <[gather_dim := W * G']> _) in *.
  assert (uniform sh2 gs) as Hugs.
  { apply Forall_forall. intros g Hin.
    apply list_elem_of_lookup in Hin as [i Hi].
    destruct (Forall2_lookup_r _ _ _ _ _ Hgs Hi) as (o & Ho & Hsz & Hwf).
    destruct (uniform_lookup _ _ _ _ Hu2 Ho) as [<- _]. done. }
  assert (length gs = W) as Hlgs by (by rewrite <-(Forall2_length _ _ _ Hgs)).
  assert (sh2 !! gather_dim = Some (W * G')) as Hg2.
  { apply list_lookup_insert_eq. rewrite length_insert. by eapply lookup_lt_Some. }
  assert (∃ E2, sh2 !! scatter_dim = Some E2) as [E2 Hs2].
  { apply lookup_lt_is_Some_2. unfold sh2. rewrite !length_insert.
    by eapply lookup_lt_Some. }
  assert ((W * G') mod W = 0) as Hdiv2
    by (rewrite Nat.mul_comm; apply Nat.Div0.mod_mul).
  destruct (exchange_there_and_back gs gather_dim scatter_dim sh2 (W * G') E2)
    as (gi & Hbwd & Hfwd'); [done|done|done|by rewrite Hlgs|].
  exists gi.
  destruct (round_result_uniform outputs xs gather_dim scatter_dim sh2 (W * G') E2)
    as (G3 & HG3 & Hu3 & _); [done|done|done|by rewrite Hlen2|done|].
  destruct (round_result_uniform gs gi gather_dim scatter_dim sh2 (W * G') E2)
    as (G4 & HG4 & Hu4 & Hlen4); [done|done|done|by rewrite Hlgs|done|].
  rewrite Hlen2 in HG3, Hu3. rewrite Hlgs in HG4, Hu4, Hlen4.
  rewrite HG3 in HG4. injection HG4 as <-.
  rewrite <-(uniform_unique xs sh _ Hne Hu Hu3) in Hu4.
  repeat split; try done.
  by apply (round_isometry xs gi scatter_dim gather_dim sh E G).
Qed.

End Gradient.

(** * The claims about the exchange at concrete inputs *)

Lemma example_world_uniform : uniform [2; 2] example_world.
Proof. repeat (constructor; [split; [reflexivity|exact I]|]). constructor. Qed.

(** C3, as stated, fails when [scatter_dim] and [gather_dim] are the
    same dimension, which the spec allows: two workers hold 2 x 2
    tensors, E = 2 is divisible by W = 2, and the output has extent 2
    along that dimension, neither E / W = 1 nor G * W = 4. *)
Lemma all_to_all_same_dim_counterexample :
  ∃ out, all_to_all example_world 0 0 0 = Ok out
         ∧ extent 0 <$> example_world = [2; 2]
         ∧ 2 mod length example_world = 0
         ∧ extent 0 out = 2
         ∧ extent 0 out ≠ 2 / length example_world
         ∧ extent 0 out ≠ 2 * length example_world.
Proof. eexists. split; [reflexivity|]. vm_compute. by repeat split. Qed.

Lemma all_to_all_shape_law_witness :
  (2 mod length example_world = 0 →
     ∃ out, all_to_all example_world 0 0 1 = Ok out
            ∧ wf out
            ∧ (0 ≠ 1 → size out = <[1 := 2 * length example_world]>
                                    (<[0 := 2 / length example_world]> [2; 2]))
            ∧ (0 = 1 → size out = [2; 2]))
  ∧ (2 mod length example_world ≠ 0 →
     all_to_all example_world 0 0 1 = Raise ShapeError).
Proof.
  apply (all_to_all_shape_law example_world 0 0 1 [2; 2] 2 2).
  - simpl. lia.
  - apply example_world_uniform.
  - reflexivity.
  - reflexivity.
Defined.

Lemma all_to_all_round_trip_witness :
  ∃ world', all_to_all_round example_world 0 1 = Ok world'
            ∧ all_to_all_round world' 1 0 = Ok example_world.
Proof.
  apply (all_to_all_round_trip example_world 0 1 [2; 2] 2 2).
  - apply example_world_uniform.
  - reflexivity.
  - reflexivity.
  - reflexivity.
Defined.

Lemma dual_all_to_all_gradient_witness :
  ∃ outputs,
    forward (dual_all_to_all 0 1) example_world = Ok outputs
    ∧ ∀ grad_outputs,
        Forall2 (λ o g, size g = size o ∧ wf g) outputs grad_outputs →
        ∃ grad_inputs,
          backward (dual_all_to_all 0 1) grad_outputs = Ok grad_inputs
          ∧ all_to_all_round grad_outputs 1 0 = Ok grad_inputs
          ∧ uniform [2; 2] grad_inputs
          ∧ length grad_inputs = length example_world
          ∧ dot_world outputs grad_outputs = dot_world example_world grad_inputs.
Proof.
  apply (dual_all_to_all_gradient example_world 0 1 [2; 2] 2 2).
  - apply example_world_uniform.
  - reflexivity.
  - reflexivity.
  - reflexivity.
Defined.

(** The exchange at work: what each of the two workers holds. *)
Example all_to_all_round_example :
  all_to_all_round example_world 0 1
  = Ok [matrix [[1; 2; 5; 6]]%Z 4; matrix [[3; 4; 7; 8]]%Z 4].
Proof. reflexivity. Qed.

Example all_to_all_not_divisible_example :
  all_to_all [matrix [[1; 2]; [3; 4]; [5; 6]]%Z 2; matrix [[1; 2]; [3; 4]; [5; 6]]%Z 2] 0 0 1
  = Raise ShapeError.
Proof. reflexivity. Qed.

(** [_test_all_to_all_fwd], [_test_all_to_all_bwd] and the size and
    gradient assertions of [_test_dual_all_to_all], for 2 workers. *)
Example test_all_to_all_fwd :
  ∃ outputs, all_to_all_round (test_world 4 4) 0 1 = Ok outputs
             ∧ _collect_tensors (test_world 4 4) 1 = _collect_tensors outputs 0.
Proof. eexists. split; [vm_compute; reflexivity|]. vm_compute. reflexivity. Qed.

Example test_all_to_all_bwd :
  ∃ outputs, all_to_all_round (test_world 2 8) 1 0 = Ok outputs
             ∧ _collect_tensors (test_world 2 8) 0 = _collect_tensors outputs 1.
Proof. eexists. split; [vm_compute; reflexivity|]. vm_compute. reflexivity. Qed.

Example test_dual_all_to_all :
  ∃ outputs, forward (dual_all_to_all 0 1) (test_world 4 4) = Ok outputs
             ∧ Forall (λ o, size o = [2; 8]) outputs
             ∧ backward (dual_all_to_all 0 1) outputs = Ok (test_world 4 4).
Proof.
  eexists. split; [vm_compute; reflexivity|]. split; [by repeat constructor|].
  vm_compute. reflexivity.
Qed.

(** * The pipeline *)

Section Monad.

Lemma bind_run {X Y : Type} (m : M X) (f : X → M Y) w :
  (m ≫= f) w = match m w with
               | (Ok x, w') => f x w'
               | (Raise e, w') => (Raise e, w')
               end.
Proof. done. Qed.

Lemma bind_Ok_inv {X Y : Type} (m : M X) (f : X → M Y) w y w'' :
  (m ≫= f) w = (Ok y, w'') → ∃ x w', m w = (Ok x, w') ∧ f x w' = (Ok y, w'').
Proof.
  rewrite bind_run. destruct (m w) as [[x|e] w']; [|done]. intros H. by exists x, w'.
Qed.

Lemma frame_refl w : frame w w.
Proof.
  repeat split; try done. exists []. by rewrite app_nil_r.
Qed.

Lemma frame_trans w1 w2 w3 : frame w1 w2 → frame w2 w3 → frame w1 w3.
Proof.
  intros (Hs & Hl & Hp & Hi & Hc & Hn & Hk & evs & Hlog & Hevs)
         (Hs' & Hl' & Hp' & Hi' & Hc' & Hn' & Hk' & evs' & Hlog' & Hevs').
  repeat split; try congruence; [lia|].
  exists (evs ++ evs'). split; [by rewrite Hlog', Hlog, app_assoc|].
  apply Forall_app. split; [done|]. by rewrite <-Hc.
Qed.

Lemma framing_bind {X Y : Type} (m : M X) (f : X → M Y) :
  framing m → (∀ x, framing (f x)) → framing (m ≫= f).
Proof.
  intros Hm Hf w. rewrite bind_run. specialize (Hm w).
  destruct (m w) as [[x|e] w']; [|done].
  eapply frame_trans; [exact Hm|apply Hf].
Qed.

Lemma framing_ret {X : Type} (x : X) : framing (mret x).
Proof. intros w. apply frame_refl. Qed.

Lemma framing_raise {X : Type} (e : exn) : framing (@raise X e).
Proof. intros w. apply frame_refl. Qed.

Lemma framing_get_batch v : framing (get_batch v).
Proof.
  intros w. unfold get_batch. destruct v as [r|]; [|apply frame_refl].
  destruct (heap w !! r) as [[b|]|]; apply frame_refl.
Qed.

Lemma framing_transfer {X : Type} r a target nb (x : X) :
  framing (on ← gets current_stream; emit (To r a target nb on);; mret x).
Proof.
  intros w. repeat split; try done. exists [To r a target nb (current_stream w)].
  split; [done|]. apply Forall_singleton. by eexists _, _, _, _.
Qed.

Lemma framing_split_take x ws rank : framing (split_take x ws rank).
Proof.
  intros w. unfold split_take. destruct (tensor_split _ _ _) as [shards|];
    [|apply frame_refl].
  destruct (shards !! rank); apply frame_refl.
Qed.

Lemma is_batch_at_insert r i h b f :
  h !! r = Some (BatchObject b) →
  is_batch_at i (<[r := BatchObject (f b)]> h) = is_batch_at i h.
Proof.
  intros Hr. unfold is_batch_at. destruct (decide (r = i)) as [->|Hne].
  - rewrite list_lookup_insert_eq by (by eapply lookup_lt_Some). by rewrite Hr.
  - by rewrite list_lookup_insert_ne.
Qed.

Lemma framing_update_batch r f : framing (update_batch r f).
Proof.
  intros w. unfold update_batch, modify. simpl.
  repeat split; simpl; try done.
  - destruct (heap w !! r) as [[b|]|]; by rewrite ?length_insert.
  - intros i. destruct (heap w !! r) as [[b|]|] eqn:Hr; try done.
    by apply is_batch_at_insert.
  - exists []. by rewrite app_nil_r.
Qed.

Lemma framing_new_tuple d s l : framing (new_tuple d s l).
Proof.
  intros w. repeat split; simpl; try done.
  - rewrite length_app. lia.
  - intros i. unfold is_batch_at.
    destruct (decide (i < length (heap w))) as [Hi|Hi].
    + by rewrite lookup_app_l.
    + rewrite lookup_app_r by lia. rewrite (lookup_ge_None_2 (heap w)) by lia.
      by destruct (i - length (heap w)).
  - exists []. by rewrite app_nil_r.
Qed.

Lemma framing_to_device r a x target nb : framing (to_device r a x target nb).
Proof. apply framing_transfer. Qed.

Lemma framing_kjt_to_device r x target nb : framing (kjt_to_device r x target nb).
Proof. apply framing_transfer. Qed.

(** Placement leaves the engine alone: it only issues transfers on the
    current stream and edits or adds objects. *)
Lemma framing_put_data_in_device batch dd sd d rank ws nb :
  framing (put_data_in_device batch dd sd d rank ws nb).
Proof.
  unfold put_data_in_device. destruct d;
    repeat first
      [ apply framing_get_batch | apply framing_to_device
      | apply framing_kjt_to_device
      | apply framing_split_take | apply framing_update_batch
      | apply framing_new_tuple | apply framing_ret
      | apply framing_bind; [|intros ?]
      | match goal with |- framing (let '(_, _) := ?p in _) => destruct p end ].
Qed.

End Monad.

Section Placement.

Lemma tensor_split_from_length {A : Type} (t : tensor A) dim q r idxs start :
  length (tensor_split_from t dim q r idxs start) = length idxs.
Proof.
  revert start. induction idxs as [|i idxs IH]; intros start; [done|].
  simpl. by rewrite IH.
Qed.

Lemma tensor_split_from_narrow {A : Type} (t : tensor A) dim q r idxs start :
  Forall (λ s, ∃ a l, s = narrow dim a l t) (tensor_split_from t dim q r idxs start).
Proof.
  revert start. induction idxs as [|i idxs IH]; intros start; [done|].
  simpl. constructor; [by eexists _, _|]. apply IH.
Qed.

(** With [rank < world_size], [tensor_split(x, world_size, dim=0)[rank]]
    succeeds on a tensor of at least one dimension, and its result has
    as many dimensions. *)
Lemma split_take_ok x world_size rank :
  rank < world_size → size (payload x) ≠ [] →
  ∃ shard, split_take x world_size rank = mret (mkTorchTensor (tensor_device x) shard)
           ∧ size shard ≠ [].
Proof.
  intros Hr Hsz. unfold split_take, tensor_split.
  destruct (size (payload x)) as [|n sh] eqn:Hs; [done|]. simpl.
  rewrite bool_decide_eq_false_2 by lia.
  set (shards := tensor_split_from _ _ _ _ _ _).
  destruct (lookup_lt_is_Some_2 shards rank) as [shard Hshard].
  { unfold shards. by rewrite tensor_split_from_length, length_seq. }
  rewrite Hshard. exists shard. split; [done|].
  pose proof (tensor_split_from_narrow (payload x) 0 (n / world_size)
                (n `mod` world_size) (seq 0 world_size) 0) as Hall.
  destruct (Forall_lookup_1 _ _ _ _ Hall Hshard) as (a & l & ->).
  simpl. by rewrite Hs.
Qed.

Lemma put_data_in_device_dist r b dd sd rank ws nb w :
  heap w !! r = Some (BatchObject b) →
  put_data_in_device (Some r) dd sd true rank ws nb w
  = (Ok (Some (length (heap w))),
     mkWorld (heap w ++ [TupleObject (tensor_to (dense_features b) dd)
                           (kjt_to (sparse_features b) sd)
                           (tensor_to (labels b) dd)])
             (dataloader_iter w)
             (log w ++ [To r attr_dense_features dd false (current_stream w);
                        To r attr_sparse_features sd false (current_stream w);
                        To r attr_labels dd false (current_stream w)])
             (current_stream w) (self w) (locals w) (peak w)).
Proof.
  intros Hr. unfold put_data_in_device, to_device, kjt_to_device, get_batch,
    new_tuple, emit, modify, gets, mbind, M_bind, mret, M_ret.
  repeat (cbn; rewrite Hr). cbn. by rewrite <-!app_assoc.
Qed.

Lemma put_data_in_device_dist_fails v dd sd rank ws nb w :
  (∀ r, v = Some r → is_batch_at r (heap w) = false) →
  put_data_in_device v dd sd true rank ws nb w = (Raise AttributeError, w).
Proof.
  intros Hv. unfold put_data_in_device, get_batch. rewrite bind_run.
  destruct v as [r|]; [|done]. specialize (Hv r eq_refl).
  unfold is_batch_at in Hv. by destruct (heap w !! r) as [[?|]|].
Qed.

Lemma put_data_in_device_local r b dd sd rank ws nb w dense label :
  heap w !! r = Some (BatchObject b) →
  split_take (tensor_to (dense_features b) dd) ws rank = mret dense →
  split_take (tensor_to (labels b) dd) ws rank = mret label →
  put_data_in_device (Some r) dd sd false rank ws nb w
  = (Ok (Some r),
     mkWorld (<[r := BatchObject (mkBatch dense (kjt_to (sparse_features b) sd) label)]>
                (heap w))
             (dataloader_iter w)
             (log w ++ [To r attr_dense_features dd nb (current_stream w);
                        To r attr_labels dd nb (current_stream w);
                        To r attr_sparse_features sd nb (current_stream w)])
             (current_stream w) (self w) (locals w) (peak w)).
Proof.
  intros Hr Hd Hl.
  assert (r < length (heap w)) as Hlt by by eapply lookup_lt_Some.
  unfold put_data_in_device, to_device, kjt_to_device, get_batch,
    update_batch, emit, modify, gets, mbind, M_bind.
  repeat (cbn;
          first [ rewrite Hr | rewrite Hd | rewrite Hl
                | rewrite list_lookup_insert_eq by (by rewrite ?length_insert)
                | progress unfold mret, M_ret ]).
  cbn. rewrite !list_insert_insert_eq. rewrite <-!app_assoc. reflexivity.
Qed.

Lemma put_data_in_device_local_returns batch dd sd rank ws nb w v w' :
  put_data_in_device batch dd sd false rank ws nb w = (Ok v, w') → v = batch.
Proof.
  unfold put_data_in_device. intros H.
  repeat (apply bind_Ok_inv in H as (? & ? & _ & H);
          try match type of H with (let '(_, _) := ?p in _) _ = _ => destruct p end).
  by injection H as <- _.
Qed.

End Placement.

Section Engine.

Lemma update_metrics_run r n i w :
  update_metrics r n i w = (Ok tt, set_log w (log w ++ metric_events r n i)).
Proof.
  revert i w. induction n as [|n IH]; intros i w.
  - simpl. unfold mret, M_ret, set_log. rewrite app_nil_r. by destruct w.
  - cbn [update_metrics metric_events]. rewrite bind_run. cbn.
    rewrite IH. unfold set_log. cbn. by rewrite <-app_assoc.
Qed.

End Engine.

(** Symbolic execution of the engine: unfold the statements, then
    simplify up to the calls that have their own lemmas. *)
Ltac unfold_engine H :=
  unfold progress, call, call_connect, _connect, with_stream, _wait_for_batch,
    when, set_self, set_locals, set_stream, modify, gets, emit, raise, next,
    get_batch, mbind, M_bind, mret, M_ret in H.

Lemma progress_exhausted d rank ws w :
  _connected (self w) = true → dataloader_iter w = [] →
  ∃ w', progress d rank ws w = (Raise StopIteration, w')
        ∧ heap w' = heap w ∧ log w' = log w ∧ self w' = self w
        ∧ locals w' = no_locals ∧ dataloader_iter w' = []
        ∧ current_stream w' = current_stream w.
Proof.
  intros Hc Hi. eexists. split.
  - unfold progress, call, call_connect, _connect, with_stream, _wait_for_batch,
    when, set_self, set_locals, set_stream, modify, gets, emit, raise, next,
    get_batch, mbind, M_bind, mret, M_ret.
    cbn -[put_data_in_device update_metrics held_refs]. rewrite Hc.
    cbn -[put_data_in_device update_metrics held_refs]. rewrite Hi.
    cbn -[put_data_in_device update_metrics held_refs]. reflexivity.
  - cbn. done.
Qed.

Ltac run := cbn -[put_data_in_device update_metrics held_refs staging_events progress_events].

Ltac unfold_engine_goal :=
  unfold progress, call, call_connect, _connect, with_stream, _wait_for_batch,
    when, set_self, set_locals, set_stream, modify, gets, emit, raise, next,
    get_batch, mbind, M_bind, mret, M_ret.

Lemma splittable_split b dd rank ws :
  splittable b → rank < ws →
  ∃ dense label,
    split_take (tensor_to (dense_features b) dd) ws rank = mret dense
    ∧ split_take (tensor_to (labels b) dd) ws rank = mret label
    ∧ ∀ sparse, splittable (mkBatch dense sparse label).
Proof.
  intros [Hd Hl] Hr.
  destruct (split_take_ok (tensor_to (dense_features b) dd) ws rank) as (d & Hsd & Hnd);
    [done|by destruct dd|].
  destruct (split_take_ok (tensor_to (labels b) dd) ws rank) as (l & Hsl & Hnl);
    [done|by destruct dd|].
  eexists _, _. split; [exact Hsd|]. split; [exact Hsl|]. by split.
Qed.

Lemma insert_last {X : Type} (l : list X) (x y : X) :
  <[length l := y]> (l ++ [x]) = l ++ [y].
Proof. rewrite insert_app_r_alt by done. by rewrite Nat.sub_diag. Qed.

Lemma set_cur_batch_same p r v :
  _cur_batch p = Some r → set_cur_batch (Some r) (set_cur_batch v p) = p.
Proof. destruct p. simpl. by intros ->. Qed.

Lemma call_connect_local rank ws w b rest :
  _connect_attr (self w) = BoundMethod → dataloader_iter w = b :: rest →
  splittable b → rank < ws → current_stream w = default_stream →
  ∃ w' b', call_connect false rank ws w = (Ok tt, w')
    ∧ heap w' = heap w ++ [BatchObject b'] ∧ splittable b'
    ∧ dataloader_iter w' = rest
    ∧ log w' = log w ++ Next (length (heap w)) :: staging_events (self w) (length (heap w))
    ∧ self w' = set_connected true (set_cur_batch (Some (length (heap w))) (self w))
    ∧ locals w' = mkLocals (next_batch (locals w)) (cur_batch (locals w)) None
    ∧ current_stream w' = default_stream.
Proof.
  intros Hattr Hiter Hb Hr Hcs.
  destruct (splittable_split b (_sparse_device (self w)) rank ws Hb Hr)
    as (dense & label & Hd & Hl & Hsp).
  assert ((heap w ++ [BatchObject b]) !! length (heap w) = Some (BatchObject b)) as Hn
    by by apply list_lookup_middle.
  destruct (_memcpy_stream (self w)) eqn:Hs.
  - eexists _, _. split.
    { unfold_engine_goal. run. rewrite Hattr, Hiter. run. rewrite Hs. run.
      erewrite put_data_in_device_local; [|run; exact Hn|run; exact Hd|exact Hl].
      run. reflexivity. }
    run. rewrite insert_last, <-app_assoc. unfold staging_events, staging_stream.
    rewrite Hs. split; [reflexivity|]. split; [apply Hsp|]. by repeat split.
  - eexists _, _. split.
    { unfold_engine_goal. run. rewrite Hattr, Hiter. run. rewrite Hs. run.
      erewrite put_data_in_device_local; [|run; exact Hn|run; exact Hd|exact Hl].
      run. reflexivity. }
    run. rewrite insert_last, <-app_assoc. unfold staging_events, staging_stream.
    rewrite Hs, Hcs. split; [reflexivity|]. split; [apply Hsp|]. by repeat split.
Qed.

Lemma progress_local rank ws w r b nb rest :
  _connected (self w) = true → _cur_batch (self w) = Some r →
  heap w !! r = Some (BatchObject b) → splittable b →
  dataloader_iter w = nb :: rest → rank < ws →
  current_stream w = default_stream → runnable (self w) →
  ∃ w' b', progress false rank ws w = (Ok tt, w')
    ∧ heap w' = <[r := BatchObject b']> (heap w ++ [BatchObject nb])
    ∧ splittable b'
    ∧ dataloader_iter w' = rest
    ∧ log w' = log w ++ progress_events (self w) (length (heap w)) r b
    ∧ self w' = self w
    ∧ locals w' = no_locals
    ∧ current_stream w' = default_stream.
Proof.
  intros Hc Hcur Hr Hb Hiter Hrank Hcs Hrun.
  destruct (splittable_split b (_sparse_device (self w)) rank ws Hb Hrank)
    as (dense & label & Hd & Hl & Hsp).
  assert ((heap w ++ [BatchObject nb]) !! r = Some (BatchObject b)) as Hr'
    by (by apply lookup_app_l_Some).
  unfold runnable in Hrun.
  destruct (training (self w)) eqn:Ht; [destruct Hrun as [Hcrit Hopt]; [done|]|];
    destruct (_memcpy_stream (self w)) eqn:Hs.
  all: eexists _, _; split;
    [ unfold_engine_goal;
      repeat first
        [ progress run
        | match goal with H : ?x = _ |- context [?x] => rewrite H end
        | rewrite update_metrics_run
        | erewrite put_data_in_device_local; [|run; eassumption..] ];
      reflexivity
    | run; unfold progress_events, staging_events, staging_stream;
      rewrite ?Ht, ?Hs, ?Hcs, (set_cur_batch_same _ _ _ Hcur); run;
      (split; [reflexivity|]); (split; [apply Hsp|]);
      repeat split; try done; rewrite <-?app_assoc; try done ].
Qed.

Lemma connect_local rank ws w b rest :
  _connect_attr (self w) = BoundMethod → dataloader_iter w = b :: rest →
  splittable b → rank < ws → current_stream w = default_stream →
  ∃ w' b', connect false rank ws w = (Ok tt, w')
    ∧ heap w' = heap w ++ [BatchObject b'] ∧ splittable b'
    ∧ dataloader_iter w' = rest
    ∧ log w' = log w ++ Next (length (heap w)) :: staging_events (self w) (length (heap w))
    ∧ self w' = set_connected true (set_cur_batch (Some (length (heap w))) (self w))
    ∧ locals w' = no_locals
    ∧ current_stream w' = default_stream.
Proof.
  intros Hattr Hiter Hb Hr Hcs.
  destruct (call_connect_local rank ws w b rest Hattr Hiter Hb Hr Hcs)
    as (w' & b' & Hrun & Hh & Hsp & Hi & Hl & Hs & _ & Hc).
  eexists _, b'. split.
  - unfold connect, call. rewrite Hrun. reflexivity.
  - cbn. split; [done|]. split; [done|]. by repeat split.
Qed.

Lemma pulled_app l k : pulled (l ++ k) = pulled l ++ pulled k.
Proof. apply omap_app. Qed.

Lemma consumed_app l k : consumed (l ++ k) = consumed l ++ consumed k.
Proof. apply omap_app. Qed.

Lemma pulled_metric_events r n i : pulled (metric_events r n i) = [].
Proof. revert i. induction n as [|n IH]; intros i; [done|]. simpl. apply IH. Qed.

Lemma consumed_metric_events r n i : consumed (metric_events r n i) = [].
Proof. revert i. induction n as [|n IH]; intros i; [done|]. simpl. apply IH. Qed.

Lemma staged_ok_metric_events pending r n i l :
  staged_ok pending (metric_events r n i ++ l) = staged_ok pending l.
Proof. revert i. induction n as [|n IH]; intros i; [done|]. simpl. apply IH. Qed.

Lemma pulled_progress_events p n r b : pulled (progress_events p n r b) = [n].
Proof.
  unfold progress_events, staging_events. rewrite !pulled_app, pulled_metric_events.
  by destruct (training p), (_memcpy_stream p).
Qed.

Lemma consumed_progress_events p n r b : consumed (progress_events p n r b) = [r].
Proof.
  unfold progress_events, staging_events. rewrite !consumed_app, consumed_metric_events.
  by destruct (training p), (_memcpy_stream p).
Qed.

Lemma staged_ok_staging_events p r pending l :
  _memcpy_stream p = None ∨ _memcpy_stream p = Some memcpy_stream →
  staged_ok pending (staging_events p r ++ l)
  = staged_ok (if _memcpy_stream p is Some _ then r :: r :: r :: pending else pending) l.
Proof.
  unfold staging_events, staging_stream. by intros [-> | ->].
Qed.

Lemma staged_ok_progress_events p n r b pending l :
  _memcpy_stream p = None ∨ _memcpy_stream p = Some memcpy_stream →
  staged_ok pending (progress_events p n r b ++ l)
  = if _memcpy_stream p is Some _ then staged_ok [r; r; r] l
    else bool_decide (r ∉ pending) && staged_ok pending l.
Proof.
  intros Hms. unfold progress_events. rewrite <-!app_assoc.
  destruct (training p); destruct Hms as [Hms | Hms]; rewrite Hms;
    cbn -[staging_events];
    rewrite ?bool_decide_eq_true_2 by apply not_elem_of_nil;
    cbn -[staging_events]; rewrite staged_ok_metric_events;
    cbn -[staging_events]; rewrite staged_ok_staging_events by auto;
    rewrite Hms; done.
Qed.

Lemma init_fields training crit opt sparse dense metrics :
  let p := __init__ training crit opt sparse dense metrics in
  _connect_attr p = BoundMethod ∧ _connected p = false ∧ _cur_batch p = None
  ∧ (_memcpy_stream p = None ∨ _memcpy_stream p = Some memcpy_stream).
Proof. simpl. repeat split. destruct sparse as [[|]|]; simpl; auto. Qed.

(** C1 (as amended): on a fresh engine fed three batches [B0, B1, B2]
    that can be split, without distributed batches and with
    [rank < world_size]: after one [connect()] the first two
    [progress()] calls return and the third raises [StopIteration] from
    its pull; the iterator was pulled in the order B0, B1, B2, each once;
    the forward computation ran exactly twice, first on B0 and never on
    B2, which was pulled but not consumed; and no forward computation
    ran on a batch with a transfer on the copy stream that the compute
    stream had not joined. *)
Theorem progress_order_by_design training crit opt sparse dense metrics rank ws B0 B1 B2 :
  (training = true → crit = true ∧ opt = true) → rank < ws →
  splittable B0 → splittable B1 → splittable B2 →
  let w0 := start (__init__ training crit opt sparse dense metrics) [B0; B1; B2] in
  ∃ w2 w3,
    (connect false rank ws;; progress false rank ws;; progress false rank ws) w0 = (Ok tt, w2)
    ∧ progress false rank ws w2 = (Raise StopIteration, w3)
    ∧ connect_then_three_progress false rank ws w0 = (Raise StopIteration, w3)
    ∧ pulled (log w3) = [0; 1; 2]
    ∧ (∃ second, consumed (log w3) = [0; second] ∧ second ≠ 2)
    ∧ staged_ok [] (log w3) = true.
Proof.
  intros Hrun Hrank H0 H1 H2 w0.
  set (p := __init__ training crit opt sparse dense metrics) in *.
  destruct (init_fields training crit opt sparse dense metrics) as (Ha & _ & _ & Hms).
  fold p in Ha, Hms.
  destruct (connect_local rank ws w0 B0 [B1; B2]) as
    (w1 & b0 & Hr1 & Hh1 & Hs1 & Hi1 & Hl1 & Hp1 & _ & Hc1); try done.
  simpl in Hh1, Hl1, Hp1.
  assert (runnable (self w1)) as Hrun1 by (by rewrite Hp1).
  destruct (progress_local rank ws w1 0 b0 B1 [B2]) as
    (w2 & b0' & Hr2 & Hh2 & Hs2 & Hi2 & Hl2 & Hp2 & _ & Hc2);
    [by rewrite Hp1|by rewrite Hp1|by rewrite Hh1|done..|].
  rewrite Hh1 in Hh2, Hl2. simpl in Hh2, Hl2.
  destruct (progress_local rank ws w2 0 b0' B2 []) as
    (w3 & b0'' & Hr3 & Hh3 & Hs3 & Hi3 & Hl3 & Hp3 & _ & Hc3);
    [by rewrite Hp2, Hp1|by rewrite Hp2, Hp1|by rewrite Hh2|done|done|done|done
    |by rewrite Hp2|].
  rewrite Hh2 in Hh3, Hl3. simpl in Hh3, Hl3.
  destruct (progress_exhausted false rank ws w3) as (w4 & Hr4 & _ & Hl4 & _);
    [by rewrite Hp3, Hp2, Hp1|done|].
  exists w3, w4.
  assert ((connect false rank ws;; progress false rank ws;; progress false rank ws) w0
          = (Ok tt, w3)) as Hfirst.
  { rewrite bind_run, Hr1, bind_run, Hr2. exact Hr3. }
  split; [exact Hfirst|]. split; [exact Hr4|]. split.
  { unfold connect_then_three_progress.
    rewrite bind_run, Hr1, bind_run, Hr2, bind_run, Hr3. exact Hr4. }
  rewrite Hl4, Hl3, Hl2, Hl1, Hp2, Hp1.
  split; [|split].
  - rewrite !pulled_app, !pulled_progress_events. done.
  - exists 0. split; [|done]. rewrite !consumed_app, !consumed_progress_events. done.
  - rewrite <-(app_nil_r (progress_events _ 2 0 b0')), <-!app_assoc.
    cbn [app staged_ok].
    rewrite staged_ok_staging_events, !staged_ok_progress_events by done.
    change (_memcpy_stream (set_connected true (set_cur_batch (Some 0) p)))
      with (_memcpy_stream p).
    destruct Hms as [-> | ->]; [|done].
    by rewrite !bool_decide_eq_true_2 by apply not_elem_of_nil.
Qed.

Lemma remove_dups_le2 (a b : nat) (l : list nat) :
  (∀ x, x ∈ l → x = a ∨ x = b) → length (remove_dups l) ≤ 2.
Proof.
  intros H.
  assert (remove_dups l ⊆+ remove_dups [a; b]) as Hsub.
  { apply NoDup_submseteq; [apply NoDup_remove_dups|].
    intros x Hx. rewrite elem_of_remove_dups in Hx. rewrite elem_of_remove_dups.
    rewrite !elem_of_cons. destruct (H x Hx) as [-> | ->]; auto. }
  apply submseteq_length in Hsub.
  assert (length (remove_dups [a; b]) ≤ 2); [|lia].
  simpl. repeat case_decide; simpl; lia.
Qed.

Ltac find_scrut t k :=
  lazymatch t with
  | context [match ?s with _ => _ end] =>
      first [ find_scrut s k | k s ]
  end.

Ltac run_in H := cbn -[put_data_in_device update_metrics held_refs] in H.

Ltac frame_rewrite H :=
  match goal with
  | Heq : self ?x = _ |- _ => is_var x; progress (rewrite Heq in H)
  | Heq : locals ?x = _ |- _ => is_var x; progress (rewrite Heq in H)
  | Heq : peak ?x = _ |- _ => is_var x; progress (rewrite Heq in H)
  | Heq : dataloader_iter ?x = _ |- _ => is_var x; progress (rewrite Heq in H)
  | Heq : current_stream ?x = _ |- _ => is_var x; progress (rewrite Heq in H)
  end.

Ltac exec_step H :=
  first
    [ progress (run_in H)
    | frame_rewrite H
    | rewrite update_metrics_run in H
    | let t := type of H in
      find_scrut t ltac:(fun s =>
        lazymatch s with
        | put_data_in_device ?a1 ?a2 ?a3 ?a4 ?a5 ?a6 ?a7 ?a8 =>
            let Hf := fresh "Hf" in let Hp := fresh "Hput" in
            let v := fresh "v" in let e := fresh "e" in let w := fresh "w" in
            pose proof (framing_put_data_in_device a1 a2 a3 a4 a5 a6 a7 a8) as Hf;
            destruct (put_data_in_device a1 a2 a3 a4 a5 a6 a7 a8) as [[v|e] w] eqn:Hp;
            unfold frame in Hf; cbn -[held_refs] in Hf;
            destruct Hf as (?Hfs & ?Hfl & ?Hfp & ?Hfi & ?Hfc & ?Hfn & ?Hfk & _)
        | _ => destruct s eqn:?
        end) ].

Lemma held_refs_le2 cur l (a b : nat) :
  (∀ x, x ∈ [cur; next_batch l; cur_batch l; connect_cur_batch l] →
        x = None ∨ x = Some a ∨ x = Some b) →
  length (held_refs cur l) ≤ 2.
Proof.
  intros H. apply (remove_dups_le2 a b). intros x Hx.
  apply list_elem_of_omap in Hx as (v & Hv & Hx). simpl in Hx. subst v.
  destruct (H _ Hv) as [?|[?|?]]; simplify_eq; auto.
Qed.

Ltac held_side :=
  intros ? ?Hx; rewrite !elem_of_cons, elem_of_nil in Hx;
  destruct Hx as [->|[->|[->|[->|[]]]]];
  first [ left; reflexivity | right; left; reflexivity | right; right; reflexivity
        | right; left; f_equal; lia | right; right; f_equal; lia ].

Ltac try_b a vs :=
  lazymatch vs with
  | Some ?b :: ?vs' =>
      first [ solve [apply (held_refs_le2 _ _ a b); held_side] | try_b a vs' ]
  | None :: ?vs' => try_b a vs'
  | [] => solve [apply (held_refs_le2 _ _ a a); held_side]
  end.

Ltac try_a vs all :=
  lazymatch vs with
  | Some ?a :: ?vs' => first [ try_b a all | try_a vs' all ]
  | None :: ?vs' => try_a vs' all
  | [] => solve [apply (held_refs_le2 _ _ 0 0); held_side]
  end.

Ltac solve_held :=
  repeat match goal with
         | |- length (held_refs ?c _) ≤ 2 =>
             lazymatch c with
             | Some _ => fail
             | None => fail
             | _ => destruct c eqn:?
             end
         end;
  lazymatch goal with
  | |- length (held_refs ?c ?l) ≤ 2 =>
      let vs := eval cbn in [c; next_batch l; cur_batch l; connect_cur_batch l] in
      try_a vs vs
  end.

Ltac solve_ref Hcur :=
  split; [done|]; intros ? ?Hr; split; [|done];
  try (destruct (Hcur _ eq_refl) as [? _]);
  try (destruct (Hcur _ Hr) as [? _]);
  simplify_eq;
  repeat match goal with
         | Hle : context [length (_ ++ _)] |- _ => rewrite length_app in Hle
         end;
  rewrite ?length_app; cbn [length] in *; lia.

Lemma progress_between_calls_local rank ws w r w' :
  between_calls false w → progress false rank ws w = (r, w') → between_calls false w'.
Proof.
  intros (Hl & Hp & Hc & Hcur) H.
  unfold_engine H. unfold observe, held in H. rewrite ?Hl in H.
  repeat exec_step H.
  all: try (injection H as <- <-).
  all: repeat match goal with
         | Hput : put_data_in_device _ _ _ false _ _ _ _ = (Ok _, _) |- _ =>
             apply put_data_in_device_local_returns in Hput; subst
         end.
  all: unfold between_calls, held; cbn -[held_refs].
  all: repeat match goal with Heq : ?proj ?x = _ |- _ => is_var x; progress (rewrite ?Heq) end.
  all: cbn -[held_refs].
  all: split; [try done|].
  all: split; [repeat apply Nat.max_lub; try assumption; try solve_held; try lia|].
  all: solve_ref Hcur.
Qed.

Ltac exec_step_dist H :=
  first
    [ match goal with
      | Hc' : ∀ r, Some ?n = Some r → _ |- _ =>
          let Hlt := fresh "Hlt" in let Hnb := fresh "Hnb" in
          destruct (Hc' n eq_refl) as [Hlt Hnb]; specialize (Hnb eq_refl);
          unfold is_batch_at in Hnb; clear Hc'
      end
    | progress (run_in H)
    | frame_rewrite H
    | rewrite update_metrics_run in H
    | rewrite list_lookup_middle in H by done
    | rewrite lookup_app_l in H by (rewrite ?length_app; cbn [length]; lia)
    | erewrite put_data_in_device_dist in H by (cbn; apply list_lookup_middle; done)
    | let t := type of H in
      find_scrut t ltac:(fun s =>
        lazymatch s with
        | put_data_in_device ?a1 ?a2 ?a3 ?a4 ?a5 ?a6 ?a7 ?a8 =>
            let Hf := fresh "Hf" in let Hp := fresh "Hput" in
            let v := fresh "v" in let e := fresh "e" in let w := fresh "w" in
            pose proof (framing_put_data_in_device a1 a2 a3 a4 a5 a6 a7 a8) as Hf;
            destruct (put_data_in_device a1 a2 a3 a4 a5 a6 a7 a8) as [[v|e] w] eqn:Hp;
            unfold frame in Hf; cbn -[held_refs] in Hf;
            destruct Hf as (?Hfs & ?Hfl & ?Hfp & ?Hfi & ?Hfc & ?Hfn & ?Hfk & _)
        | _ => destruct s eqn:?
        end) ].

Lemma progress_between_calls_dist rank ws w r w' :
  between_calls true w → progress true rank ws w = (r, w') → between_calls true w'.
Proof.
  intros (Hl & Hp & Hc & Hcur) H.
  unfold_engine H. unfold observe, held in H. rewrite ?Hl in H.
  repeat exec_step_dist H.
  all: try congruence.
  all: try (injection H as <- <-).
  all: try (match goal with Heq : heap ?x !! _ = _, Hn : match heap ?x !! _ with _ => _ end = false |- _ => rewrite Heq in Hn; done end).
  all: unfold between_calls, held; cbn -[held_refs].
  all: split; [try done|].
  all: split; [repeat apply Nat.max_lub; try assumption; try solve_held; try lia|].
  all: try (split; [done|]; intros ? ?Hr; simplify_eq).
  all: try (split;
    [ rewrite ?length_app; cbn [length]; lia
    | intros _; unfold is_batch_at;
      repeat first [ rewrite list_lookup_middle by done
                   | rewrite lookup_app_l by (rewrite ?length_app; cbn [length]; lia) ];
      try match goal with Heq : heap _ !! _ = _ |- _ => rewrite Heq end;
      first [ done | assumption ] ]).
  all: by apply Hcur.
Qed.

Lemma reset_between_calls d w : between_calls d w → between_calls d (reset w).2.
Proof.
  intros (Hl & Hp & Hc & Hcur). unfold reset, set_self, modify, mbind, M_bind.
  unfold observe, held, between_calls. cbn -[held_refs]. rewrite Hl.
  split; [done|]. split; [|done].
  repeat apply Nat.max_lub; try assumption; solve_held.
Qed.

Lemma progress_between_calls d rank ws w :
  between_calls d w → between_calls d (progress d rank ws w).2.
Proof.
  intros H. destruct (progress d rank ws w) as [r w'] eqn:Hrun. simpl.
  destruct d;
    eauto using progress_between_calls_dist, progress_between_calls_local.
Qed.

Lemma run_commands_between_calls d rank ws cs w :
  between_calls d w → between_calls d (run_commands d rank ws cs w).
Proof.
  revert w. induction cs as [|c cs IH]; intros w H; [done|].
  simpl. apply IH. destruct c; simpl.
  - by apply progress_between_calls.
  - by apply reset_between_calls.
Qed.

Lemma start_between_calls d training crit opt sparse dense metrics batches :
  between_calls d (start (__init__ training crit opt sparse dense metrics) batches).
Proof. repeat split; simpl; try done; lia. Qed.

(** * The claims about the pipeline *)

(** C1, as stated, fails: on three batches, after one [connect()], the
    third [progress()] raises [StopIteration]; the forward computation
    ran twice, both times on the first batch. *)
Lemma progress_order_counterexample :
  let out := connect_then_three_progress false 0 1
               (start example_pipe [example_batch 0; example_batch 10; example_batch 20]) in
  out.1 = Raise StopIteration
  ∧ pulled (log out.2) = [0; 1; 2]
  ∧ consumed (log out.2) = [0; 0]
  ∧ consumed (log out.2) ≠ [0; 1; 2].
Proof. vm_compute. by repeat split. Qed.

Lemma splittable_example k : splittable (example_batch k).
Proof. by split. Qed.

Lemma progress_order_by_design_witness :
  ∃ w2 w3,
    (connect false 0 1;; progress false 0 1;; progress false 0 1)
      (start example_pipe [example_batch 0; example_batch 10; example_batch 20])
    = (Ok tt, w2)
    ∧ progress false 0 1 w2 = (Raise StopIteration, w3)
    ∧ connect_then_three_progress false 0 1
        (start example_pipe [example_batch 0; example_batch 10; example_batch 20])
      = (Raise StopIteration, w3)
    ∧ pulled (log w3) = [0; 1; 2]
    ∧ (∃ second, consumed (log w3) = [0; second] ∧ second ≠ 2)
    ∧ staged_ok [] (log w3) = true.
Proof.
  apply (progress_order_by_design true true true (Some (cuda 0)) (Some (cuda 0)) 0 0 1
           (example_batch 0) (example_batch 10) (example_batch 20)).
  - done.
  - lia.
  - apply splittable_example.
  - apply splittable_example.
  - apply splittable_example.
Defined.

(** C2: with the sparse parameters on the host ([--use_cpu]) the engine
    places the dense features and the labels of a batch on the sparse
    device and the sparse features on the dense device: [_connect] and
    [progress] pass [self._sparse_device] where [put_data_in_device]
    expects the dense device, and the other way round. *)
Theorem connect_swaps_the_devices :
  let w := (connect false 0 1 (start example_pipe_use_cpu [example_batch 0; example_batch 10])).2 in
  let w' := (progress false 0 1 w).2 in
  _dense_device (self w) = Some (cuda 0)
  ∧ _sparse_device (self w) = Some cpu
  ∧ transfers (log w) = [ (0, attr_dense_features, Some cpu);
                          (0, attr_labels, Some cpu);
                          (0, attr_sparse_features, Some (cuda 0)) ]
  ∧ (∃ b, heap w !! 0 = Some (BatchObject b)
          ∧ tensor_device (dense_features b) = cpu
          ∧ tensor_device (labels b) = cpu
          ∧ kjt_device (sparse_features b) = cuda 0)
  ∧ transfers (log w') = transfers (log w)
                         ++ [ (0, attr_dense_features, Some cpu);
                              (0, attr_labels, Some cpu);
                              (0, attr_sparse_features, Some (cuda 0)) ]
  ∧ heap w' !! 1 = Some (BatchObject (example_batch 10)).
Proof.
  vm_compute. repeat split. eexists. by repeat split.
Qed.

(** C6, as stated, fails: with world size 3 a batch of 4 rows is placed
    without any error; worker 0 keeps 2 rows. *)
Lemma uneven_split_counterexample :
  let out := put_data_in_device (Some 0) (Some (cuda 0)) (Some (cuda 0)) false 0 3 true
               (store_of (example_batch 0)) in
  out.1 = Ok (Some 0)
  ∧ ∃ b, heap out.2 !! 0 = Some (BatchObject b)
         ∧ size (payload (dense_features b)) = [2; 2]
         ∧ size (payload (labels b)) = [2].
Proof. vm_compute. split; [done|]. eexists. by repeat split. Qed.

Lemma split_take_4_3 x rank sh :
  size (payload x) = 4 :: sh → rank < 3 →
  split_take x 3 rank
  = mret (mkTorchTensor (tensor_device x)
            (narrow 0 (shard_start_4_3 rank) (shard_rows_4_3 rank) (payload x))).
Proof.
  intros Hsz Hr. unfold split_take, tensor_split. rewrite Hsz. simpl.
  destruct rank as [|[|[|rank]]]; try done. lia.
Qed.

(** C6 (as amended): with world size 3, a batch whose dense features and
    labels have 4 rows is placed without error, by the rule of
    [torch.tensor_split]: worker 0 keeps rows 0 and 1, worker 1 keeps
    row 2, worker 2 keeps row 3, of the dense features and of the labels
    alike; no row is dropped and the shards are uneven. *)
Theorem uneven_split_is_accepted w r b dd sd rank nb shd shl :
  heap w !! r = Some (BatchObject b) →
  size (payload (dense_features b)) = 4 :: shd →
  size (payload (labels b)) = 4 :: shl →
  rank < 3 →
  ∃ w', put_data_in_device (Some r) dd sd false rank 3 nb w = (Ok (Some r), w')
        ∧ heap w' !! r = Some (BatchObject (mkBatch
            (mkTorchTensor (tensor_device (tensor_to (dense_features b) dd))
               (narrow 0 (shard_start_4_3 rank) (shard_rows_4_3 rank)
                  (payload (dense_features b))))
            (kjt_to (sparse_features b) sd)
            (mkTorchTensor (tensor_device (tensor_to (labels b) dd))
               (narrow 0 (shard_start_4_3 rank) (shard_rows_4_3 rank)
                  (payload (labels b))))))
        ∧ shard_rows_4_3 0 + shard_rows_4_3 1 + shard_rows_4_3 2 = 4.
Proof.
  intros Hr Hd Hl Hrank. eexists. split.
  - apply put_data_in_device_local; [done| |].
    + rewrite (split_take_4_3 _ rank shd); [done|by destruct dd|done].
    + rewrite (split_take_4_3 _ rank shl); [done|by destruct dd|done].
  - simpl. split; [|done].
    rewrite list_lookup_insert_eq by (by eapply lookup_lt_Some).
    by destruct dd.
Qed.

Lemma uneven_split_is_accepted_witness :
  ∃ w', put_data_in_device (Some 0) (Some (cuda 0)) (Some (cuda 0)) false 1 3 true
          (store_of (example_batch 0)) = (Ok (Some 0), w')
        ∧ heap w' !! 0 = Some (BatchObject (mkBatch
            (mkTorchTensor (tensor_device (tensor_to (dense_features (example_batch 0)) (Some (cuda 0))))
               (narrow 0 (shard_start_4_3 1) (shard_rows_4_3 1)
                  (payload (dense_features (example_batch 0)))))
            (kjt_to (sparse_features (example_batch 0)) (Some (cuda 0)))
            (mkTorchTensor (tensor_device (tensor_to (labels (example_batch 0)) (Some (cuda 0))))
               (narrow 0 (shard_start_4_3 1) (shard_rows_4_3 1)
                  (payload (labels (example_batch 0)))))))
        ∧ shard_rows_4_3 0 + shard_rows_4_3 1 + shard_rows_4_3 2 = 4.
Proof.
  apply (uneven_split_is_accepted (store_of (example_batch 0)) 0 (example_batch 0)
           (Some (cuda 0)) (Some (cuda 0)) 1 true [2] []).
  - reflexivity.
  - reflexivity.
  - reflexivity.
  - lia.
Defined.

(** C7: [reset()] does not return the engine to the unconnected state:
    it assigns [False] to the attribute [_connect] and leaves
    [_connected] as it was.  After [reset()] a connected engine does not
    re-connect: the next [progress()] pulls a batch and fails its
    assertion, without any forward computation; on an engine that was
    never connected, the next [progress()] fails calling [_connect]. *)
Theorem reset_does_not_disconnect :
  let batches := [example_batch 0; example_batch 10; example_batch 20] in
  let w1 := (progress false 0 1 (start example_pipe batches)).2 in
  let w2 := (reset w1).2 in
  let out := progress false 0 1 w2 in
  _connected (self w1) = true
  ∧ _connected (self w2) = true
  ∧ _connect_attr (self w2) = Shadowed false
  ∧ _cur_batch (self w2) = None
  ∧ out.1 = Raise AssertionError
  ∧ consumed (log out.2) = consumed (log w2)
  ∧ pulled (log out.2) = pulled (log w2) ++ [2]
  ∧ (progress false 0 1 (reset (start example_pipe batches)).2).1 = Raise TypeError.
Proof. vm_compute. by repeat split. Qed.

(** C9: with distributed batches the transfers are issued blocking,
    whatever [non_blocking] the caller asks for: the branch does not pass
    the argument on. *)
Theorem distributed_transfers_block :
  let out := put_data_in_device (Some 0) (Some (cuda 0)) (Some (cuda 0)) true 0 1 true
               (store_of (example_batch 0)) in
  out.1 = Ok (Some 1)
  ∧ log out.2 = [ To 0 attr_dense_features (Some (cuda 0)) false default_stream;
                  To 0 attr_sparse_features (Some (cuda 0)) false default_stream;
                  To 0 attr_labels (Some (cuda 0)) false default_stream ].
Proof. vm_compute. by split. Qed.

Lemma connect_dist rank ws w b rest :
  _connect_attr (self w) = BoundMethod → dataloader_iter w = b :: rest →
  current_stream w = default_stream →
  ∃ w' dense sparse label,
    connect true rank ws w = (Ok tt, w')
    ∧ heap w' = heap w ++ [BatchObject b; TupleObject dense sparse label]
    ∧ dataloader_iter w' = rest
    ∧ self w' = set_connected true (set_cur_batch (Some (S (length (heap w)))) (self w)).
Proof.
  intros Hattr Hiter Hcs.
  assert ((heap w ++ [BatchObject b]) !! length (heap w) = Some (BatchObject b)) as Hn
    by by apply list_lookup_middle.
  destruct (_memcpy_stream (self w)) eqn:Hs.
  all: eexists _, _, _, _; split;
    [ unfold connect; unfold_engine_goal; run; rewrite Hattr, Hiter; run;
      rewrite Hs; run;
      (erewrite put_data_in_device_dist; [|run; exact Hn]);
      run; reflexivity
    | run; rewrite length_app, Nat.add_1_r, <-app_assoc; by repeat split ].
Qed.

Lemma progress_dist_fails rank ws w r dense sparse label nb rest :
  _connected (self w) = true → _cur_batch (self w) = Some r →
  heap w !! r = Some (TupleObject dense sparse label) →
  dataloader_iter w = nb :: rest →
  (progress true rank ws w).1 = Raise AttributeError.
Proof.
  intros Hc Hcur Hr Hiter.
  assert ((heap w ++ [BatchObject nb]) !! r = Some (TupleObject dense sparse label)) as Hr'
    by (by apply lookup_app_l_Some).
  unfold_engine_goal. run. rewrite Hc. run. rewrite Hiter. run. rewrite Hcur. run.
  destruct (training (self w)), (_memcpy_stream (self w)); run; by rewrite Hr'.
Qed.

Lemma connect_then_progress_dist training crit opt sparse dense metrics rank ws b b1 rest :
  let w0 := start (__init__ training crit opt sparse dense metrics) (b :: b1 :: rest) in
  ∃ w1, connect true rank ws w0 = (Ok tt, w1)
        ∧ (progress true rank ws w1).1 = Raise AttributeError.
Proof.
  intros w0.
  destruct (connect_dist rank ws w0 b (b1 :: rest)) as
    (w1 & d & s & l & Hrun & Hh & Hi & Hs); try done.
  exists w1. split; [done|].
  apply (progress_dist_fails rank ws w1 1 d s l b1 rest);
    [by rewrite Hs|by rewrite Hs|by rewrite Hh|done].
Qed.

Lemma connect_then_progress_local training crit opt sparse dense metrics rank ws b b1 rest :
  (training = true → crit = true ∧ opt = true) → splittable b → rank < ws →
  let w0 := start (__init__ training crit opt sparse dense metrics) (b :: b1 :: rest) in
  ∃ w1 w2, connect false rank ws w0 = (Ok tt, w1)
           ∧ progress false rank ws w1 = (Ok tt, w2).
Proof.
  intros Hrun Hb Hrank w0.
  destruct (connect_local rank ws w0 b (b1 :: rest)) as
    (w1 & b0 & Hr1 & Hh1 & Hs1 & Hi1 & Hl1 & Hp1 & _ & Hc1); try done.
  simpl in Hh1, Hp1.
  destruct (progress_local rank ws w1 0 b0 b1 rest) as (w2 & b0' & Hr2 & _);
    [by rewrite Hp1|by rewrite Hp1|by rewrite Hh1|done|done|done|done|by rewrite Hp1|].
  by exists w1, w2.
Qed.

(** C8, as stated, fails: once the iterator is exhausted the engine
    still holds its current batch. *)
Lemma exhausted_engine_counterexample :
  let out := progress false 0 1 (start example_pipe [example_batch 0]) in
  out.1 = Raise StopIteration
  ∧ dataloader_iter out.2 = []
  ∧ held out.2 = [0]
  ∧ length (held out.2) ≠ 0.
Proof. vm_compute. by repeat split. Qed.

(** * Batch placement: the shards of [torch.tensor_split] *)

Section Shards.
Context {A : Type}.
Implicit Types (t : tensor A) (l : list (nest A)).

Lemma sum_list_cons (x : nat) (xs : list nat) : sum_list (x :: xs) = x + sum_list xs.
Proof. done. Qed.

Lemma shard_start_S n ws rank :
  shard_start n ws (S rank) = shard_start n ws rank + shard_rows n ws rank.
Proof. unfold shard_start, shard_rows. case_bool_decide; lia. Qed.

(** The loop of [tensor_split], section by section. *)
Lemma tensor_split_from_shards t n ws k s :
  tensor_split_from t 0 (n / ws) (n mod ws) (seq s k) (shard_start n ws s)
  = (λ rank, narrow 0 (shard_start n ws rank) (shard_rows n ws rank) t) <$> seq s k.
Proof.
  revert s. induction k as [|k IH]; intros s; [done|].
  change (seq s (S k)) with (s :: seq (S s) k). rewrite fmap_cons.
  cbn [tensor_split_from]. f_equal.
  - unfold shard_rows. by case_bool_decide; rewrite ?Nat.add_0_r.
  - rewrite <-IH. f_equal. rewrite shard_start_S. unfold shard_rows.
    by case_bool_decide; rewrite ?Nat.add_0_r.
Qed.

Lemma tensor_split_shards t n sh ws :
  size t = n :: sh → 0 < ws →
  tensor_split t ws 0 = Some ((λ rank, shard_of ws rank t) <$> seq 0 ws).
Proof.
  intros Hsz Hws. unfold tensor_split, shard_of, extent. rewrite Hsz. simpl.
  rewrite bool_decide_eq_false_2 by lia. f_equal.
  by rewrite <-(tensor_split_from_shards t n ws ws 0).
Qed.

Lemma sum_shard_rows n ws s k :
  sum_list (shard_rows n ws <$> seq s k) + shard_start n ws s = shard_start n ws (s + k).
Proof.
  revert s. induction k as [|k IH]; intros s.
  - by rewrite Nat.add_0_r.
  - change (seq s (S k)) with (s :: seq (S s) k). rewrite fmap_cons, sum_list_cons.
    specialize (IH (S s)). rewrite shard_start_S in IH.
    replace (s + S k) with (S s + k) by lia. lia.
Qed.

(** The sections have all the rows, once each. *)
Lemma shard_rows_total n ws :
  0 < ws → sum_list (shard_rows n ws <$> seq 0 ws) = n.
Proof.
  intros Hws. pose proof (sum_shard_rows n ws 0 ws) as H.
  unfold shard_start in H at 1 2. simpl in H.
  pose proof (Nat.div_mod_eq n ws). pose proof (Nat.mod_upper_bound n ws). nia.
Qed.

Lemma bind_shards n ws l s k :
  ((λ rank, narrow_nest 0 (shard_start n ws rank) (shard_rows n ws rank) (Node l))
     <$> seq s k) ≫= children
  = take (sum_list (shard_rows n ws <$> seq s k)) (drop (shard_start n ws s) l).
Proof.
  revert s. induction k as [|k IH]; intros s; [done|].
  change (seq s (S k)) with (s :: seq (S s) k). rewrite !fmap_cons, sum_list_cons.
  rewrite bind_cons, IH. cbn [narrow_nest children].
  rewrite <-(take_take_drop (drop (shard_start n ws s) l)), drop_drop.
  by rewrite shard_start_S.
Qed.

Lemma size_shard_of t n sh ws rank :
  size t = n :: sh → size (shard_of ws rank t) = shard_rows n ws rank :: sh.
Proof. intros Hsz. unfold shard_of, extent, narrow. simpl. by rewrite Hsz. Qed.

Lemma cat_size_rows sh (ts : list (tensor A)) :
  ts ≠ [] → Forall (λ t, ∃ k, size t = k :: sh) ts →
  cat_size 0 ts = sum_list (extent 0 <$> ts) :: sh.
Proof.
  destruct ts as [|t0 ts]; [done|]. intros _ H.
  apply Forall_inv in H as [k Hk]. unfold cat_size. by rewrite Hk.
Qed.

(** The shards of all the ranks, concatenated in rank order, are the
    tensor. *)
Lemma cat_shards t ws :
  wf t → size t ≠ [] → 0 < ws →
  cat 0 ((λ rank, shard_of ws rank t) <$> seq 0 ws) = t.
Proof.
  intros Hwf Hne Hws. destruct t as [[|n sh] d]; [done|].
  unfold wf in Hwf. simpl in Hwf.
  apply conforms_cons_inv in Hwf as (l & -> & Hl & _).
  set (t := Tensor (n :: sh) (Node l)).
  assert (cat_size 0 ((λ rank, shard_of ws rank t) <$> seq 0 ws) = n :: sh) as Hsz.
  { rewrite (cat_size_rows sh).
    - f_equal. rewrite <-list_fmap_compose.
      etrans; [|apply (shard_rows_total n ws Hws)].
      done.
    - destruct ws; [lia|done].
    - apply Forall_fmap, Forall_seq. intros rank _. by eexists. }
  apply tensor_eq; [exact Hsz|].
  change (Node ((data <$> ((λ rank, shard_of ws rank t) <$> seq 0 ws)) ≫= children)
          = Node l).
  f_equal. rewrite <-list_fmap_compose.
  etrans; [apply (bind_shards n ws l 0 ws)|].
  rewrite shard_rows_total by done. unfold shard_start. simpl.
  rewrite drop_0. apply take_ge. lia.
Qed.

(** With one section the shard is the tensor. *)
Lemma shard_of_single t : wf t → size t ≠ [] → shard_of 1 0 t = t.
Proof.
  intros Hwf Hne. destruct t as [[|n sh] d]; [done|].
  unfold wf in Hwf. simpl in Hwf.
  apply conforms_cons_inv in Hwf as (l & -> & Hl & _).
  assert (shard_rows n 1 0 = n) as Hrows.
  { unfold shard_rows. rewrite Nat.div_1_r, Nat.mod_1_r.
    rewrite bool_decide_eq_false_2 by lia. lia. }
  unfold shard_of. change (extent 0 _) with n. rewrite Hrows.
  change (shard_start n 1 0) with 0. unfold narrow. cbn [size data narrow_nest].
  rewrite drop_0, take_ge by lia. done.
Qed.

Lemma wf_shard_of t ws rank :
  wf t → size t ≠ [] → rank < ws → wf (shard_of ws rank t).
Proof.
  intros Hwf Hne Hr. destruct t as [[|n sh] d]; [done|].
  unfold wf, shard_of, narrow, extent. simpl.
  apply (conforms_narrow_nest 0 (n :: sh) d n); [done|done|].
  pose proof (sum_shard_rows n ws (S rank) (ws - S rank)) as H3.
  replace (S rank + (ws - S rank)) with ws in H3 by lia.
  pose proof (sum_shard_rows n ws 0 ws) as H4. simpl in H4.
  pose proof (shard_rows_total n ws ltac:(lia)) as H5.
  rewrite shard_start_S in H3.
  unfold shard_start in H4 at 1. simpl in H4. lia.
Qed.

End Shards.

Section PlacementFacts.

Lemma payload_tensor_to x target : payload (tensor_to x target) = payload x.
Proof. by destruct target. Qed.

Lemma tensor_to_twice x target : tensor_to (tensor_to x target) target = tensor_to x target.
Proof. by destruct target. Qed.

Lemma kjt_to_twice x target : kjt_to (kjt_to x target) target = kjt_to x target.
Proof. by destruct target. Qed.

(** [tensor_split(x, world_size, dim=0)[rank]] in closed form. *)
Lemma split_take_shard x ws rank :
  size (payload x) ≠ [] → rank < ws →
  split_take x ws rank = mret (mkTorchTensor (tensor_device x) (shard_of ws rank (payload x))).
Proof.
  intros Hne Hr. unfold split_take.
  destruct (size (payload x)) as [|n sh] eqn:Hsz; [done|].
  rewrite (tensor_split_shards _ n sh) by (done || lia).
  rewrite list_lookup_fmap, lookup_seq_lt by done. done.
Qed.

Lemma split_take_out_of_range x ws rank :
  size (payload x) ≠ [] → 0 < ws → ws ≤ rank →
  split_take x ws rank = raise IndexError.
Proof.
  intros Hne Hws Hr. unfold split_take.
  destruct (size (payload x)) as [|n sh] eqn:Hsz; [done|].
  rewrite (tensor_split_shards _ n sh) by done.
  rewrite list_lookup_fmap, lookup_seq_ge by lia. done.
Qed.

Lemma split_take_no_sections x rank : split_take x 0 rank = raise RuntimeError.
Proof.
  unfold split_take, tensor_split. by destruct (size (payload x) !! 0).
Qed.

Lemma splittable_place_batch dd sd rank ws b :
  splittable b → splittable (place_batch dd sd rank ws b).
Proof.
  intros [Hd Hl]. unfold splittable, place_batch, split_to, shard_of, narrow. simpl.
  rewrite !payload_tensor_to.
  destruct (size (payload (dense_features b))), (size (payload (labels b))); done.
Qed.

Lemma wf_place_batch dd sd rank ws b :
  wf_batch b → rank < ws → wf_batch (place_batch dd sd rank ws b).
Proof.
  intros (Hd & Hl & Hs) Hws. split; [|split].
  - simpl. rewrite payload_tensor_to. apply wf_shard_of; [done|apply Hs|done].
  - simpl. rewrite payload_tensor_to. apply wf_shard_of; [done|apply Hs|done].
  - by apply splittable_place_batch.
Qed.

(** Placement of a batch that is not distributed, in closed form. *)
Lemma put_data_in_device_place r b dd sd rank ws nb w :
  heap w !! r = Some (BatchObject b) → splittable b → rank < ws →
  put_data_in_device (Some r) dd sd false rank ws nb w
  = (Ok (Some r),
     mkWorld (<[r := BatchObject (place_batch dd sd rank ws b)]> (heap w))
             (dataloader_iter w)
             (log w ++ [To r attr_dense_features dd nb (current_stream w);
                        To r attr_labels dd nb (current_stream w);
                        To r attr_sparse_features sd nb (current_stream w)])
             (current_stream w) (self w) (locals w) (peak w)).
Proof.
  intros Hr [Hd Hl] Hrank.
  apply put_data_in_device_local; [done| |].
  - apply split_take_shard; [by rewrite payload_tensor_to|done].
  - apply split_take_shard; [by rewrite payload_tensor_to|done].
Qed.

Lemma place_batch_single dd sd b :
  wf_batch b →
  place_batch dd sd 0 1 b
  = mkBatch (tensor_to (dense_features b) dd) (kjt_to (sparse_features b) sd)
            (tensor_to (labels b) dd).
Proof.
  intros (Hd & Hl & Hsd & Hsl). unfold place_batch, split_to.
  rewrite !payload_tensor_to, !shard_of_single by done.
  f_equal; by destruct dd, (dense_features b), (labels b).
Qed.

End PlacementFacts.

(** * Properties of batch placement *)

(** X1: without distributed batches and with [rank < world_size],
    [put_data_in_device] returns the batch object it was given, edited in
    place: of the dense features and of the labels it keeps the rows
    [torch.tensor_split] gives to section [rank], that is
    [n / world_size] rows, one more for the first [n mod world_size]
    ranks, starting where the sections before it end; the sparse features
    are kept whole; the three transfers are issued with the
    [non_blocking] asked for. *)
Theorem placement_keeps_the_rank_shard w r b dd sd rank ws nb n m shd shl :
  heap w !! r = Some (BatchObject b) →
  size (payload (dense_features b)) = n :: shd →
  size (payload (labels b)) = m :: shl →
  rank < ws →
  ∃ w' b',
    put_data_in_device (Some r) dd sd false rank ws nb w = (Ok (Some r), w')
    ∧ heap w' = <[r := BatchObject b']> (heap w)
    ∧ payload (dense_features b')
      = narrow 0 (rank * (n / ws) + rank `min` (n mod ws))
                 (n / ws + (if bool_decide (rank < n mod ws) then 1 else 0))
                 (payload (dense_features b))
    ∧ payload (labels b')
      = narrow 0 (rank * (m / ws) + rank `min` (m mod ws))
                 (m / ws + (if bool_decide (rank < m mod ws) then 1 else 0))
                 (payload (labels b))
    ∧ sparse_features b' = kjt_to (sparse_features b) sd
    ∧ tensor_device (dense_features b') = tensor_device (tensor_to (dense_features b) dd)
    ∧ tensor_device (labels b') = tensor_device (tensor_to (labels b) dd)
    ∧ log w' = log w ++ [To r attr_dense_features dd nb (current_stream w);
                         To r attr_labels dd nb (current_stream w);
                         To r attr_sparse_features sd nb (current_stream w)].
Proof.
  intros Hr Hd Hl Hrank. eexists _, (place_batch dd sd rank ws b). split.
  - apply put_data_in_device_place; [done| |done]. split; congruence.
  - simpl. rewrite !payload_tensor_to. unfold shard_of, extent. rewrite Hd, Hl.
    by repeat split.
Qed.

Lemma placement_keeps_the_rank_shard_witness :
  ∃ w' b',
    put_data_in_device (Some 0) (Some (cuda 0)) (Some cpu) false 1 3 true
      (store_of (example_batch 0)) = (Ok (Some 0), w')
    ∧ heap w' = <[0 := BatchObject b']> (heap (store_of (example_batch 0)))
    ∧ payload (dense_features b')
      = narrow 0 (1 * (4 / 3) + 1 `min` (4 mod 3))
                 (4 / 3 + (if bool_decide (1 < 4 mod 3) then 1 else 0))
                 (payload (dense_features (example_batch 0)))
    ∧ payload (labels b')
      = narrow 0 (1 * (4 / 3) + 1 `min` (4 mod 3))
                 (4 / 3 + (if bool_decide (1 < 4 mod 3) then 1 else 0))
                 (payload (labels (example_batch 0)))
    ∧ sparse_features b' = kjt_to (sparse_features (example_batch 0)) (Some cpu)
    ∧ tensor_device (dense_features b')
      = tensor_device (tensor_to (dense_features (example_batch 0)) (Some (cuda 0)))
    ∧ tensor_device (labels b')
      = tensor_device (tensor_to (labels (example_batch 0)) (Some (cuda 0)))
    ∧ log w' = log (store_of (example_batch 0))
               ++ [To 0 attr_dense_features (Some (cuda 0)) true
                     (current_stream (store_of (example_batch 0)));
                   To 0 attr_labels (Some (cuda 0)) true
                     (current_stream (store_of (example_batch 0)));
                   To 0 attr_sparse_features (Some cpu) true
                     (current_stream (store_of (example_batch 0)))].
Proof.
  apply (placement_keeps_the_rank_shard (store_of (example_batch 0)) 0 (example_batch 0)
           (Some (cuda 0)) (Some cpu) 1 3 true 4 4 [2] []).
  - reflexivity.
  - reflexivity.
  - reflexivity.
  - lia.
Defined.

(** X2: the shards the ranks keep partition the batch.  For every world
    size and every batch whose dense features and labels are rectangular
    with a leading dimension, placement succeeds at every rank, and the
    dense features (the labels) the ranks [0 .. world_size - 1] keep,
    concatenated in rank order, are the dense features (the labels) of
    the batch: no row is lost and none is kept twice, whether or not
    the world size divides the number of rows.  Every rank keeps all the
    sparse features. *)
Theorem placement_shards_cover_the_batch w r b dd sd ws nb :
  heap w !! r = Some (BatchObject b) → wf_batch b → 0 < ws →
  ∃ shards : list Batch,
    length shards = ws
    ∧ (∀ rank, rank < ws →
         ∃ w', put_data_in_device (Some r) dd sd false rank ws nb w = (Ok (Some r), w')
               ∧ heap w' !! r = BatchObject <$> shards !! rank)
    ∧ cat 0 ((λ s, payload (dense_features s)) <$> shards) = payload (dense_features b)
    ∧ cat 0 ((λ s, payload (labels s)) <$> shards) = payload (labels b)
    ∧ Forall (λ s, sparse_features s = kjt_to (sparse_features b) sd) shards.
Proof.
  intros Hr (Hwd & Hwl & Hsd & Hsl) Hws.
  exists ((λ rank, place_batch dd sd rank ws b) <$> seq 0 ws).
  split; [by rewrite length_fmap, length_seq|]. split; [|split; [|split]].
  - intros rank Hrank. eexists. split.
    + by apply put_data_in_device_place.
    + simpl. rewrite list_lookup_insert_eq by (by eapply lookup_lt_Some).
      by rewrite list_lookup_fmap, lookup_seq_lt.
  - rewrite <-list_fmap_compose.
    etrans; [|apply (cat_shards (payload (dense_features b)) ws); done].
    f_equal. apply list_fmap_ext. intros i rank _. simpl.
    by rewrite payload_tensor_to.
  - rewrite <-list_fmap_compose.
    etrans; [|apply (cat_shards (payload (labels b)) ws); done].
    f_equal. apply list_fmap_ext. intros i rank _. simpl.
    by rewrite payload_tensor_to.
  - by apply Forall_fmap, Forall_seq.
Qed.

Lemma wf_example_batch k : wf_batch (example_batch k).
Proof. repeat split; done. Qed.

Lemma placement_shards_cover_the_batch_witness :
  ∃ shards : list Batch,
    length shards = 3
    ∧ (∀ rank, rank < 3 →
         ∃ w', put_data_in_device (Some 0) (Some (cuda 0)) (Some cpu) false rank 3 true
                 (store_of (example_batch 0)) = (Ok (Some 0), w')
               ∧ heap w' !! 0 = BatchObject <$> shards !! rank)
    ∧ cat 0 ((λ s, payload (dense_features s)) <$> shards)
      = payload (dense_features (example_batch 0))
    ∧ cat 0 ((λ s, payload (labels s)) <$> shards) = payload (labels (example_batch 0))
    ∧ Forall (λ s, sparse_features s = kjt_to (sparse_features (example_batch 0)) (Some cpu))
        shards.
Proof.
  apply (placement_shards_cover_the_batch (store_of (example_batch 0)) 0 (example_batch 0)
           (Some (cuda 0)) (Some cpu) 3 true).
  - reflexivity.
  - apply wf_example_batch.
  - lia.
Defined.

(** X3: with a single worker ([rank = 0], [world_size = 1]) placement
    only relocates: the dense features and the labels keep all their
    rows and go to the dense device, the sparse features go to the sparse
    device; and placing the batch a second time changes nothing in the
    store. *)
Theorem single_worker_placement_relocates w r b dd sd nb :
  heap w !! r = Some (BatchObject b) → wf_batch b →
  ∃ w' w'',
    put_data_in_device (Some r) dd sd false 0 1 nb w = (Ok (Some r), w')
    ∧ heap w' = <[r := BatchObject (mkBatch (tensor_to (dense_features b) dd)
                                       (kjt_to (sparse_features b) sd)
                                       (tensor_to (labels b) dd))]> (heap w)
    ∧ put_data_in_device (Some r) dd sd false 0 1 nb w' = (Ok (Some r), w'')
    ∧ heap w'' = heap w'.
Proof.
  intros Hr Hb.
  assert (r < length (heap w)) as Hlt by (by eapply lookup_lt_Some).
  pose proof Hb as (Hwd & Hwl & Hs).
  set (b' := mkBatch (tensor_to (dense_features b) dd) (kjt_to (sparse_features b) sd)
               (tensor_to (labels b) dd)).
  assert (wf_batch b') as Hb'.
  { unfold wf_batch, splittable, b'. simpl. rewrite !payload_tensor_to.
    by repeat split; try apply Hs. }
  eexists _, _. split; [|split; [|split]].
  - apply put_data_in_device_place; [done|done|lia].
  - simpl. by rewrite place_batch_single.
  - apply put_data_in_device_place; [|apply Hb'|lia].
    simpl. rewrite list_lookup_insert_eq by done. by rewrite place_batch_single.
  - simpl. rewrite list_insert_insert_eq, !place_batch_single by done.
    unfold b'. simpl. by rewrite !tensor_to_twice, kjt_to_twice.
Qed.

Lemma single_worker_placement_relocates_witness :
  ∃ w' w'',
    put_data_in_device (Some 0) (Some (cuda 0)) (Some cpu) false 0 1 true
      (store_of (example_batch 0)) = (Ok (Some 0), w')
    ∧ heap w' = <[0 := BatchObject
                         (mkBatch (tensor_to (dense_features (example_batch 0)) (Some (cuda 0)))
                            (kjt_to (sparse_features (example_batch 0)) (Some cpu))
                            (tensor_to (labels (example_batch 0)) (Some (cuda 0))))]>
                  (heap (store_of (example_batch 0)))
    ∧ put_data_in_device (Some 0) (Some (cuda 0)) (Some cpu) false 0 1 true w'
      = (Ok (Some 0), w'')
    ∧ heap w'' = heap w'.
Proof.
  apply (single_worker_placement_relocates (store_of (example_batch 0)) 0 (example_batch 0)
           (Some (cuda 0)) (Some cpu) true).
  - reflexivity.
  - apply wf_example_batch.
Defined.

(** X4: the bounds of placement without distributed batches.  With
    [world_size = 0] it raises the [RuntimeError] of [torch.tensor_split];
    with [0 < world_size <= rank] it raises [IndexError].  In both cases
    the transfer of the dense features has been issued and the batch is
    left as it was.  With distributed batches [rank] and [world_size]
    are not looked at. *)
Theorem placement_rank_out_of_range w r b dd sd rank ws nb :
  heap w !! r = Some (BatchObject b) → size (payload (dense_features b)) ≠ [] →
  ws ≤ rank →
  put_data_in_device (Some r) dd sd false rank ws nb w
  = (Raise (if bool_decide (ws = 0) then RuntimeError else IndexError),
     set_log w (log w ++ [To r attr_dense_features dd nb (current_stream w)]))
  ∧ (put_data_in_device (Some r) dd sd true rank ws nb w).1 = Ok (Some (length (heap w))).
Proof.
  intros Hr Hne Hrank. split; [|by rewrite (put_data_in_device_dist r b)].
  assert (split_take (tensor_to (dense_features b) dd) ws rank
          = raise (if bool_decide (ws = 0) then RuntimeError else IndexError)) as Hsplit.
  { case_bool_decide as Hws.
    - subst ws. apply split_take_no_sections.
    - apply split_take_out_of_range; [by rewrite payload_tensor_to|lia|done]. }
  unfold put_data_in_device, to_device, get_batch, emit, modify, gets, mbind, M_bind.
  cbn. rewrite Hr. cbn. rewrite Hsplit. reflexivity.
Qed.

Lemma placement_rank_out_of_range_witness :
  put_data_in_device (Some 0) (Some (cuda 0)) (Some cpu) false 2 2 true
    (store_of (example_batch 0))
  = (Raise (if bool_decide (2 = 0) then RuntimeError else IndexError),
     set_log (store_of (example_batch 0))
       (log (store_of (example_batch 0))
        ++ [To 0 attr_dense_features (Some (cuda 0)) true
              (current_stream (store_of (example_batch 0)))]))
  ∧ (put_data_in_device (Some 0) (Some (cuda 0)) (Some cpu) true 2 2 true
       (store_of (example_batch 0))).1
    = Ok (Some (length (heap (store_of (example_batch 0))))).
Proof.
  apply (placement_rank_out_of_range (store_of (example_batch 0)) 0 (example_batch 0)
           (Some (cuda 0)) (Some cpu) 2 2 true).
  - reflexivity.
  - done.
  - lia.
Defined.

(** * What every call of the engine keeps *)

Section Tracking.
Variable p : TrainPipelineBase.

Lemma same_config_refl : same_config p p.
Proof. by repeat split. Qed.

Lemma engine_step_refl w : same_config p (self w) → engine_step p w w.
Proof.
  intros Hw. split; [done|]. split; [done|]. exists [], [].
  by rewrite app_nil_r.
Qed.

Lemma engine_step_trans w1 w2 w3 :
  engine_step p w1 w2 → engine_step p w2 w3 → engine_step p w1 w3.
Proof.
  intros (_ & Hs & k & evs & Hk & Hl & Hn & Hall) (Hc & Hs' & k' & evs' & Hk' & Hl' & Hn' & Hall').
  split; [done|]. split; [congruence|].
  exists (k ++ k'), (evs ++ evs'). split; [by rewrite Hk, Hk', app_assoc|].
  split; [by rewrite Hl', Hl, app_assoc|]. split.
  - rewrite pulled_app, !length_app. lia.
  - apply Forall_app. split; [done|]. by rewrite <-Hs.
Qed.

(** A state that differs from [w] in the store, the locals and the
    count of held batches only. *)
Lemma engine_step_silent w w' :
  same_config p (self w') → current_stream w' = current_stream w →
  dataloader_iter w' = dataloader_iter w → log w' = log w →
  engine_step p w w'.
Proof.
  intros Hc Hs Hi Hl. split; [done|]. split; [done|]. exists [], [].
  by rewrite Hi, Hl, app_nil_r.
Qed.

Lemma engine_step_emit w w' e :
  same_config p (self w') → current_stream w' = current_stream w →
  dataloader_iter w' = dataloader_iter w → log w' = log w ++ [e] →
  pulled [e] = [] → allowed p (current_stream w) e →
  engine_step p w w'.
Proof.
  intros Hc Hs Hi Hl He Ha. split; [done|]. split; [done|]. exists [], [e].
  rewrite Hi, Hl, He. repeat split; try done. by apply Forall_singleton.
Qed.

Lemma tracks_bind {X Y : Type} (m : M X) (f : X → M Y) :
  tracks p m → (∀ x, tracks p (f x)) → tracks p (m ≫= f).
Proof.
  intros Hm Hf w Hw. rewrite bind_run. specialize (Hm w Hw).
  destruct (m w) as [[x|e] w']; [|done]. simpl in Hm.
  eapply engine_step_trans; [exact Hm|]. apply Hf. apply Hm.
Qed.

Lemma tracks_ret {X : Type} (x : X) : tracks p (mret x).
Proof. intros w Hw. by apply engine_step_refl. Qed.

Lemma tracks_raise {X : Type} (e : exn) : tracks p (@raise X e).
Proof. intros w Hw. by apply engine_step_refl. Qed.

Lemma tracks_gets {X : Type} (g : World → X) : tracks p (gets g).
Proof. intros w Hw. by apply engine_step_refl. Qed.

(** After [q = self], the continuation knows the configuration of [q]. *)
Lemma tracks_gets_self {Y : Type} (f : TrainPipelineBase → M Y) :
  (∀ q, same_config p q → tracks p (f q)) → tracks p (gets self ≫= f).
Proof. intros H w Hw. exact (H (self w) Hw w Hw). Qed.

Lemma tracks_emit e :
  pulled [e] = [] → (∀ cs, allowed p cs e) → tracks p (emit e).
Proof. intros He Ha w Hw. by apply (engine_step_emit _ _ e). Qed.

Lemma tracks_set_self f :
  (∀ q, same_config p q → same_config p (f q)) → tracks p (set_self f).
Proof. intros Hf w Hw. apply engine_step_silent; simpl; auto. Qed.

Lemma tracks_set_locals f : tracks p (set_locals f).
Proof. intros w Hw. by apply engine_step_silent. Qed.

Lemma tracks_get_batch v : tracks p (get_batch v).
Proof.
  intros w Hw. unfold get_batch. destruct v as [r|]; [|by apply engine_step_refl].
  destruct (heap w !! r) as [[b|]|]; by apply engine_step_refl.
Qed.

Lemma tracks_next : tracks p next.
Proof.
  intros w Hw. unfold next. destruct (dataloader_iter w) as [|b rest] eqn:Hi.
  - by apply engine_step_refl.
  - split; [done|]. split; [done|]. exists [b], [Next (length (heap w))].
    rewrite Hi. repeat split; try done. by apply Forall_singleton.
Qed.

Lemma Forall_allowed_metric_events cs r n i :
  i + n ≤ _metrics p → Forall (allowed p cs) (metric_events r n i).
Proof.
  revert i. induction n as [|n IH]; intros i Hi; [done|].
  simpl. constructor; [simpl; lia|]. apply IH. lia.
Qed.

Lemma tracks_update_metrics r n : n ≤ _metrics p → tracks p (update_metrics r n 0).
Proof.
  intros Hn w Hw. rewrite update_metrics_run. split; [done|]. split; [done|].
  exists [], (metric_events r n 0). repeat split; try done.
  - by rewrite pulled_metric_events.
  - by apply Forall_allowed_metric_events.
Qed.

Lemma tracks_call {X : Type} (body : M X) : tracks p body → tracks p (call body).
Proof.
  intros Hb w Hw. unfold call. specialize (Hb w Hw).
  destruct (body w) as [r w']. simpl in *.
  eapply engine_step_trans; [exact Hb|].
  apply engine_step_silent; try done. apply Hb.
Qed.

(** The staging block of [_connect] and [progress]: the transfers go to
    the copy stream when the engine has one, and the stream that was
    current is current again afterwards. *)
Lemma tracks_staging q (g : World → value) dd sd d rank ws nb :
  same_config p q →
  tracks p (with_stream (_memcpy_stream q)
              (cur ← gets g; put_data_in_device cur dd sd d rank ws nb)).
Proof.
  intros Hq w Hw. destruct Hq as (_ & _ & _ & _ & _ & _ & Hms).
  unfold with_stream. destruct (_memcpy_stream q) as [s|] eqn:Hs.
  - rewrite bind_run. cbn [set_stream modify].
    set (w1 := mkWorld (heap w) (dataloader_iter w) (log w) s (self w) (locals w) (peak w)).
    change ((gets g ≫= λ cur, put_data_in_device cur dd sd d rank ws nb) w1)
      with (put_data_in_device (g w1) dd sd d rank ws nb w1).
    pose proof (framing_put_data_in_device (g w1) dd sd d rank ws nb w1) as Hf.
    destruct (put_data_in_device (g w1) dd sd d rank ws nb w1) as [r w2].
    destruct Hf as (Hself & _ & _ & Hi & _ & _ & _ & evs & Hl & Hevs).
    simpl in *. split; [by rewrite Hself|]. split; [done|].
    exists [], evs. rewrite Hi, Hl. repeat split; try done.
    + clear Hl. induction Hevs as [|e evs He _ IH]; [done|].
      destruct He as (? & ? & ? & ? & ->). done.
    + eapply Forall_impl; [exact Hevs|]. intros e (? & ? & ? & ? & ->). simpl.
      by rewrite <-Hms.
  - change ((gets g ≫= λ cur, put_data_in_device cur dd sd d rank ws nb) w)
      with (put_data_in_device (g w) dd sd d rank ws nb w).
    pose proof (framing_put_data_in_device (g w) dd sd d rank ws nb w) as Hf.
    destruct (put_data_in_device (g w) dd sd d rank ws nb w) as [r w2].
    destruct Hf as (Hself & _ & _ & Hi & Hcs & _ & _ & evs & Hl & Hevs).
    simpl in *. split; [by rewrite Hself|]. split; [done|].
    exists [], evs. rewrite Hi, Hl. repeat split; try done.
    + clear Hl. induction Hevs as [|e evs He _ IH]; [done|].
      destruct He as (? & ? & ? & ? & ->). done.
    + eapply Forall_impl; [exact Hevs|]. intros e (? & ? & ? & ? & ->). simpl.
      by rewrite <-Hms.
Qed.

Lemma same_config_set_cur_batch v q : same_config p q → same_config p (set_cur_batch v q).
Proof. done. Qed.

Lemma same_config_set_connected c q : same_config p q → same_config p (set_connected c q).
Proof. done. Qed.

Lemma same_config_set_connect_attr s q :
  same_config p q → same_config p (set_connect_attr s q).
Proof. done. Qed.

Lemma pulls_tracks {X : Type} (m : M X) : pulls p m → tracks p m.
Proof. intros H w Hw. apply H, Hw. Qed.

Lemma pulls_bind_l {X Y : Type} (m : M X) (f : X → M Y) :
  pulls p m → (∀ x, tracks p (f x)) → pulls p (m ≫= f).
Proof.
  intros Hm Hf w Hw. split; [apply tracks_bind; [by apply pulls_tracks|done|done]|].
  rewrite bind_run. destruct (Hm w Hw) as [Hstep Hlt].
  destruct (m w) as [[x|e] w']; [|done]. simpl in *.
  intros y Hy. specialize (Hlt x eq_refl).
  destruct (Hf x w' ltac:(apply Hstep)) as (_ & _ & k & _ & Hk & _).
  rewrite Hk, length_app in Hlt. lia.
Qed.

Lemma pulls_bind_r {X Y : Type} (m : M X) (f : X → M Y) :
  tracks p m → (∀ x, pulls p (f x)) → pulls p (m ≫= f).
Proof.
  intros Hm Hf w Hw.
  split; [apply tracks_bind; [done|intros x; apply pulls_tracks, Hf|done]|].
  rewrite bind_run. pose proof (Hm w Hw) as Hstep.
  destruct (m w) as [[x|e] w']; [|done]. simpl in *.
  intros y Hy. destruct (Hf x w' ltac:(apply Hstep)) as [_ Hlt].
  specialize (Hlt y Hy).
  destruct Hstep as (_ & _ & k & _ & Hk & _).
  rewrite Hk, length_app. lia.
Qed.

Lemma pulls_next : pulls p next.
Proof.
  intros w Hw. split; [by apply tracks_next|].
  unfold next. destruct (dataloader_iter w) as [|b rest]; [done|].
  simpl. lia.
Qed.

Lemma pulls_call {X : Type} (body : M X) : pulls p body → pulls p (call body).
Proof.
  intros Hb w Hw. split; [apply tracks_call; [by apply pulls_tracks|done]|].
  unfold call. destruct (Hb w Hw) as [_ Hlt].
  destruct (body w) as [r w']. simpl in *. exact Hlt.
Qed.

End Tracking.

(** The side condition of an [emit]: the event is allowed by the
    configuration read from [self]. *)
Ltac allowed_side :=
  simpl;
  repeat match goal with
         | H : same_config _ _ |- _ =>
             let Ht := fresh in let Hc := fresh in let Ho := fresh in
             let Hms := fresh in
             destruct H as (Ht & Hc & Ho & _ & _ & _ & Hms);
             rewrite <-?Ht, <-?Hc, <-?Ho, <-?Hms
         end;
  repeat match goal with
         | H : _ = _ |- _ => rewrite H
         end;
  by eauto.

(** Apply the rule of the head statement. *)
Ltac tracks_step :=
  first
    [ apply tracks_ret
    | apply tracks_raise
    | apply tracks_gets_self; intros ? ?
    | apply tracks_staging; assumption
    | apply tracks_gets
    | apply tracks_next
    | apply tracks_get_batch
    | apply tracks_set_locals
    | apply tracks_set_self; first
        [ apply same_config_set_cur_batch | apply same_config_set_connected
        | apply same_config_set_connect_attr ]
    | apply tracks_update_metrics;
        match goal with H : same_config _ _ |- _ =>
          destruct H as (_ & _ & _ & -> & _); done end
    | apply tracks_emit; [done|intros ?; allowed_side]
    | apply tracks_bind; [|intros ?]
    | match goal with
      | |- tracks _ (when ?c _) => destruct c eqn:?; unfold when
      | |- tracks _ (if ?c then _ else _) => destruct c eqn:?
      | |- tracks _ (match ?c with _ => _ end) => destruct c eqn:?
      end ].

Section TrackingEngine.
Variable p : TrainPipelineBase.

Lemma tracks_connect_body d rank ws : tracks p (_connect d rank ws).
Proof. unfold _connect. repeat tracks_step. Qed.

Lemma tracks_call_connect d rank ws : tracks p (call_connect d rank ws).
Proof.
  unfold call_connect. apply tracks_bind; [apply tracks_gets|intros slot].
  destruct slot; [apply tracks_connect_body|apply tracks_raise].
Qed.

Lemma tracks_reset : tracks p reset.
Proof. unfold reset. repeat tracks_step. Qed.

(** [progress] returns only after it has taken a batch from the
    iterator. *)
Lemma pulls_progress d rank ws : pulls p (progress d rank ws).
Proof.
  unfold progress. apply pulls_call.
  apply pulls_bind_r; [apply tracks_gets|intros connected].
  apply pulls_bind_r.
  { destruct (negb connected); [apply tracks_call_connect|apply tracks_ret]. }
  intros _. apply pulls_bind_l; [apply pulls_next|intros b].
  unfold _wait_for_batch. repeat tracks_step.
Qed.

Lemma tracks_progress d rank ws : tracks p (progress d rank ws).
Proof. apply pulls_tracks, pulls_progress. Qed.

Lemma tracks_connect d rank ws : tracks p (connect d rank ws).
Proof. apply tracks_call, tracks_call_connect. Qed.

Lemma tracks_run_command d rank ws c : tracks p (run_command d rank ws c).
Proof. destruct c; [apply tracks_progress|apply tracks_reset]. Qed.

Lemma engine_step_run_commands d rank ws cs w :
  same_config p (self w) → engine_step p w (run_commands d rank ws cs w).
Proof.
  revert w. induction cs as [|c cs IH]; intros w Hw; [by apply engine_step_refl|].
  simpl. pose proof (tracks_run_command d rank ws c w Hw) as Hstep.
  eapply engine_step_trans; [exact Hstep|]. apply IH, Hstep.
Qed.

End TrackingEngine.

(** * Properties of every execution of the engine *)

(** X5: [progress], [reset] and [connect] leave the current CUDA stream
    as they found it, whether they return or raise: the [with] blocks
    that select the copy stream restore the previous stream on every
    path.  This holds from every state of the engine. *)
Theorem calls_restore_the_stream d rank ws cs w :
  current_stream (run_commands d rank ws cs w) = current_stream w
  ∧ current_stream (progress d rank ws w).2 = current_stream w
  ∧ current_stream (connect d rank ws w).2 = current_stream w.
Proof.
  split; [|split].
  - apply (engine_step_run_commands (self w)), same_config_refl.
  - apply (tracks_progress (self w)), same_config_refl.
  - apply (tracks_connect (self w)), same_config_refl.
Qed.

Lemma init_config training crit opt sparse dense metrics :
  let p := __init__ training crit opt sparse dense metrics in
  default default_stream (_memcpy_stream p) = staging_stream_of sparse
  ∧ (is_Some (_memcpy_stream p) → staging_stream_of sparse = memcpy_stream).
Proof.
  simpl. destruct sparse as [[|i]|]; simpl; split; try done; by intros [? ?].
Qed.

Lemma start_log_allowed p batches d rank ws cs :
  Forall (allowed p default_stream) (log (run_commands d rank ws cs (start p batches))).
Proof.
  destruct (engine_step_run_commands p d rank ws cs (start p batches))
    as (_ & _ & k & evs & _ & Hl & _ & Hall); [apply same_config_refl|].
  rewrite Hl. exact Hall.
Qed.

(** X6: in every execution of a fresh engine (any sequence of [progress]
    and [reset] calls, whatever they raise) every transfer is issued on
    one stream, fixed when the engine is built: the copy stream when the
    sparse device is a CUDA device, the default stream otherwise (so with
    the sparse parameters on the host, or no sparse device, no transfer
    overlaps with the computation, also not those to the dense device);
    and the engine waits on a stream only when it has the copy stream. *)
Theorem transfers_use_the_staging_stream training crit opt sparse dense metrics batches
    d rank ws cs :
  let w := run_commands d rank ws cs
             (start (__init__ training crit opt sparse dense metrics) batches) in
  Forall (λ e, match e with
               | To _ _ _ _ on => on = staging_stream_of sparse
               | WaitStream | RecordStream _ => staging_stream_of sparse = memcpy_stream
               | _ => True
               end) (log w).
Proof.
  intros w. eapply Forall_impl; [apply start_log_allowed|].
  destruct (init_config training crit opt sparse dense metrics) as [Hto Hwait].
  intros [] He; simpl in He; try done.
  - by rewrite He.
  - by apply Hwait.
  - by apply Hwait.
Qed.

(** * The engine after [reset] *)

Lemma transfers_app l k : transfers (l ++ k) = transfers l ++ transfers k.
Proof. apply omap_app. Qed.

Lemma forwards_app l k : forwards (l ++ k) = forwards l ++ forwards k.
Proof. apply omap_app. Qed.

Lemma metric_updates_app i l k :
  metric_updates i (l ++ k) = metric_updates i l ++ metric_updates i k.
Proof. apply omap_app. Qed.

Lemma reset_is_reset w :
  is_reset (self (reset w).2) ∧ log (reset w).2 = log w
  ∧ dataloader_iter (reset w).2 = dataloader_iter w
  ∧ _connected (self (reset w).2) = _connected (self w).
Proof. repeat split. by exists false. Qed.

Lemma progress_after_reset d rank ws w :
  is_reset (self w) →
  ∃ w', progress d rank ws w
        = (Raise (if _connected (self w)
                  then (if dataloader_iter w is [] then StopIteration else AssertionError)
                  else TypeError), w')
        ∧ self w' = self w
        ∧ consumed (log w') = consumed (log w)
        ∧ transfers (log w') = transfers (log w).
Proof.
  intros [[v Hattr] Hcur].
  destruct (_connected (self w)) eqn:Hc; [destruct (dataloader_iter w) as [|b rest] eqn:Hi|].
  all: eexists; split;
    [ unfold_engine_goal; run; rewrite ?Hc; run; rewrite ?Hi, ?Hattr; run;
      rewrite ?Hcur; run; reflexivity
    | run; rewrite ?consumed_app, ?transfers_app, ?app_nil_r; by repeat split ].
Qed.

Lemma run_commands_after_reset d rank ws cs w :
  is_reset (self w) →
  let w' := run_commands d rank ws cs w in
  is_reset (self w') ∧ _connected (self w') = _connected (self w)
  ∧ consumed (log w') = consumed (log w) ∧ transfers (log w') = transfers (log w).
Proof.
  revert w. induction cs as [|c cs IH]; intros w Hw; [done|].
  cbv zeta. destruct c.
  - change (run_commands d rank ws (CallProgress :: cs) w)
      with (run_commands d rank ws cs (progress d rank ws w).2).
    destruct (progress_after_reset d rank ws w Hw) as (w1 & Hrun & Hs & Hc & Ht).
    rewrite Hrun. cbn [snd]. destruct (IH w1) as (? & H0 & H1 & H2); [by rewrite Hs|].
    split; [done|]. by rewrite H0, H1, H2, Hs, Hc, Ht.
  - change (run_commands d rank ws (CallReset :: cs) w)
      with (run_commands d rank ws cs (reset w).2).
    destruct (reset_is_reset w) as (Hr & Hl & _ & Hc).
    destruct (IH (reset w).2 Hr) as (? & H0 & H1 & H2).
    split; [done|]. by rewrite H0, H1, H2, Hl, Hc.
Qed.

(** X7: [reset()] disables the engine for good.  From every state, after
    a [reset()], whatever sequence of [progress] and [reset] calls
    follows: no forward computation runs and no transfer is issued any
    more, [_connected] keeps the value it had, and every [progress]
    raises: [TypeError] on an engine that was not connected (the method
    [_connect] is shadowed by [False]); on a connected engine
    [StopIteration] when the iterator is exhausted and otherwise
    [AssertionError], after taking a batch that is dropped. *)
Theorem reset_disables_the_engine d rank ws w cs :
  let w' := run_commands d rank ws cs (reset w).2 in
  consumed (log w') = consumed (log w)
  ∧ transfers (log w') = transfers (log w)
  ∧ _connected (self w') = _connected (self w)
  ∧ (progress d rank ws w').1
    = Raise (if _connected (self w)
             then (if dataloader_iter w' is [] then StopIteration else AssertionError)
             else TypeError).
Proof.
  intros w'. destruct (reset_is_reset w) as (Hr & Hl & _ & Hc).
  destruct (run_commands_after_reset d rank ws cs (reset w).2 Hr) as (Hr' & Hc' & Hcons & Htr).
  fold w' in Hr', Hc', Hcons, Htr.
  split; [by rewrite Hcons, Hl|]. split; [by rewrite Htr, Hl|].
  split; [congruence|].
  destruct (progress_after_reset d rank ws w' Hr') as (w'' & Hrun & _).
  rewrite Hrun. simpl. by rewrite Hc', Hc.
Qed.

(** * The drivers *)

(** The first [progress] of an engine is [_connect] followed by a
    [progress] of the connected engine. *)
Lemma progress_connects d rank ws w w1 :
  _connected (self w) = false → call_connect d rank ws w = (Ok tt, w1) →
  _connected (self w1) = true →
  progress d rank ws w = progress d rank ws w1.
Proof.
  intros Hc Hcc Hc1. unfold progress, call.
  rewrite (bind_run (gets _) _ w), (bind_run (gets _) _ w1).
  unfold gets. cbn beta iota. rewrite Hc, Hc1.
  cbn [negb when]. rewrite (bind_run (call_connect _ _ _)), Hcc.
  rewrite (bind_run (mret tt)). done.
Qed.

Lemma progress_connect_raises d rank ws w e w1 :
  _connected (self w) = false → call_connect d rank ws w = (Raise e, w1) →
  progress d rank ws w = (Raise e, (set_locals (λ _, no_locals) w1).2).
Proof.
  intros Hc Hcc. unfold progress, call.
  rewrite (bind_run (gets _) _ w).
  unfold gets. cbn beta iota. rewrite Hc.
  cbn [negb when]. rewrite (bind_run (call_connect _ _ _)), Hcc. done.
Qed.

(** [_connect] and [progress] without distributed batches, with the
    batch they leave in the store. *)
Lemma call_connect_place rank ws w b rest :
  _connect_attr (self w) = BoundMethod → dataloader_iter w = b :: rest →
  splittable b → rank < ws → current_stream w = default_stream →
  ∃ w', call_connect false rank ws w = (Ok tt, w')
    ∧ heap w' = heap w ++ [BatchObject (place_batch (_sparse_device (self w))
                                          (_dense_device (self w)) rank ws b)]
    ∧ dataloader_iter w' = rest
    ∧ log w' = log w ++ Next (length (heap w)) :: staging_events (self w) (length (heap w))
    ∧ self w' = set_connected true (set_cur_batch (Some (length (heap w))) (self w))
    ∧ current_stream w' = default_stream.
Proof.
  intros Hattr Hiter Hb Hr Hcs.
  assert ((heap w ++ [BatchObject b]) !! length (heap w) = Some (BatchObject b)) as Hn
    by by apply list_lookup_middle.
  destruct (_memcpy_stream (self w)) eqn:Hs.
  - eexists. split.
    { unfold_engine_goal. run. rewrite Hattr, Hiter. run. rewrite Hs. run.
      erewrite put_data_in_device_place; [|run; exact Hn|done|done].
      run. reflexivity. }
    run. rewrite insert_last, <-app_assoc. unfold staging_events, staging_stream.
    rewrite Hs. by repeat split.
  - eexists. split.
    { unfold_engine_goal. run. rewrite Hattr, Hiter. run. rewrite Hs. run.
      erewrite put_data_in_device_place; [|run; exact Hn|done|done].
      run. reflexivity. }
    run. rewrite insert_last, <-app_assoc. unfold staging_events, staging_stream.
    rewrite Hs, Hcs. by repeat split.
Qed.

Lemma progress_place rank ws w r b nb rest :
  _connected (self w) = true → _cur_batch (self w) = Some r →
  heap w !! r = Some (BatchObject b) → splittable b →
  dataloader_iter w = nb :: rest → rank < ws →
  current_stream w = default_stream → runnable (self w) →
  ∃ w', progress false rank ws w = (Ok tt, w')
    ∧ heap w' = <[r := BatchObject (place_batch (_sparse_device (self w))
                                      (_dense_device (self w)) rank ws b)]>
                  (heap w ++ [BatchObject nb])
    ∧ dataloader_iter w' = rest
    ∧ log w' = log w ++ progress_events (self w) (length (heap w)) r b
    ∧ self w' = self w
    ∧ current_stream w' = default_stream.
Proof.
  intros Hc Hcur Hr Hb Hiter Hrank Hcs Hrun.
  assert ((heap w ++ [BatchObject nb]) !! r = Some (BatchObject b)) as Hr'
    by (by apply lookup_app_l_Some).
  unfold runnable in Hrun.
  destruct (training (self w)) eqn:Ht; [destruct Hrun as [Hcrit Hopt]; [done|]|];
    destruct (_memcpy_stream (self w)) eqn:Hs.
  all: eexists; split;
    [ unfold_engine_goal;
      repeat first
        [ progress run
        | match goal with H : ?x = _ |- context [?x] => rewrite H end
        | rewrite update_metrics_run
        | erewrite put_data_in_device_place; [|run; eassumption|done|done] ];
      reflexivity
    | run; unfold progress_events, staging_events, staging_stream;
      rewrite ?Ht, ?Hs, ?Hcs, (set_cur_batch_same _ _ _ Hcur); run;
      repeat split; try done; rewrite <-?app_assoc; try done ].
Qed.

Lemma forwards_metric_events r n i : forwards (metric_events r n i) = [].
Proof. revert i. induction n as [|n IH]; intros i; [done|]. simpl. apply IH. Qed.

Lemma forwards_progress_events p n r b :
  forwards (progress_events p n r b) = [(r, dense_features b, sparse_features b)].
Proof.
  unfold progress_events, staging_events. rewrite !forwards_app, forwards_metric_events.
  by destruct (training p), (_memcpy_stream p).
Qed.

Lemma metric_updates_metric_events i r n j :
  metric_updates i (metric_events r n j)
  = if bool_decide (j ≤ i < j + n) then [r] else [].
Proof.
  revert j. induction n as [|n IH]; intros j.
  - simpl. by rewrite bool_decide_eq_false_2 by lia.
  - change (metric_events r (S n) j) with ([Metric j r] ++ metric_events r n (S j)).
    rewrite metric_updates_app, IH. unfold metric_updates at 1. simpl.
    repeat case_bool_decide; try done; lia.
Qed.

Lemma metric_updates_progress_events i p n r b :
  metric_updates i (progress_events p n r b)
  = if bool_decide (i < _metrics p) then [r] else [].
Proof.
  unfold progress_events, staging_events.
  rewrite !metric_updates_app, metric_updates_metric_events.
  destruct (training p), (_memcpy_stream p); simpl;
    repeat case_bool_decide; try done; lia.
Qed.

Lemma fmap_option_add_0 (prof : option nat) : (λ n, n + 0) <$> prof = prof.
Proof. destruct prof as [n|]; [|done]. simpl. f_equal. lia. Qed.

Lemma fmap_option_add_S (prof : option nat) k :
  (λ n, n + k) <$> (S <$> prof) = (λ n, n + S k) <$> prof.
Proof. destruct prof as [n|]; [|done]. simpl. f_equal. lia. Qed.

(** The loop of [_train] on a connected engine, without distributed
    batches: it ends normally after one [progress] per batch left, each
    of which computes on the current batch [r] and places it again. *)
Lemma _train_loop_local rank ws rest :
  ∀ fuel prof w r b,
    _connected (self w) = true → _cur_batch (self w) = Some r →
    heap w !! r = Some (BatchObject b) → splittable b →
    dataloader_iter w = rest → rank < ws →
    current_stream w = default_stream → runnable (self w) →
    length rest < fuel →
    ∃ w' evs,
      _train_loop fuel false rank ws prof w
      = Some (Ok ((λ n, n + length rest) <$> prof), w')
      ∧ heap w'
        = <[r := BatchObject (Nat.iter (length rest)
                                (place_batch (_sparse_device (self w))
                                   (_dense_device (self w)) rank ws) b)]>
            (heap w ++ (BatchObject <$> rest))
      ∧ self w' = self w
      ∧ log w' = log w ++ evs
      ∧ pulled evs = seq (length (heap w)) (length rest)
      ∧ forwards evs
        = (λ k, let b' := Nat.iter k (place_batch (_sparse_device (self w))
                                        (_dense_device (self w)) rank ws) b in
                (r, dense_features b', sparse_features b')) <$> seq 0 (length rest)
      ∧ ∀ i, metric_updates i evs
             = if bool_decide (i < _metrics (self w)) then replicate (length rest) r else [].
Proof.
  induction rest as [|nb rest IH]; intros fuel prof w r b Hc Hcur Hr Hb Hiter Hrank Hcs Hrun Hfuel.
  - destruct fuel as [|fuel]; [simpl in Hfuel; lia|].
    destruct (progress_exhausted false rank ws w Hc Hiter)
      as (w' & Hp & Hh & Hl & Hs & _).
    exists w', []. cbn [_train_loop]. rewrite Hp. cbn [length].
    rewrite fmap_option_add_0, Hh, Hl, !app_nil_r, list_insert_id by done.
    repeat split; try done. intros i. by case_bool_decide.
  - destruct fuel as [|fuel]; [simpl in Hfuel; lia|].
    destruct (progress_place rank ws w r b nb rest Hc Hcur Hr Hb Hiter Hrank Hcs Hrun)
      as (w1 & Hp & Hh & Hi & Hl & Hs & Hcs1).
    assert (r < length (heap w)) as Hlt by (by eapply lookup_lt_Some).
    set (place := place_batch (_sparse_device (self w)) (_dense_device (self w)) rank ws) in *.
    destruct (IH fuel (S <$> prof) w1 r (place b))
      as (w' & evs & Hloop & Hh' & Hs' & Hl' & Hpull & Hfwd & Hmet).
    { by rewrite Hs. }
    { by rewrite Hs. }
    { rewrite Hh. apply list_lookup_insert_eq. rewrite length_app. lia. }
    { by apply splittable_place_batch. }
    { done. }
    { done. }
    { done. }
    { by rewrite Hs. }
    { simpl in Hfuel. lia. }
    rewrite Hs in Hh', Hfwd, Hmet. fold place in Hh', Hfwd.
    exists w', (progress_events (self w) (length (heap w)) r b ++ evs).
    cbn [_train_loop]. rewrite Hp. split; [|split; [|split; [|split; [|split; [|split]]]]].
    + rewrite Hloop. cbn [length]. by rewrite fmap_option_add_S.
    + rewrite Hh', Hh. cbn [length].
      rewrite <-Nat.iter_succ_r.
      rewrite insert_app_l by (rewrite length_insert, length_app; lia).
      rewrite list_insert_insert_eq.
      rewrite <-insert_app_l by (rewrite length_app; lia).
      by rewrite <-app_assoc.
    + by rewrite Hs', Hs.
    + by rewrite Hl', Hl, app_assoc.
    + rewrite pulled_app, pulled_progress_events, Hpull, Hh.
      rewrite length_insert, length_app. cbn [length].
      by rewrite Nat.add_1_r.
    + rewrite forwards_app, forwards_progress_events, Hfwd. cbn [length].
      change (seq 0 (S (length rest))) with (0 :: seq 1 (length rest)).
      rewrite fmap_cons, <-fmap_S_seq, <-list_fmap_compose. simpl. f_equal.
      apply list_fmap_ext. intros i k _. simpl. by rewrite <-Nat.iter_succ_r.
    + intros i. rewrite metric_updates_app, metric_updates_progress_events, Hmet.
      by case_bool_decide.
Qed.

Lemma _train_loop_connects fuel d rank ws prof w w1 :
  _connected (self w) = false → call_connect d rank ws w = (Ok tt, w1) →
  _connected (self w1) = true →
  _train_loop fuel d rank ws prof w = _train_loop fuel d rank ws prof w1.
Proof.
  intros Hc Hcc Hc1. destruct fuel as [|fuel]; [done|].
  cbn [_train_loop]. by rewrite (progress_connects d rank ws w w1).
Qed.

(** A fresh engine on an exhausted iterator: [_connect] raises
    [StopIteration] and nothing has happened. *)
Lemma progress_nothing_to_connect d rank ws w :
  _connected (self w) = false → _connect_attr (self w) = BoundMethod →
  dataloader_iter w = [] →
  ∃ w', progress d rank ws w = (Raise StopIteration, w')
        ∧ heap w' = heap w ∧ log w' = log w ∧ self w' = self w.
Proof.
  intros Hc Hattr Hi. eexists. split.
  - unfold_engine_goal. run. rewrite Hc. run. rewrite Hattr. run. rewrite Hi. run.
    reflexivity.
  - done.
Qed.

Lemma call_connect_dist rank ws w b rest :
  _connect_attr (self w) = BoundMethod → dataloader_iter w = b :: rest →
  ∃ w' dense sparse label,
    call_connect true rank ws w = (Ok tt, w')
    ∧ heap w' = heap w ++ [BatchObject b; TupleObject dense sparse label]
    ∧ dataloader_iter w' = rest
    ∧ self w' = set_connected true (set_cur_batch (Some (S (length (heap w)))) (self w))
    ∧ forwards (log w') = forwards (log w)
    ∧ pulled (log w') = pulled (log w) ++ [length (heap w)]
    ∧ ∀ i, metric_updates i (log w') = metric_updates i (log w).
Proof.
  intros Hattr Hiter.
  assert ((heap w ++ [BatchObject b]) !! length (heap w) = Some (BatchObject b)) as Hn
    by by apply list_lookup_middle.
  destruct (_memcpy_stream (self w)) eqn:Hs.
  all: eexists _, _, _, _; split;
    [ unfold_engine_goal; run; rewrite Hattr, Hiter; run;
      rewrite Hs; run;
      (erewrite put_data_in_device_dist; [|run; exact Hn]);
      run; reflexivity
    | run; rewrite length_app, Nat.add_1_r, <-!app_assoc, !forwards_app, !pulled_app;
      do 5 (split; [cbn; by rewrite ?app_nil_r|]);
      intros i; rewrite ?metric_updates_app, ?omap_app; cbn; by rewrite ?app_nil_r ].
Qed.

Lemma progress_on_tuple rank ws w r dense sparse label nb rest :
  _connected (self w) = true → _cur_batch (self w) = Some r →
  heap w !! r = Some (TupleObject dense sparse label) →
  dataloader_iter w = nb :: rest →
  ∃ w', progress true rank ws w = (Raise AttributeError, w')
        ∧ forwards (log w') = forwards (log w)
        ∧ pulled (log w') = pulled (log w) ++ [length (heap w)]
        ∧ ∀ i, metric_updates i (log w') = metric_updates i (log w).
Proof.
  intros Hc Hcur Hr Hiter.
  assert ((heap w ++ [BatchObject nb]) !! r = Some (TupleObject dense sparse label)) as Hr'
    by (by apply lookup_app_l_Some).
  destruct (training (self w)) eqn:Ht, (_memcpy_stream (self w)) eqn:Hs.
  all: eexists; split;
    [ unfold_engine_goal; run; rewrite Hc; run; rewrite Hiter; run; rewrite Hcur; run;
      rewrite ?Ht, ?Hs; run; rewrite Hr'; reflexivity
    | run; rewrite <-?app_assoc, !forwards_app, !pulled_app;
      do 2 (split; [cbn; by rewrite ?app_nil_r|]);
      intros i; rewrite ?metric_updates_app, ?omap_app; cbn; by rewrite ?app_nil_r ].
Qed.

(** The loops end: every [progress] that returns has taken a batch. *)
Lemma _train_loop_ends p d rank ws :
  ∀ fuel prof w,
    same_config p (self w) → length (dataloader_iter w) < fuel →
    ∃ r w' k,
      _train_loop fuel d rank ws prof w = Some (r, w')
      ∧ engine_step p w w'
      ∧ r ≠ Raise StopIteration
      ∧ (∀ prof', r = Ok prof' → prof' = (λ n, n + k) <$> prof)
      ∧ k + length (dataloader_iter w') ≤ length (dataloader_iter w).
Proof.
  induction fuel as [|fuel IH]; intros prof w Hw Hfuel; [lia|].
  cbn [_train_loop]. destruct (pulls_progress p d rank ws w Hw) as [Hstep Hlt].
  destruct (progress d rank ws w) as [[[]|e] w1]; cbn [fst snd] in *.
  - specialize (Hlt tt eq_refl).
    destruct (IH (S <$> prof) w1) as (r & w' & k & Hloop & Hstep' & Hr & Hprof & Hk);
      [apply Hstep|lia|].
    exists r, w', (S k). split; [done|]. split; [by eapply engine_step_trans|].
    split; [done|]. split; [|lia].
    intros prof' ->. rewrite (Hprof prof' eq_refl). apply fmap_option_add_S.
  - assert (engine_step p w w1 ∧ 0 + length (dataloader_iter w1) ≤ length (dataloader_iter w))
      as [? ?].
    { split; [done|]. destruct Hstep as (_ & _ & ys & _ & -> & _).
      rewrite length_app. lia. }
    destruct e.
    1: exists (Ok prof), w1, 0; split; [done|]; split; [done|]; split; [done|];
       split; [|done]; intros ? [= <-]; by rewrite fmap_option_add_0.
    all: eexists (Raise _), w1, 0; split; [done|]; split; [done|]; split; [done|];
       by split.
Qed.

Lemma _train_loop_fuel d rank ws :
  ∀ fuel fuel' prof w out,
    _train_loop fuel d rank ws prof w = Some out → fuel ≤ fuel' →
    _train_loop fuel' d rank ws prof w = Some out.
Proof.
  induction fuel as [|fuel IH]; intros fuel' prof w out Hrun Hle; [done|].
  destruct fuel' as [|fuel']; [lia|]. cbn [_train_loop] in *.
  destruct (progress d rank ws w) as [[[]|e] w1]; [|done].
  apply IH; [done|lia].
Qed.

(** The loop of [_evaluate] is the loop of [_train] without profiler. *)
Lemma _evaluate_loop_train fuel d rank ws w :
  _evaluate_loop fuel d rank ws w
  = match _train_loop fuel d rank ws None w with
    | None => None
    | Some (Ok _, w') => Some (Ok tt, w')
    | Some (Raise e, w') => Some (Raise e, w')
    end.
Proof.
  revert w. induction fuel as [|fuel IH]; intros w; [done|].
  cbn [_evaluate_loop _train_loop].
  destruct (progress d rank ws w) as [[[]|e] w1]; [apply IH|].
  by destruct e.
Qed.

(** A fresh engine without distributed batches, driven until the loader
    is exhausted. *)
Lemma loop_local training crit opt sparse dense metrics B0 rest rank ws fuel prof :
  (training = true → crit = true ∧ opt = true) → splittable B0 → rank < ws →
  length rest < fuel →
  ∃ w, _train_loop fuel false rank ws prof
         (start (__init__ training crit opt sparse dense metrics) (B0 :: rest))
       = Some (Ok ((λ n, n + length rest) <$> prof), w)
    ∧ heap w = BatchObject (Nat.iter (S (length rest)) (place_batch sparse dense rank ws) B0)
               :: (BatchObject <$> rest)
    ∧ pulled (log w) = seq 0 (S (length rest))
    ∧ forwards (log w)
      = (λ k, let b' := Nat.iter (S k) (place_batch sparse dense rank ws) B0 in
              (0, dense_features b', sparse_features b')) <$> seq 0 (length rest)
    ∧ ∀ i, metric_updates i (log w)
           = if bool_decide (i < metrics) then replicate (length rest) 0 else [].
Proof.
  intros Hrun HB0 Hrank Hfuel.
  set (p := __init__ training crit opt sparse dense metrics).
  set (w0 := start p (B0 :: rest)).
  destruct (call_connect_place rank ws w0 B0 rest) as (w1 & Hcc & Hh & Hi & Hl & Hs & Hcs);
    try done.
  rewrite (_train_loop_connects fuel false rank ws prof w0 w1) by (done || by rewrite Hs).
  simpl in Hh, Hl, Hs.
  destruct (_train_loop_local rank ws rest fuel prof w1 0
              (place_batch sparse dense rank ws B0))
    as (w' & evs & Hloop & Hh' & Hs' & Hl' & Hpull & Hfwd & Hmet).
  { by rewrite Hs. }
  { by rewrite Hs. }
  { by rewrite Hh. }
  { by apply splittable_place_batch. }
  { done. }
  { done. }
  { done. }
  { by rewrite Hs. }
  { done. }
  rewrite Hs in Hh', Hfwd, Hmet. rewrite Hh in Hh', Hpull. simpl in Hh', Hfwd, Hmet, Hpull.
  exists w'. split; [done|]. split; [|split; [|split]].
  - rewrite Hh'. by rewrite <-Nat.iter_succ_r.
  - rewrite Hl', Hl, pulled_app, Hpull. done.
  - rewrite Hl', Hl, forwards_app, Hfwd. cbn [forwards omap list_omap staging_events app].
    apply list_fmap_ext. intros i k _. simpl. by rewrite <-Nat.iter_succ_r.
  - intros i. rewrite Hl', Hl, metric_updates_app, Hmet. done.
Qed.

(** * Properties of the drivers *)

(** X8: [_train] always ends, although its loop has no bound: for every
    loader, configuration and mode there is one outcome that every run
    with enough iterations allowed (more than the loader has batches)
    reaches.  The outcome is never a [StopIteration] error (the loop
    catches it); the engine took its batches from the front of the
    loader, one [next] each; the profiler was stepped at most once per
    batch taken; and on an empty loader [_train] returns at once, having
    asked nothing of the model. *)
Theorem train_terminates sparse dense optimizer criterion data_loader prof d rank ws :
  ∃ r w k,
    (∀ fuel, length data_loader < fuel →
       _train fuel sparse dense optimizer criterion data_loader prof d rank ws
       = Some (r, w))
    ∧ r ≠ Raise StopIteration
    ∧ (∀ prof', r = Ok prof' → prof' = (λ n, n + k) <$> prof)
    ∧ k ≤ length (pulled (log w))
    ∧ (∃ yielded, data_loader = yielded ++ dataloader_iter w
                  ∧ length (pulled (log w)) = length yielded)
    ∧ (data_loader = [] → r = Ok prof ∧ log w = []).
Proof.
  set (p := __init__ true criterion optimizer sparse dense 0).
  destruct (_train_loop_ends p d rank ws (S (length data_loader)) prof (start p data_loader))
    as (r & w & k & Hloop & Hstep & Hr & Hprof & Hk);
    [apply same_config_refl|simpl; lia|].
  destruct Hstep as (_ & _ & ys & evs & Hys & Hl & Hn & _).
  simpl in Hys, Hl, Hk.
  exists r, w, k. split; [|split; [done|split; [done|split; [|split]]]].
  - intros fuel Hfuel. apply (_train_loop_fuel d rank ws (S (length data_loader))); [done|lia].
  - rewrite Hl, Hn. rewrite Hys, length_app in Hk. lia.
  - exists ys. by rewrite Hl, Hn.
  - intros ->. unfold start in Hloop. cbn [_train_loop] in Hloop.
    destruct (progress_nothing_to_connect d rank ws (start p [])) as (w' & Hp & _ & Hl' & _);
      try done.
    unfold start in Hp. rewrite Hp in Hloop. injection Hloop as <- <-. done.
Qed.

Lemma train_terminates_witness :
  ∃ r w k,
    (∀ fuel, length [example_batch 0; example_batch 10] < fuel →
       _train fuel (Some (cuda 0)) (Some (cuda 0)) true true
         [example_batch 0; example_batch 10] (Some 0) true 0 2
       = Some (r, w))
    ∧ r ≠ Raise StopIteration
    ∧ (∀ prof', r = Ok prof' → prof' = (λ n, n + k) <$> Some 0)
    ∧ k ≤ length (pulled (log w))
    ∧ (∃ yielded, [example_batch 0; example_batch 10] = yielded ++ dataloader_iter w
                  ∧ length (pulled (log w)) = length yielded)
    ∧ ([example_batch 0; example_batch 10] = [] → r = Ok (Some 0) ∧ log w = []).
Proof.
  apply (train_terminates (Some (cuda 0)) (Some (cuda 0)) true true
           [example_batch 0; example_batch 10] (Some 0) true 0 2).
Defined.

(** X9: without distributed batches, [_train] on a loader [B0 :: rest]
    whose first batch can be split, with a criterion and an optimizer and
    [rank < world_size], returns normally.  It pulls every batch of the
    loader, in order, but computes on the first one only: there is one
    forward computation per batch after the first, and the k-th of them
    reads the dense and the sparse features of [B0] placed k times (the
    staging step of [progress] places the current batch again, not the
    batch just pulled, and with the sparse and the dense device
    exchanged).  The other batches are left in the store as the loader
    yielded them, and the profiler is stepped once per forward
    computation. *)
Theorem train_computes_on_the_first_batch fuel sparse dense B0 rest prof rank ws :
  splittable B0 → rank < ws → length rest < fuel →
  ∃ w, _train fuel sparse dense true true (B0 :: rest) prof false rank ws
       = Some (Ok ((λ n, n + length rest) <$> prof), w)
    ∧ pulled (log w) = seq 0 (S (length rest))
    ∧ forwards (log w)
      = (λ k, let b' := Nat.iter (S k) (place_batch sparse dense rank ws) B0 in
              (0, dense_features b', sparse_features b')) <$> seq 0 (length rest)
    ∧ heap w = BatchObject (Nat.iter (S (length rest)) (place_batch sparse dense rank ws) B0)
               :: (BatchObject <$> rest).
Proof.
  intros HB0 Hrank Hfuel.
  destruct (loop_local true true true sparse dense 0 B0 rest rank ws fuel prof)
    as (w & Hloop & Hh & Hpull & Hfwd & _); try done.
  by exists w.
Qed.

Lemma train_computes_on_the_first_batch_witness :
  ∃ w, _train 3 (Some (cuda 0)) (Some (cuda 0)) true true
         [example_batch 0; example_batch 10; example_batch 20] (Some 0) false 1 2
       = Some (Ok ((λ n, n + length [example_batch 10; example_batch 20]) <$> Some 0), w)
    ∧ pulled (log w) = seq 0 (S (length [example_batch 10; example_batch 20]))
    ∧ forwards (log w)
      = (λ k, let b' := Nat.iter (S k) (place_batch (Some (cuda 0)) (Some (cuda 0)) 1 2)
                          (example_batch 0) in
              (0, dense_features b', sparse_features b'))
          <$> seq 0 (length [example_batch 10; example_batch 20])
    ∧ heap w = BatchObject (Nat.iter (S (length [example_batch 10; example_batch 20]))
                              (place_batch (Some (cuda 0)) (Some (cuda 0)) 1 2)
                              (example_batch 0))
               :: (BatchObject <$> [example_batch 10; example_batch 20]).
Proof.
  apply (train_computes_on_the_first_batch 3 (Some (cuda 0)) (Some (cuda 0))
           (example_batch 0) [example_batch 10; example_batch 20] (Some 0) 1 2).
  - apply wf_example_batch.
  - lia.
  - simpl. lia.
Defined.

(** A fresh engine on distributed batches, driven until it raises. *)
Lemma loop_dist training crit opt sparse dense metrics data_loader prof rank ws fuel :
  ∃ w, _train_loop (S fuel) true rank ws prof
         (start (__init__ training crit opt sparse dense metrics) data_loader)
       = Some (if bool_decide (2 ≤ length data_loader)
               then Raise AttributeError else Ok prof, w)
    ∧ forwards (log w) = []
    ∧ pulled (log w) = match data_loader with
                       | [] => []
                       | [_] => [0]
                       | _ :: _ :: _ => [0; 2]
                       end
    ∧ ∀ i, metric_updates i (log w) = [].
Proof.
  set (p := __init__ training crit opt sparse dense metrics).
  set (w0 := start p data_loader).
  destruct data_loader as [|b [|b1 rest]].
  - destruct (progress_nothing_to_connect true rank ws w0) as (w' & Hp & _ & Hl & _);
      try done.
    exists w'. cbn [_train_loop]. rewrite Hp, Hl. done.
  - destruct (call_connect_dist rank ws w0 b [])
      as (w1 & ? & ? & ? & Hcc & Hh & Hi & Hs & Hf & Hpl & Hm); try done.
    rewrite (_train_loop_connects (S fuel) true rank ws prof w0 w1) by (done || by rewrite Hs).
    destruct (progress_exhausted true rank ws w1) as (w' & Hp & _ & Hl & _);
      [by rewrite Hs|done|].
    exists w'. cbn [_train_loop]. rewrite Hp, Hl, Hf, Hpl.
    repeat split; try done; intros i; by rewrite Hm.
  - destruct (call_connect_dist rank ws w0 b (b1 :: rest))
      as (w1 & dn & sp & lb & Hcc & Hh & Hi & Hs & Hf & Hpl & Hm); try done.
    rewrite (_train_loop_connects (S fuel) true rank ws prof w0 w1) by (done || by rewrite Hs).
    destruct (progress_on_tuple rank ws w1 1 dn sp lb b1 rest) as (w' & Hp & Hf' & Hpl' & Hm');
      [by rewrite Hs|by rewrite Hs|by rewrite Hh|done|].
    exists w'. cbn [_train_loop]. rewrite Hp, Hf', Hpl', Hf, Hpl, Hh.
    rewrite bool_decide_eq_true_2 by (simpl; lia).
    repeat split; try done; intros i; by rewrite Hm', Hm.
Qed.

(** X10: with distributed batches [_train] and [_evaluate] never reach a
    forward computation, whatever the criterion, the optimizer and the
    devices; the profiler is never stepped and the metrics never
    updated.  On a loader of two batches or more they raise
    [AttributeError] in the first [progress] (the current batch is the
    tuple [put_data_in_device] returned), after pulling two batches; on
    a loader of one batch or none they return normally, the loop being
    ended by the [StopIteration] of the pull. *)
Theorem drivers_on_distributed_batches fuel sparse dense optimizer criterion data_loader
    prof rank ws :
  (∃ w, _train (S fuel) sparse dense optimizer criterion data_loader prof true rank ws
        = Some (if bool_decide (2 ≤ length data_loader)
                then Raise AttributeError else Ok prof, w)
     ∧ forwards (log w) = []
     ∧ pulled (log w) = match data_loader with
                        | [] => []
                        | [_] => [0]
                        | _ :: _ :: _ => [0; 2]
                        end)
  ∧ (∃ w, _evaluate (S fuel) sparse dense data_loader true rank ws
          = Some (if bool_decide (2 ≤ length data_loader)
                  then Raise AttributeError
                  else Ok (mkMetricResult AUROC [], mkMetricResult Accuracy []), w)
       ∧ forwards (log w) = []
       ∧ pulled (log w) = match data_loader with
                          | [] => []
                          | [_] => [0]
                          | _ :: _ :: _ => [0; 2]
                          end).
Proof.
  split.
  - destruct (loop_dist true criterion optimizer sparse dense 0 data_loader prof rank ws fuel)
      as (w & Hloop & Hf & Hp & _).
    by exists w.
  - destruct (loop_dist false false false sparse dense 2 data_loader None rank ws fuel)
      as (w & Hloop & Hf & Hp & Hm).
    exists w. split; [|done]. unfold _evaluate.
    rewrite _evaluate_loop_train, Hloop. case_bool_decide; [done|].
    by rewrite !Hm.
Qed.

Lemma consumed_forwards l : consumed l = (λ x, x.1.1) <$> forwards l.
Proof.
  induction l as [|e l IH]; [done|]. change (e :: l) with ([e] ++ l).
  rewrite consumed_app, forwards_app, fmap_app, IH. by destruct e.
Qed.

Lemma fmap_const_replicate {X Y : Type} (f : X → Y) (c : Y) (l : list X) :
  (∀ x, f x = c) → f <$> l = replicate (length l) c.
Proof. intros Hf. induction l as [|x l IH]; [done|]. by rewrite fmap_cons, Hf, IH. Qed.

Lemma allowed_not_training p cs e :
  training p = false → allowed p cs e → training_event e = false.
Proof. intros Ht. destruct e; simpl; try done; rewrite Ht; by intros; destruct_and?. Qed.

Lemma allowed_metric p cs e :
  allowed p cs e → match e with Metric i _ => i < _metrics p | _ => True end.
Proof. by destruct e. Qed.

(** X11: [_evaluate] always ends, for every loader, devices and mode,
    and it never trains: whatever happens, the engine it drives asks for
    no [zero_grad], no criterion, no [backward] and no optimizer step
    (it is built without criterion and optimizer and never misses them),
    and it updates no metric but the two it was given.  Its outcome is
    never a [StopIteration] error. *)
Theorem evaluate_never_trains sparse dense data_loader d rank ws :
  ∃ out,
    (∀ fuel, length data_loader < fuel →
       _evaluate fuel sparse dense data_loader d rank ws = Some out)
    ∧ out.1 ≠ Raise StopIteration
    ∧ Forall (λ e, training_event e = false) (log out.2)
    ∧ Forall (λ e, match e with Metric i _ => i < 2 | _ => True end) (log out.2).
Proof.
  set (p := __init__ false false false sparse dense 2).
  destruct (_train_loop_ends p d rank ws (S (length data_loader)) None (start p data_loader))
    as (r & w & k & Hloop & Hstep & Hr & _ & _);
    [apply same_config_refl|simpl; lia|].
  destruct Hstep as (_ & _ & ys & evs & _ & Hl & _ & Hall). simpl in Hl, Hall.
  exists (match r with
          | Ok _ => (Ok (mkMetricResult AUROC (metric_updates 0 (log w)),
                         mkMetricResult Accuracy (metric_updates 1 (log w))), w)
          | Raise e => (Raise e, w)
          end).
  split; [|split; [|split]].
  - intros fuel Hfuel. unfold _evaluate. fold p. rewrite _evaluate_loop_train.
    rewrite (_train_loop_fuel d rank ws (S (length data_loader)) fuel None _ _ Hloop)
      by lia.
    by destruct r.
  - destruct r as [?|e]; [done|]. simpl. congruence.
  - assert (Forall (λ e, training_event e = false) (log w)) as H.
    { rewrite Hl. eapply Forall_impl; [exact Hall|].
      intros e. by apply allowed_not_training. }
    by destruct r.
  - assert (Forall (λ e, match e with Metric i _ => i < 2 | _ => True end) (log w)) as H.
    { rewrite Hl. eapply Forall_impl; [exact Hall|].
      intros e He. exact (allowed_metric p _ e He). }
    by destruct r.
Qed.

Lemma evaluate_never_trains_witness :
  ∃ out,
    (∀ fuel, length [example_batch 0; example_batch 10] < fuel →
       _evaluate fuel (Some (cuda 0)) (Some cpu) [example_batch 0; example_batch 10]
         false 0 1 = Some out)
    ∧ out.1 ≠ Raise StopIteration
    ∧ Forall (λ e, training_event e = false) (log out.2)
    ∧ Forall (λ e, match e with Metric i _ => i < 2 | _ => True end) (log out.2).
Proof.
  apply (evaluate_never_trains (Some (cuda 0)) (Some cpu)
           [example_batch 0; example_batch 10] false 0 1).
Defined.

(** X12: without distributed batches, [_evaluate] on a loader
    [B0 :: rest] whose first batch can be split returns normally, and
    both metrics have been updated once per batch after the first, every
    time on the first batch: the batches after the first are pulled and
    never scored, and a loader of one batch gives metrics without any
    update. *)
Theorem evaluate_scores_the_first_batch fuel sparse dense B0 rest rank ws :
  splittable B0 → rank < ws → length rest < fuel →
  ∃ w, _evaluate fuel sparse dense (B0 :: rest) false rank ws
       = Some (Ok (mkMetricResult AUROC (replicate (length rest) 0),
                   mkMetricResult Accuracy (replicate (length rest) 0)), w)
    ∧ pulled (log w) = seq 0 (S (length rest))
    ∧ consumed (log w) = replicate (length rest) 0
    ∧ metric_updates 0 (log w) = consumed (log w)
    ∧ metric_updates 1 (log w) = consumed (log w).
Proof.
  intros HB0 Hrank Hfuel.
  destruct (loop_local false false false sparse dense 2 B0 rest rank ws fuel None)
    as (w & Hloop & Hh & Hpull & Hfwd & Hmet); try done.
  assert (consumed (log w) = replicate (length rest) 0) as Hcons.
  { rewrite consumed_forwards, Hfwd, <-list_fmap_compose.
    by rewrite (fmap_const_replicate _ 0), length_seq. }
  exists w. unfold _evaluate. rewrite _evaluate_loop_train, Hloop. simpl.
  rewrite !Hmet, Hcons. rewrite !bool_decide_eq_true_2 by lia. done.
Qed.

Lemma evaluate_scores_the_first_batch_witness :
  ∃ w, _evaluate 3 (Some (cuda 0)) (Some (cuda 0))
         (example_batch 0 :: [example_batch 10; example_batch 20]) false 0 1
       = Some (Ok (mkMetricResult AUROC
                     (replicate (length [example_batch 10; example_batch 20]) 0),
                   mkMetricResult Accuracy
                     (replicate (length [example_batch 10; example_batch 20]) 0)), w)
    ∧ pulled (log w) = seq 0 (S (length [example_batch 10; example_batch 20]))
    ∧ consumed (log w) = replicate (length [example_batch 10; example_batch 20]) 0
    ∧ metric_updates 0 (log w) = consumed (log w)
    ∧ metric_updates 1 (log w) = consumed (log w).
Proof.
  apply (evaluate_scores_the_first_batch 3 (Some (cuda 0)) (Some (cuda 0))
           (example_batch 0) [example_batch 10; example_batch 20] 0 1).
  - apply wf_example_batch.
  - lia.
  - simpl. lia.
Defined.

(** [_train] and [_evaluate] without distributed batches, on any loader
    whose first batch can be split. *)
Lemma loop_local_any training crit opt sparse dense metrics data_loader rank ws prof :
  (training = true → crit = true ∧ opt = true) → first_splittable data_loader →
  rank < ws →
  ∃ w, ∀ fuel, length data_loader < fuel →
    _train_loop fuel false rank ws prof
      (start (__init__ training crit opt sparse dense metrics) data_loader)
    = Some (Ok ((λ n, n + (length data_loader - 1)) <$> prof), w).
Proof.
  intros Hrun Hfirst Hrank. destruct data_loader as [|B0 rest].
  - destruct (progress_nothing_to_connect false rank ws
                (start (__init__ training crit opt sparse dense metrics) []))
      as (w' & Hp & _); try done.
    exists w'. intros [|fuel] Hfuel; [simpl in Hfuel; lia|].
    cbn [_train_loop]. rewrite Hp. simpl. by rewrite fmap_option_add_0.
  - destruct (loop_local training crit opt sparse dense metrics B0 rest rank ws
                (S (length rest)) prof) as (w & Hloop & _); [done|by apply Hfirst|done|lia|].
    exists w. intros fuel Hfuel. simpl in Hfuel.
    rewrite (_train_loop_fuel false rank ws (S (length rest)) fuel _ _ _ Hloop) by lia.
    simpl. by rewrite Nat.sub_0_r.
Qed.

Lemma evaluate_local_any sparse dense data_loader rank ws :
  first_splittable data_loader → rank < ws →
  ∃ a c w, (∀ fuel, length data_loader < fuel →
              _evaluate fuel sparse dense data_loader false rank ws = Some (Ok (a, c), w))
           ∧ metric_of a = AUROC ∧ metric_of c = Accuracy.
Proof.
  intros Hfirst Hrank.
  destruct (loop_local_any false false false sparse dense 2 data_loader rank ws None)
    as (w & Hloop); try done.
  exists (mkMetricResult AUROC (metric_updates 0 (log w))),
         (mkMetricResult Accuracy (metric_updates 1 (log w))), w.
  split; [|done]. intros fuel Hfuel. unfold _evaluate. rewrite _evaluate_loop_train, (Hloop fuel Hfuel).
  reflexivity.
Qed.

(** The profiler does not change what the loop does. *)
Lemma _train_loop_world fuel d rank ws prof prof' w r r' w1 w2 :
  _train_loop fuel d rank ws prof w = Some (r, w1) →
  _train_loop fuel d rank ws prof' w = Some (r', w2) → w1 = w2.
Proof.
  revert prof prof' w. induction fuel as [|fuel IH]; intros prof prof' w H1 H2; [done|].
  cbn [_train_loop] in H1, H2.
  destruct (progress d rank ws w) as [[[]|e] w'].
  - by eapply IH.
  - destruct e; congruence.
Qed.

Lemma train_val_test_epochs_local sparse dense train_dataloader val_dataloader rank ws :
  first_splittable train_dataloader → first_splittable val_dataloader → rank < ws →
  ∃ a c train_log val_log,
    metric_of a = AUROC ∧ metric_of c = Accuracy
    ∧ ∀ epochs fuel results prof logs,
        length train_dataloader < fuel → length val_dataloader < fuel →
        train_val_test_epochs fuel epochs sparse dense true true
          train_dataloader val_dataloader false rank ws results prof logs
        = Some (Ok (mkTrainValTestResults
                      (val_accuracies results ++ replicate epochs a)
                      (val_aurocs results ++ replicate epochs c)
                      (test_accuracy results) (test_auroc results),
                    prof + epochs * (length train_dataloader - 1)),
                logs ++ mjoin (replicate epochs [train_log; val_log])).
Proof.
  intros Htrain Hval Hrank.
  destruct (evaluate_local_any sparse dense val_dataloader rank ws Hval Hrank)
    as (a & c & wv & Hev & Ha & Hc).
  assert (∃ lt, ∀ prof fuel, length train_dataloader < fuel →
            ∃ w, _train fuel sparse dense true true train_dataloader (Some prof) false rank ws
                 = Some (Ok (Some (prof + (length train_dataloader - 1))), w)
                 ∧ log w = lt) as [lt Htr].
  { destruct (loop_local_any true true true sparse dense 0 train_dataloader rank ws None)
      as (w0 & Hloop0); try done.
    exists (log w0). intros prof fuel Hfuel.
    destruct (loop_local_any true true true sparse dense 0 train_dataloader rank ws (Some prof))
      as (w & Hloop); try done.
    exists w. split; [apply (Hloop fuel Hfuel)|].
    f_equal. exact (_train_loop_world _ _ _ _ _ _ _ _ _ _ _ (Hloop fuel Hfuel)
                      (Hloop0 fuel Hfuel)). }
  exists a, c, lt, (log wv). split; [done|]. split; [done|].
  induction epochs as [|epochs IH]; intros fuel results prof logs Hft Hfv.
  - simpl. rewrite !app_nil_r, Nat.add_0_r. by destruct results.
  - cbn [train_val_test_epochs].
    destruct (Htr prof fuel Hft) as (wt & -> & Hlt). rewrite (Hev fuel Hfv).
    rewrite IH by done. cbn [val_accuracies val_aurocs test_accuracy test_auroc default].
    rewrite Hlt, <-!app_assoc. cbn [replicate mjoin list_join app]. unfold id.
    replace (prof + (length train_dataloader - 1) + epochs * (length train_dataloader - 1))
      with (prof + S epochs * (length train_dataloader - 1)) by lia.
    done.
Qed.

(** X13: [train_val_test] stores the two metrics under each other's
    name.  [_evaluate] returns [(auroc_res, accuracy_res)] and
    [train_val_test] unpacks the pair as [val_accuracy, val_auroc] and as
    [test_accuracy, test_auroc].  Without distributed batches, on
    loaders whose first batch can be split and with [rank < world_size],
    the function returns normally, with one validation entry per epoch;
    every entry of [val_accuracies] and [test_accuracy] are results of
    the AUROC metric, every entry of [val_aurocs] and [test_auroc] are
    results of the accuracy metric.  The profiler is stepped once per
    training batch after the first of every epoch, and one engine ran
    for every training and every evaluation pass. *)
Theorem train_val_test_swaps_the_metrics epochs sparse dense
    train_dataloader val_dataloader test_dataloader rank ws :
  first_splittable train_dataloader → first_splittable val_dataloader →
  first_splittable test_dataloader → rank < ws →
  ∃ results prof logs,
    (∀ fuel, length train_dataloader < fuel → length val_dataloader < fuel →
             length test_dataloader < fuel →
       train_val_test fuel epochs sparse dense true true
         train_dataloader val_dataloader test_dataloader false rank ws
       = Some (Ok (results, prof), logs))
    ∧ length (val_accuracies results) = epochs
    ∧ length (val_aurocs results) = epochs
    ∧ Forall (λ v, metric_of v = AUROC) (val_accuracies results)
    ∧ Forall (λ v, metric_of v = Accuracy) (val_aurocs results)
    ∧ metric_of <$> test_accuracy results = Some AUROC
    ∧ metric_of <$> test_auroc results = Some Accuracy
    ∧ prof = epochs * (length train_dataloader - 1)
    ∧ length logs = 2 * epochs + 1.
Proof.
  intros Htrain Hval Htest Hrank.
  destruct (train_val_test_epochs_local sparse dense train_dataloader val_dataloader rank ws)
    as (a & c & lt & lv & Ha & Hc & Hepochs); try done.
  destruct (evaluate_local_any sparse dense test_dataloader rank ws Htest Hrank)
    as (a' & c' & wt & Hev & Ha' & Hc').
  eexists _, _, _. split.
  - intros fuel Hf1 Hf2 Hf3. unfold train_val_test.
    rewrite Hepochs, (Hev fuel Hf3) by done. reflexivity.
  - cbn [val_accuracies val_aurocs test_accuracy test_auroc app].
    rewrite !length_replicate, length_app. cbn [fmap option_fmap option_map].
    rewrite Ha', Hc'. repeat split; try done.
    + apply Forall_replicate. done.
    + apply Forall_replicate. done.
    + assert (∀ n, length (mjoin (replicate n [lt; lv])) = 2 * n) as ->.
      { induction n as [|n IH]; [done|].
        change (mjoin (replicate (S n) [lt; lv]))
          with ([lt; lv] ++ mjoin (replicate n [lt; lv])).
        rewrite length_app, IH. simpl. lia. }
      simpl. lia.
Qed.

Lemma example_first_splittable bs : first_splittable (example_batch 0 :: bs).
Proof. intros b [= <-]. apply wf_example_batch. Qed.

Lemma train_val_test_swaps_the_metrics_witness :
  ∃ results prof logs,
    (∀ fuel, length [example_batch 0; example_batch 10; example_batch 20] < fuel →
             length [example_batch 0; example_batch 10] < fuel →
             length [example_batch 0] < fuel →
       train_val_test fuel 2 (Some (cuda 0)) (Some (cuda 0)) true true
         [example_batch 0; example_batch 10; example_batch 20]
         [example_batch 0; example_batch 10] [example_batch 0] false 0 1
       = Some (Ok (results, prof), logs))
    ∧ length (val_accuracies results) = 2
    ∧ length (val_aurocs results) = 2
    ∧ Forall (λ v, metric_of v = AUROC) (val_accuracies results)
    ∧ Forall (λ v, metric_of v = Accuracy) (val_aurocs results)
    ∧ metric_of <$> test_accuracy results = Some AUROC
    ∧ metric_of <$> test_auroc results = Some Accuracy
    ∧ prof = 2 * (length [example_batch 0; example_batch 10; example_batch 20] - 1)
    ∧ length logs = 2 * 2 + 1.
Proof.
  apply (train_val_test_swaps_the_metrics 2 (Some (cuda 0)) (Some (cuda 0))
           [example_batch 0; example_batch 10; example_batch 20]
           [example_batch 0; example_batch 10] [example_batch 0] 0 1).
  - apply example_first_splittable.
  - apply example_first_splittable.
  - apply example_first_splittable.
  - lia.
Defined.

(** A training step without criterion, and without optimizer. *)
Lemma progress_without_criterion d rank ws w r b nb rest :
  _connected (self w) = true → _cur_batch (self w) = Some r →
  heap w !! r = Some (BatchObject b) → dataloader_iter w = nb :: rest →
  training (self w) = true → _criterion (self w) = false →
  ∃ w', progress d rank ws w = (Raise TypeError, w')
    ∧ log w' = log w ++ [Next (length (heap w)); ZeroGrad]
               ++ (if _memcpy_stream (self w) is Some _ then [WaitStream; RecordStream r] else [])
               ++ [Forward r (dense_features b) (sparse_features b)]
               ++ metric_events r (_metrics (self w)) 0.
Proof.
  intros Hc Hcur Hr Hiter Ht Hcrit.
  assert ((heap w ++ [BatchObject nb]) !! r = Some (BatchObject b)) as Hr'
    by (by apply lookup_app_l_Some).
  destruct (_memcpy_stream (self w)) eqn:Hs.
  all: eexists; split;
    [ unfold_engine_goal;
      repeat first
        [ progress run
        | match goal with H : ?x = _ |- context [?x] => rewrite H end
        | rewrite update_metrics_run ];
      reflexivity
    | run; rewrite <-?app_assoc; done ].
Qed.

Lemma progress_without_optimizer rank ws w r b nb rest :
  _connected (self w) = true → _cur_batch (self w) = Some r →
  heap w !! r = Some (BatchObject b) → splittable b →
  dataloader_iter w = nb :: rest → rank < ws → current_stream w = default_stream →
  training (self w) = true → _criterion (self w) = true → _optimizer (self w) = false →
  ∃ w', progress false rank ws w = (Raise AttributeError, w')
    ∧ log w' = log w ++ [Next (length (heap w)); ZeroGrad]
               ++ (if _memcpy_stream (self w) is Some _ then [WaitStream; RecordStream r] else [])
               ++ [Forward r (dense_features b) (sparse_features b)]
               ++ metric_events r (_metrics (self w)) 0
               ++ [Criterion r; Backward] ++ staging_events (self w) r.
Proof.
  intros Hc Hcur Hr Hb Hiter Hrank Hcs Ht Hcrit Hopt.
  assert ((heap w ++ [BatchObject nb]) !! r = Some (BatchObject b)) as Hr'
    by (by apply lookup_app_l_Some).
  destruct (_memcpy_stream (self w)) eqn:Hs.
  all: eexists; split;
    [ unfold_engine_goal;
      repeat first
        [ progress run
        | match goal with H : ?x = _ |- context [?x] => rewrite H end
        | rewrite update_metrics_run
        | erewrite put_data_in_device_place; [|run; eassumption|done|done] ];
      reflexivity
    | run; unfold staging_events, staging_stream; rewrite ?Hs, ?Hcs;
      rewrite <-?app_assoc; done ].
Qed.

(** X16: a training engine needs its criterion and its optimizer, and
    misses them late.  Without distributed batches, on a loader of two
    batches or more whose first batch can be split: [_train] without
    criterion raises [TypeError] in the first [progress], after the
    forward computation and before any [backward]; with a criterion and
    without optimizer it raises [AttributeError] in the first
    [progress], after the forward computation, the [backward] and the
    staging, so that gradients were computed and never applied.  In
    both cases two batches were pulled. *)
Theorem train_needs_criterion_and_optimizer fuel sparse dense optimizer criterion
    B0 B1 rest prof rank ws :
  splittable B0 → rank < ws → criterion = false ∨ optimizer = false →
  ∃ w, _train (S fuel) sparse dense optimizer criterion (B0 :: B1 :: rest) prof false rank ws
       = Some (Raise (if criterion then AttributeError else TypeError), w)
    ∧ consumed (log w) = [0]
    ∧ pulled (log w) = [0; 1]
    ∧ (Backward ∈ log w ↔ criterion = true)
    ∧ OptimizerStep ∉ log w.
Proof.
  intros HB0 Hrank Hmiss.
  set (p := __init__ true criterion optimizer sparse dense 0).
  unfold _train. fold p. set (w0 := start p (B0 :: B1 :: rest)).
  destruct (call_connect_place rank ws w0 B0 (B1 :: rest))
    as (w1 & Hcc & Hh & Hi & Hl & Hs & Hcs); try done.
  rewrite (_train_loop_connects (S fuel) false rank ws prof w0 w1) by (done || by rewrite Hs).
  simpl in Hh, Hl, Hs.
  destruct criterion.
  - destruct Hmiss as [?| ->]; [done|].
    destruct (progress_without_optimizer rank ws w1 0
                (place_batch sparse dense rank ws B0) B1 rest) as (w' & Hp & Hl');
      try (by rewrite Hs); try (by rewrite Hh); try done.
    { by apply splittable_place_batch. }
    exists w'. cbn [_train_loop]. rewrite Hp, Hl', Hl, Hh, Hs.
    unfold staging_events, staging_stream. simpl.
    destruct sparse as [[|?]|]; simpl; repeat split; try done;
      first [ by (intros _; repeat constructor)
            | rewrite ?elem_of_cons, ?elem_of_nil; intuition discriminate ].
  - destruct (progress_without_criterion false rank ws w1 0
                (place_batch sparse dense rank ws B0) B1 rest) as (w' & Hp & Hl');
      try (by rewrite Hs); try (by rewrite Hh); try done.
    exists w'. cbn [_train_loop]. rewrite Hp, Hl', Hl, Hh, Hs.
    unfold staging_events, staging_stream. simpl.
    destruct sparse as [[|?]|]; simpl; repeat split; try done;
      first [ by (intros _; repeat constructor)
            | rewrite ?elem_of_cons, ?elem_of_nil; intuition discriminate ].
Qed.

Lemma train_needs_criterion_and_optimizer_witness :
  ∃ w, _train (S 0) (Some (cuda 0)) (Some (cuda 0)) true false
         (example_batch 0 :: example_batch 10 :: []) None false 0 1
       = Some (Raise (if false then AttributeError else TypeError), w)
    ∧ consumed (log w) = [0]
    ∧ pulled (log w) = [0; 1]
    ∧ (Backward ∈ log w ↔ false = true)
    ∧ OptimizerStep ∉ log w.
Proof.
  apply (train_needs_criterion_and_optimizer 0 (Some (cuda 0)) (Some (cuda 0)) true false
           (example_batch 0) (example_batch 10) [] None 0 1).
  - apply wf_example_batch.
  - lia.
  - by left.
Defined.

(** * The forward computation waits for the copy stream *)

Section Synchronised.
Variable p : TrainPipelineBase.

Lemma staged_ok_app pending l k :
  staged_ok pending (l ++ k)
  = staged_ok pending l && staged_ok (pending_after pending l) k.
Proof.
  revert pending. induction l as [|e l IH]; intros pending; [done|].
  destruct e as [| ? ? ? ? []| | | | | | | |]; simpl; rewrite ?IH; try done.
  by rewrite andb_assoc.
Qed.

Lemma pending_after_app pending l k :
  pending_after pending (l ++ k) = pending_after (pending_after pending l) k.
Proof.
  revert pending. induction l as [|e l IH]; intros pending; [done|].
  destruct e as [| ? ? ? ? []| | | | | | | |]; simpl; by rewrite ?IH.
Qed.

Lemma synchronised_quiet w w' e :
  synchronised p w → quiet e = true →
  same_config p (self w') → current_stream w' = current_stream w →
  log w' = log w ++ [e] → synchronised p w'.
Proof.
  intros (_ & Hcs & Hok & Hpend) He Hc Hcs' Hl.
  split; [done|]. split; [congruence|]. rewrite Hl, staged_ok_app, pending_after_app, Hok.
  split.
  - by destruct e.
  - intros Hms. rewrite (Hpend Hms). by destruct e.
Qed.

Lemma synchronised_silent w w' :
  synchronised p w →
  same_config p (self w') → current_stream w' = current_stream w →
  log w' = log w → synchronised p w'.
Proof.
  intros (_ & Hcs & Hok & Hpend) Hc Hcs' Hl.
  split; [done|]. split; [congruence|]. by rewrite Hl.
Qed.

Lemma sync_bind {X Y : Type} (m : M X) (f : X → M Y) :
  keeps_synchronised p m → (∀ x, keeps_synchronised p (f x)) →
  keeps_synchronised p (m ≫= f).
Proof.
  intros Hm Hf w Hw. rewrite bind_run. specialize (Hm w Hw).
  destruct (m w) as [[x|e] w']; [|done]. by apply Hf.
Qed.

Lemma sync_ret {X : Type} (x : X) : keeps_synchronised p (mret x).
Proof. by intros w Hw. Qed.

Lemma sync_raise {X : Type} (e : exn) : keeps_synchronised p (@raise X e).
Proof. by intros w Hw. Qed.

Lemma sync_gets {X : Type} (g : World → X) : keeps_synchronised p (gets g).
Proof. by intros w Hw. Qed.

Lemma sync_gets_self {Y : Type} (f : TrainPipelineBase → M Y) :
  (∀ q, same_config p q → keeps_synchronised p (f q)) →
  keeps_synchronised p (gets self ≫= f).
Proof. intros H w Hw. exact (H (self w) (proj1 Hw) w Hw). Qed.

Lemma sync_emit e : quiet e = true → keeps_synchronised p (emit e).
Proof.
  intros He w Hw. apply (synchronised_quiet w _ e); try done. apply Hw.
Qed.

Lemma sync_set_self f :
  (∀ q, same_config p q → same_config p (f q)) → keeps_synchronised p (set_self f).
Proof.
  intros Hf w Hw. apply (synchronised_silent w); try done. apply Hf, Hw.
Qed.

Lemma sync_set_locals f : keeps_synchronised p (set_locals f).
Proof. intros w Hw. apply (synchronised_silent w); try done. apply Hw. Qed.

Lemma sync_get_batch v : keeps_synchronised p (get_batch v).
Proof.
  intros w Hw. unfold get_batch. destruct v as [r|]; [|done].
  by destruct (heap w !! r) as [[b|]|].
Qed.

Lemma sync_next : keeps_synchronised p next.
Proof.
  intros w Hw. unfold next. destruct (dataloader_iter w) as [|b rest]; [done|].
  apply (synchronised_quiet w _ (Next (length (heap w)))); try done. apply Hw.
Qed.

Lemma staged_ok_metric_events_nil pending r n i :
  staged_ok pending (metric_events r n i) = true.
Proof.
  rewrite <-(app_nil_r (metric_events r n i)). by rewrite staged_ok_metric_events.
Qed.

Lemma pending_after_metric_events pending r n i :
  pending_after pending (metric_events r n i) = pending.
Proof. revert i. induction n as [|n IH]; intros i; [done|]. simpl. apply IH. Qed.

Lemma sync_update_metrics r n i : keeps_synchronised p (update_metrics r n i).
Proof.
  intros w (Hc & Hcs & Hok & Hpend). rewrite update_metrics_run.
  split; [done|]. split; [done|]. simpl.
  rewrite staged_ok_app, pending_after_app, Hok, staged_ok_metric_events_nil,
    pending_after_metric_events.
  by split.
Qed.

Lemma sync_call {X : Type} (body : M X) :
  keeps_synchronised p body → keeps_synchronised p (call body).
Proof.
  intros Hb w Hw. unfold call. specialize (Hb w Hw).
  destruct (body w) as [r w']. simpl in *.
  apply (synchronised_silent w'); try done. apply Hb.
Qed.

Lemma staged_ok_transfers s pending evs :
  Forall (transfer_on s) evs →
  staged_ok pending evs = true
  ∧ (s = default_stream → pending_after pending evs = pending).
Proof.
  intros Hevs. revert pending.
  induction Hevs as [|e evs (b & a & t & nb & ->) _ IH]; intros pending; [done|].
  destruct s; simpl; [apply IH|].
  split; [apply IH|done].
Qed.

(** The staging block only adds transfers, and without copy stream
    they are issued on the default stream. *)
Lemma sync_staging q (g : World → value) dd sd d rank ws nb :
  same_config p q →
  keeps_synchronised p (with_stream (_memcpy_stream q)
                          (cur ← gets g; put_data_in_device cur dd sd d rank ws nb)).
Proof.
  intros Hq w (Hc & Hcs & Hok & Hpend). destruct Hq as (_ & _ & _ & _ & _ & _ & Hms).
  unfold with_stream. destruct (_memcpy_stream q) as [s|] eqn:Hs.
  - rewrite bind_run. cbn [set_stream modify].
    set (w1 := mkWorld (heap w) (dataloader_iter w) (log w) s (self w) (locals w) (peak w)).
    change ((gets g ≫= λ cur, put_data_in_device cur dd sd d rank ws nb) w1)
      with (put_data_in_device (g w1) dd sd d rank ws nb w1).
    pose proof (framing_put_data_in_device (g w1) dd sd d rank ws nb w1) as Hf.
    destruct (put_data_in_device (g w1) dd sd d rank ws nb w1) as [r w2].
    destruct Hf as (Hself & _ & _ & _ & _ & _ & _ & evs & Hl & Hevs).
    simpl in *. split; [by rewrite Hself|]. split; [done|]. cbn [log].
    rewrite Hl, staged_ok_app, Hok.
    split; [apply (staged_ok_transfers s), Hevs|]. intros Hn. congruence.
  - change ((gets g ≫= λ cur, put_data_in_device cur dd sd d rank ws nb) w)
      with (put_data_in_device (g w) dd sd d rank ws nb w).
    pose proof (framing_put_data_in_device (g w) dd sd d rank ws nb w) as Hf.
    destruct (put_data_in_device (g w) dd sd d rank ws nb w) as [r w2].
    destruct Hf as (Hself & _ & _ & _ & Hcs2 & _ & _ & evs & Hl & Hevs).
    simpl in *. rewrite Hcs in Hevs.
    destruct (staged_ok_transfers default_stream (pending_after [] (log w)) evs Hevs)
      as [Hok' Hpend'].
    split; [by rewrite Hself|]. split; [congruence|]. cbn [log].
    rewrite Hl, staged_ok_app, pending_after_app, Hok, Hok', Hpend' by done.
    by split.
Qed.

(** The forward computation: after [_wait_for_batch] no transfer is
    pending. *)
Lemma sync_forward q c (K : ref → Batch → M unit) :
  same_config p q → (∀ r cb, keeps_synchronised p (K r cb)) →
  keeps_synchronised p
    (_wait_for_batch c (_memcpy_stream q) ≫= λ _,
       get_batch c ≫= λ x,
         let '(r, cb) := x in
         emit (Forward r (dense_features cb) (sparse_features cb)) ≫= λ _, K r cb).
Proof.
  intros Hq HK w Hw. destruct Hq as (_ & _ & _ & _ & _ & _ & Hms).
  pose proof Hw as (Hc & Hcs & Hok & Hpend).
  assert (synchronised p (emit WaitStream w).2) as Hw1 by (by apply sync_emit).
  unfold _wait_for_batch, get_batch, emit, modify, mbind, M_bind, mret, M_ret in *.
  destruct (_memcpy_stream q) as [s|] eqn:Hs; destruct c as [r|]; cbn in *;
    try done.
  - destruct (heap w !! r) as [[cb|]|] eqn:Hr; cbn; rewrite ?Hr; cbn; try done.
    apply HK. split; [done|]. split; [done|]. cbn.
    rewrite <-app_assoc, !staged_ok_app, !pending_after_app, Hok. cbn.
    split; [|intros Hn; congruence].
    rewrite andb_true_r. apply bool_decide_eq_true_2, not_elem_of_nil.
  - destruct (heap w !! r) as [[cb|]|] eqn:Hr; cbn; try done.
    apply HK. split; [done|]. split; [done|]. cbn.
    assert (_memcpy_stream p = None) as Hn by congruence.
    rewrite !staged_ok_app, !pending_after_app, Hok, (Hpend Hn). cbn.
    split; [|done].
    rewrite andb_true_r. apply bool_decide_eq_true_2, not_elem_of_nil.
Qed.

End Synchronised.

Ltac sync_step :=
  first
    [ apply sync_ret
    | apply sync_raise
    | apply sync_gets_self; intros ? ?
    | apply sync_staging; assumption
    | apply sync_forward; [assumption|intros ? ?]
    | apply sync_gets
    | apply sync_next
    | apply sync_get_batch
    | apply sync_set_locals
    | apply sync_update_metrics
    | apply sync_set_self; first
        [ apply same_config_set_cur_batch | apply same_config_set_connected
        | apply same_config_set_connect_attr ]
    | apply sync_emit; reflexivity
    | apply sync_bind; [|intros ?]
    | match goal with
      | |- keeps_synchronised _ (when ?c _) => destruct c eqn:?; unfold when
      | |- keeps_synchronised _ (if ?c then _ else _) => destruct c eqn:?
      | |- keeps_synchronised _ (match ?c with _ => _ end) => destruct c eqn:?
      end ].

Section SynchronisedEngine.
Variable p : TrainPipelineBase.

Lemma sync_connect_body d rank ws : keeps_synchronised p (_connect d rank ws).
Proof. unfold _connect. repeat sync_step. Qed.

Lemma sync_call_connect d rank ws : keeps_synchronised p (call_connect d rank ws).
Proof.
  unfold call_connect. apply sync_bind; [apply sync_gets|intros slot].
  destruct slot; [apply sync_connect_body|apply sync_raise].
Qed.

Lemma sync_reset : keeps_synchronised p reset.
Proof. unfold reset. repeat sync_step. Qed.

Lemma sync_progress d rank ws : keeps_synchronised p (progress d rank ws).
Proof.
  unfold progress. apply sync_call.
  apply sync_bind; [apply sync_gets|intros connected].
  apply sync_bind.
  { destruct (negb connected); [apply sync_call_connect|apply sync_ret]. }
  intros _. repeat sync_step.
Qed.

Lemma sync_run_commands d rank ws cs w :
  synchronised p w → synchronised p (run_commands d rank ws cs w).
Proof.
  revert w. induction cs as [|c cs IH]; intros w Hw; [done|].
  simpl. apply IH. destruct c; [by apply sync_progress|by apply sync_reset].
Qed.

End SynchronisedEngine.

(** X14: in every execution of a fresh engine (any sequence of
    [progress] and [reset] calls, with or without distributed batches,
    whatever they raise) no forward computation runs on a batch that has
    a transfer on the copy stream which the compute stream has not
    joined: [progress] calls [_wait_for_batch] between the staging of a
    batch and the computation on it, and an engine without copy stream
    issues its transfers on the compute stream. *)
Theorem forward_waits_for_the_copy_stream training crit opt sparse dense metrics batches
    d rank ws cs :
  staged_ok [] (log (run_commands d rank ws cs
                       (start (__init__ training crit opt sparse dense metrics) batches)))
  = true.
Proof.
  apply (sync_run_commands (__init__ training crit opt sparse dense metrics)).
  split; [apply same_config_refl|]. by repeat split.
Qed.

(** * The assertions of [tests/test_comm.py] *)

Section Collect.
Context {A : Type}.
Implicit Types (t x : nest A) (xs : list (nest A)) (sh : list nat).

Lemma child_narrow_nest_0 i start len x :
  i < len → child i (narrow_nest 0 start len x) = child (start + i) x.
Proof.
  intros Hi. destruct x as [v|lx]; [done|]. unfold child. simpl.
  by rewrite lookup_take_lt, lookup_drop.
Qed.

Lemma narrow_nest_empty d start len : narrow_nest d start len (Node []) = @Node A [].
Proof. destruct d; simpl; by rewrite ?drop_nil, ?take_nil. Qed.

Lemma child_narrow_nest_S i d start len x :
  child i (narrow_nest (S d) start len x) = narrow_nest d start len (child i x).
Proof.
  destruct x as [v|lx]; unfold child; simpl.
  - by rewrite narrow_nest_empty.
  - rewrite list_lookup_fmap. destruct (lx !! i); simpl; [done|].
    by rewrite narrow_nest_empty.
Qed.

Lemma children_narrow_nest_S d start len x :
  children (narrow_nest (S d) start len x) = narrow_nest d start len <$> children x.
Proof. by destruct x. Qed.

Lemma bind_children_narrow d start len xs :
  (narrow_nest (S d) start len <$> xs) ≫= children
  = narrow_nest d start len <$> (xs ≫= children).
Proof.
  induction xs as [|x xs IH]; [done|].
  by rewrite fmap_cons, !bind_cons, fmap_app, IH, children_narrow_nest_S.
Qed.

(** Slicing along one dimension and concatenating along another
    commute. *)
Lemma narrow_cat_nest_comm a :
  ∀ b sh xs start len E,
    a ≠ b → sh !! a = Some E → start + len ≤ E →
    narrow_nest a start len (cat_nest sh b xs)
    = cat_nest (<[a := len]> sh) b (narrow_nest a start len <$> xs).
Proof.
  induction a as [|a IH]; intros b sh xs start len E Hab Ha Hle.
  - destruct b as [|b]; [done|]. destruct sh as [|n sh]; [done|].
    injection Ha as ->. cbn [cat_nest narrow_nest list_insert]. f_equal.
    rewrite <-fmap_drop, <-fmap_take.
    replace (take len (drop start (seq 0 E))) with (seq start len).
    2:{ rewrite drop_seq, take_seq. f_equal. lia. }
    rewrite <-(Nat.add_0_r start) at 1. rewrite <-fmap_add_seq, <-list_fmap_compose.
    apply list_fmap_ext. intros ? i [-> Hi]%lookup_seq. simpl. f_equal.
    rewrite <-list_fmap_compose. apply list_fmap_ext. intros ? x _. simpl.
    symmetry. by apply child_narrow_nest_0.
  - destruct b as [|b].
    + change (Node (narrow_nest a start len <$> (xs ≫= children))
              = Node ((narrow_nest (S a) start len <$> xs) ≫= children)).
      by rewrite bind_children_narrow.
    + destruct sh as [|n sh]; [done|]. cbn [cat_nest narrow_nest list_insert]. f_equal.
      rewrite <-list_fmap_compose. apply list_fmap_ext. intros ? i _. simpl.
      rewrite (IH b sh _ start len E) by (done || lia). f_equal.
      rewrite <-!list_fmap_compose. apply list_fmap_ext. intros ? x _. simpl.
      symmetry. apply child_narrow_nest_S.
Qed.

End Collect.

Section CollectTensors.
Context {A : Type}.
Implicit Types (t x : tensor A) (xs world : list (tensor A)) (sh : list nat).

Lemma narrow_cat_comm sh a b xs start len E G :
  uniform sh xs → xs ≠ [] → a ≠ b → sh !! a = Some E → sh !! b = Some G →
  start + len ≤ E →
  narrow a start len (cat b xs) = cat b (narrow a start len <$> xs).
Proof.
  intros Hu Hne Hab Ha Hb Hle.
  assert (cat_size b xs = <[b := length xs * G]> sh) as Hsz
    by (apply cat_size_uniform; eauto using uniform_size).
  assert (cat_size b (narrow a start len <$> xs)
          = <[a := len]> (cat_size b xs)) as Hsz'.
  { rewrite (cat_size_uniform b (<[a := len]> sh) _ G).
    - rewrite length_fmap, Hsz. by apply list_insert_insert_ne.
    - by destruct xs.
    - eapply uniform_size, uniform_narrow; eauto.
    - by rewrite list_lookup_insert_ne. }
  apply tensor_eq; [done|].
  change (narrow_nest a start len (cat_nest (cat_size b xs) b (data <$> xs))
          = cat_nest (cat_size b (narrow a start len <$> xs)) b
              (data <$> (narrow a start len <$> xs))).
  rewrite Hsz', <-list_fmap_compose.
  rewrite (narrow_cat_nest_comm a b _ _ start len E); [|done| |done].
  - by rewrite <-list_fmap_compose.
  - by rewrite Hsz, list_lookup_insert_ne.
Qed.

(** Gathering the results of an exchange along the scatter dimension
    gives what gathering its inputs along the gather dimension gives. *)
Lemma collect_exchanged world a b sh E G :
  uniform sh world → world ≠ [] → a ≠ b →
  sh !! a = Some E → sh !! b = Some G → E mod length world = 0 →
  ∃ outputs, all_to_all_round world a b = Ok outputs
             ∧ _collect_tensors world b = _collect_tensors outputs a.
Proof.
  intros Hu Hne Hab Ha Hb Hdiv.
  set (W := length world). set (c := E / W).
  assert (0 < W) as HW by (unfold W; destruct world; [done|simpl; lia]).
  pose proof (exact_division _ _ Hdiv) as HE. fold W c in HE.
  eexists. split; [by eapply all_to_all_round_ok|]. fold W c.
  unfold _collect_tensors.
  destruct (uniform_cat sh world b G Hu Hne Hb) as [Hsz Hwf].
  rewrite <-(cat_chunks a (cat b world) W c) at 1; [|done| |done].
  2:{ rewrite Hsz, list_lookup_insert_ne by done. by rewrite Ha, HE. }
  f_equal. apply list_fmap_ext. intros ? r [-> Hr]%lookup_seq. simpl.
  apply (narrow_cat_comm sh a b world _ _ E G); try done. nia.
Qed.

End CollectTensors.

Section Allclose.
Context {A : Type}.
Implicit Types (t x : nest A) (xs l : list (nest A)) (sh : list nat) (P : A → bool).

Lemma nest_induction (Q : nest A → Prop) :
  (∀ a, Q (Leaf a)) → (∀ l, Forall Q l → Q (Node l)) → ∀ t, Q t.
Proof.
  intros HLeaf HNode. fix IH 1. intros [a|l]; [apply HLeaf|].
  apply HNode. induction l as [|x l IHl]; constructor; [apply IH|exact IHl].
Qed.

Lemma all_elements_Node P l :
  all_elements P (Node l) ↔ Forall (λ x, all_elements P x) l.
Proof. simpl. by rewrite forallb_True. Qed.

(** A tensor is close to itself when each of its elements is. *)
Lemma allclose_nest_diag (isclose : A → A → bool) t :
  allclose_nest isclose t t = all_elements (λ a, isclose a a) t.
Proof.
  induction t as [a|l IH] using nest_induction; [done|].
  simpl. induction IH as [|x l Hx _ IHl]; [done|]. simpl. by rewrite Hx, IHl.
Qed.

Lemma all_elements_rows P n sh x :
  conforms (n :: sh) x →
  (∀ i, i < n → all_elements P (child i x)) ↔ all_elements P x.
Proof.
  intros (l & -> & Hl & _)%conforms_cons_inv. rewrite all_elements_Node, Forall_lookup.
  split.
  - intros H i y Hy. rewrite <-(child_lookup _ _ _ Hy). apply H.
    rewrite <-Hl. by eapply lookup_lt_Some.
  - intros H i Hi. destruct (lookup_lt_is_Some_2 l i ltac:(lia)) as [y Hy].
    rewrite (child_lookup _ _ _ Hy). by eapply H.
Qed.

(** The elements of a concatenation are the elements of its parts. *)
Lemma all_elements_cat_nest P d :
  ∀ sh shx xs e,
    Forall (λ x, conforms shx x) xs → shx !! d = Some e → take d sh = take d shx →
    all_elements P (cat_nest sh d xs) ↔ Forall (λ x, all_elements P x) xs.
Proof.
  induction d as [|d IH]; intros sh [|n shx] xs e Hxs Hd Hsh; try done.
  - cbn [cat_nest]. rewrite all_elements_Node, Forall_bind.
    split; intros H; apply Forall_forall; intros x Hx.
    + pose proof (proj1 (Forall_forall _ _) Hxs x Hx) as Hc. simpl in Hc.
      apply conforms_cons_inv in Hc as (l & -> & _).
      apply all_elements_Node. exact (proj1 (Forall_forall _ _) H _ Hx).
    + pose proof (proj1 (Forall_forall _ _) Hxs x Hx) as Hc. simpl in Hc.
      apply conforms_cons_inv in Hc as (l & -> & _).
      apply all_elements_Node. exact (proj1 (Forall_forall _ _) H _ Hx).
  - destruct sh as [|n' sh]; [done|]. simpl in Hsh, Hd. injection Hsh as -> Hsh.
    cbn [cat_nest]. rewrite all_elements_Node, Forall_fmap, Forall_seq.
    split.
    + intros H. apply Forall_forall. intros x Hx.
      pose proof (proj1 (Forall_forall _ _) Hxs x Hx) as Hc. simpl in Hc.
      apply (all_elements_rows P n shx x Hc). intros i Hi.
      specialize (H i ltac:(lia)). simpl in H.
      apply (IH sh shx _ e) in H; [|by eapply conforms_children|done|done].
      rewrite Forall_fmap in H. exact (proj1 (Forall_forall _ _) H _ Hx).
    + intros H i Hi. simpl.
      apply (IH sh shx _ e); [eapply conforms_children; [done|lia]|done|done|].
      rewrite Forall_fmap. eapply Forall_impl; [apply Forall_and; split; [exact Hxs|exact H]|].
      intros x [Hc Hx]. simpl in *.
      apply (all_elements_rows P n shx x Hc); [done|lia].
Qed.

Lemma all_elements_cat P b sh G (world : list (tensor A)) :
  uniform sh world → world ≠ [] → sh !! b = Some G →
  all_elements P (data (cat b world))
  = forallb (λ u : tensor A, all_elements P (data u)) world.
Proof.
  intros Hu Hne Hb. apply eq_bool_prop_intro. rewrite forallb_True.
  unfold cat. simpl.
  rewrite (cat_size_uniform b sh world G) by eauto using uniform_size.
  rewrite (all_elements_cat_nest P b _ sh _ G);
    [|by apply uniform_data|done|by rewrite take_insert_ge].
  by rewrite Forall_fmap.
Qed.

Lemma allclose_diag (isclose : A → A → bool) (u : tensor A) :
  allclose isclose u u = Some (all_elements (λ a, isclose a a) (data u)).
Proof. unfold allclose. rewrite decide_True by done. by rewrite allclose_nest_diag. Qed.

End Allclose.

(** X15: the assertions of [_test_all_to_all_fwd] and
    [_test_all_to_all_bwd].  With the exchange as the file models it, on
    a non-empty world of tensors of one size whose extent along [a] the
    world size divides: the all-to-all that scatters along [a] and
    gathers along [b] (a different dimension) succeeds, and what
    [_collect_tensors] gathers from the inputs along [b] is the tensor
    it gathers from the outputs along [a].  The tests compare the two
    with [torch.allclose]: the comparison is true exactly when every
    element of every input is close to itself, so the assertion holds on
    all data without NaN and fails on data with a NaN.  The forward test
    is the case [a = 0], [b = 1], the backward test the case [a = 1],
    [b = 0]. *)
Theorem collected_inputs_equal_collected_outputs {A : Type} (isclose : A → A → bool)
    (world : list (tensor A)) a b sh E G :
  uniform sh world → world ≠ [] → a ≠ b →
  sh !! a = Some E → sh !! b = Some G → E mod length world = 0 →
  ∃ outputs, all_to_all_round world a b = Ok outputs
             ∧ length outputs = length world
             ∧ _collect_tensors world b = _collect_tensors outputs a
             ∧ allclose isclose (_collect_tensors world b) (_collect_tensors outputs a)
               = Some (forallb (λ t, all_elements (λ x, isclose x x) (data t)) world).
Proof.
  intros Hu Hne Hab Ha Hb Hdiv.
  destruct (collect_exchanged world a b sh E G) as (outputs & Hrun & Heq); try done.
  exists outputs. split; [done|]. split; [|split; [done|]].
  - rewrite (all_to_all_round_ok world a b sh E G) in Hrun by done.
    injection Hrun as <-. by rewrite length_fmap, length_seq.
  - rewrite <-Heq, allclose_diag. f_equal. unfold _collect_tensors.
    by apply (all_elements_cat _ b sh G).
Qed.

Lemma test_world_uniform rows cols : uniform [rows; cols] (test_world rows cols).
Proof.
  apply Forall_fmap, Forall_seq. intros rank _. split; [done|].
  unfold wf, test_tensor. simpl.
  rewrite length_fmap, length_seq, bool_decide_eq_true_2 by done. simpl.
  apply forallb_True, Forall_fmap, Forall_seq. intros i _. simpl.
  rewrite length_fmap, length_seq, bool_decide_eq_true_2 by done. simpl.
  apply forallb_True, Forall_fmap, Forall_seq. by intros j _.
Qed.

Lemma collected_inputs_equal_collected_outputs_witness :
  ∃ outputs, all_to_all_round (test_world 4 4) 0 1 = Ok outputs
             ∧ length outputs = length (test_world 4 4)
             ∧ _collect_tensors (test_world 4 4) 1 = _collect_tensors outputs 0
             ∧ allclose Z.eqb (_collect_tensors (test_world 4 4) 1)
                 (_collect_tensors outputs 0)
               = Some (forallb (λ t, all_elements (λ x, Z.eqb x x) (data t))
                         (test_world 4 4)).
Proof.
  apply (collected_inputs_equal_collected_outputs Z.eqb (test_world 4 4) 0 1 [4; 4] 4 4).
  - apply test_world_uniform.
  - done.
  - lia.
  - reflexivity.
  - reflexivity.
  - reflexivity.
Defined.

(** * The current batch of a connected engine *)

Section KeepsBindings.

Lemma keeps_bindings_bind {X Y : Type} (m : M X) (f : X → M Y) :
  keeps_bindings m → (∀ x, keeps_bindings (f x)) → keeps_bindings (m ≫= f).
Proof.
  intros Hm Hf w. rewrite bind_run. specialize (Hm w).
  destruct (m w) as [[x|e] w']; [|done]. simpl in Hm.
  destruct (Hf x w') as [Hs Hl]. destruct Hm. split; congruence.
Qed.

Lemma keeps_bindings_ret {X : Type} (x : X) : keeps_bindings (mret x).
Proof. done. Qed.

Lemma keeps_bindings_raise {X : Type} (e : exn) : keeps_bindings (@raise X e).
Proof. done. Qed.

Lemma keeps_bindings_emit e : keeps_bindings (emit e).
Proof. done. Qed.

Lemma keeps_bindings_gets {X : Type} (g : World → X) : keeps_bindings (gets g).
Proof. done. Qed.

Lemma keeps_bindings_set_stream s : keeps_bindings (set_stream s).
Proof. done. Qed.

Lemma keeps_bindings_next : keeps_bindings next.
Proof. intros w. unfold next. by destruct (dataloader_iter w). Qed.

Lemma keeps_bindings_get_batch v : keeps_bindings (get_batch v).
Proof.
  intros w. unfold get_batch. destruct v as [r|]; [|done].
  by destruct (heap w !! r) as [[?|]|].
Qed.

Lemma keeps_bindings_update_metrics r n i : keeps_bindings (update_metrics r n i).
Proof. intros w. by rewrite update_metrics_run. Qed.

Lemma keeps_bindings_framing {X : Type} (m : M X) : framing m → keeps_bindings m.
Proof. intros H w. by destruct (H w) as (Hs & Hl & _). Qed.

Lemma keeps_bindings_with_stream {X : Type} s (body : M X) :
  keeps_bindings body → keeps_bindings (with_stream s body).
Proof.
  intros Hb. destruct s as [s|]; [|done]. intros w. unfold with_stream.
  pose proof (keeps_bindings_bind (set_stream s) (λ _, body)
                (keeps_bindings_set_stream s) (λ _, Hb) w) as H.
  by destruct ((set_stream s ≫= λ _, body) w).
Qed.

Lemma keeps_bindings_wait_for_batch c s : keeps_bindings (_wait_for_batch c s).
Proof.
  unfold _wait_for_batch. destruct s; [|done].
  apply keeps_bindings_bind; [done|intros _].
  apply keeps_bindings_bind; [apply keeps_bindings_get_batch|by intros [r ?]].
Qed.

(** The staging block of [_connect] and [progress]. *)
Lemma keeps_bindings_staging s (g : World → value) dd sd d rank ws nb :
  keeps_bindings (with_stream s (cur ← gets g; put_data_in_device cur dd sd d rank ws nb)).
Proof.
  apply keeps_bindings_with_stream, keeps_bindings_bind; [done|intros cur].
  apply keeps_bindings_framing, framing_put_data_in_device.
Qed.

Lemma next_returns w x w' : next w = (Ok x, w') → is_Some x.
Proof.
  unfold next. destruct (dataloader_iter w); [done|]. intros [= <- _]. by eexists.
Qed.

(** What placement returns is an object: the batch, or the new tuple. *)
Lemma put_data_in_device_returns batch dd sd d rank ws nb w x w' :
  put_data_in_device batch dd sd d rank ws nb w = (Ok x, w') → is_Some x.
Proof.
  intros H. destruct d.
  - unfold put_data_in_device in H.
    repeat (apply bind_Ok_inv in H as (? & ? & _ & H);
            try match type of H with (let '(_, _) := ?p in _) _ = _ => destruct p end).
    unfold new_tuple in H. injection H as <- _. by eexists.
  - pose proof (put_data_in_device_local_returns _ _ _ _ _ _ _ _ _ H) as ->.
    unfold put_data_in_device in H. apply bind_Ok_inv in H as ([r b] & ? & Hg & _).
    unfold get_batch in Hg. destruct batch; [by eexists|done].
Qed.

Lemma staging_returns s (g : World → value) dd sd d rank ws nb w x w' :
  with_stream s (cur ← gets g; put_data_in_device cur dd sd d rank ws nb) w = (Ok x, w') →
  is_Some x.
Proof.
  destruct s as [s|]; unfold with_stream.
  - destruct ((set_stream s ≫= _) w) as [r w1] eqn:Hrun. intros [= -> _].
    apply bind_Ok_inv in Hrun as (? & ? & _ & Hrun).
    apply bind_Ok_inv in Hrun as (? & ? & Hg & Hrun). injection Hg as <- <-.
    by eapply put_data_in_device_returns.
  - intros Hrun. apply bind_Ok_inv in Hrun as (? & ? & Hg & Hrun).
    injection Hg as <- <-. by eapply put_data_in_device_returns.
Qed.

End KeepsBindings.

Section Ensures.
Implicit Types (P : TrainPipelineBase → Locals → Prop) (R : TrainPipelineBase → Prop).

Lemma ensures_bind {X Y : Type} P (m : M X) Q (f : X → M Y) Q' R :
  ensures P m Q R → (∀ x, ensures (Q x) (f x) Q' R) → ensures P (m ≫= f) Q' R.
Proof.
  intros Hm Hf w Hw. rewrite bind_run. specialize (Hm w Hw).
  destruct (m w) as [[x|e] w']; [by apply Hf|done].
Qed.

Lemma ensures_ret {X : Type} P (x : X) Q R :
  (∀ s l, P s l → Q x s l) → ensures P (mret x) Q R.
Proof. intros H w Hw. by apply H. Qed.

Lemma ensures_raise {X : Type} P e (Q : X → _) R :
  (∀ s l, P s l → R s) → ensures P (raise e) Q R.
Proof. intros H w Hw. simpl. by eapply H. Qed.

Lemma ensures_gets {X : Type} P (g : World → X) Q R :
  (∀ w, P (self w) (locals w) → Q (g w) (self w) (locals w)) → ensures P (gets g) Q R.
Proof. intros H w Hw. by apply H. Qed.

Lemma ensures_set_self P f Q R :
  (∀ s l, P s l → Q tt (f s) l) → ensures P (set_self f) Q R.
Proof. intros H w Hw. by apply H. Qed.

Lemma ensures_set_locals P f Q R :
  (∀ s l, P s l → Q tt s (f l)) → ensures P (set_locals f) Q R.
Proof. intros H w Hw. by apply H. Qed.

(** A statement that assigns nothing keeps what holds of the bindings;
    [φ] is what is known of its result. *)
Lemma ensures_keeps {X : Type} P (m : M X) (φ : X → Prop) R :
  keeps_bindings m → (∀ w x w', m w = (Ok x, w') → φ x) → (∀ s l, P s l → R s) →
  ensures P m (λ x s l, φ x ∧ P s l) R.
Proof.
  intros Hm Hφ HR w Hw. destruct (Hm w) as [Hs Hl]. specialize (Hφ w).
  destruct (m w) as [[x|e] w']; simpl in *; rewrite Hs, ?Hl.
  - split; [by eapply Hφ|done].
  - by eapply HR.
Qed.

Lemma ensures_pure {X : Type} (φ : Prop) P (m : M X) Q R :
  (φ → ensures P m Q R) → ensures (λ s l, φ ∧ P s l) m Q R.
Proof. intros H w [Hφ Hw]. by apply H. Qed.

Lemma ensures_weaken {X : Type} P P' (m : M X) Q R :
  (∀ s l, P s l → P' s l) → ensures P' m Q R → ensures P m Q R.
Proof. intros H Hm w Hw. by apply Hm, H. Qed.

(** A call: what holds of the attributes when the body ends holds when
    the call ends. *)
Lemma ensures_call {X : Type} P (body : M X) (Q : X → TrainPipelineBase → Prop) R :
  ensures P body (λ x s _, Q x s) R → ensures P (call body) (λ x s _, Q x s) R.
Proof.
  intros Hb w Hw. unfold call. specialize (Hb w Hw).
  by destruct (body w) as [[x|e] w'].
Qed.

End Ensures.

(** One statement that assigns nothing, in front of the rest. *)
Ltac keeps_step :=
  eapply ensures_bind;
  [ apply (ensures_keeps _ _ (λ _, True));
    [ first [ apply keeps_bindings_wait_for_batch | apply keeps_bindings_get_batch
            | apply keeps_bindings_update_metrics | apply keeps_bindings_emit
            | match goal with
              | |- keeps_bindings (when ?c _) => destruct c; unfold when
              end;
              repeat first [ apply keeps_bindings_bind; [|intros ?]
                           | apply keeps_bindings_emit | apply keeps_bindings_raise
                           | apply keeps_bindings_ret
                           | match goal with
                             | |- keeps_bindings (if ?c then _ else _) => destruct c
                             end ] ]
    | done
    | assumption ]
  | intros ?; cbv beta; apply ensures_pure; intros _ ].

Section CurrentBatch.

Lemma ensures_connect_body d rank ws :
  ensures (λ s _, _connected s = false) (_connect d rank ws)
          (λ _ s _, is_Some (_cur_batch s)) holds_current.
Proof.
  unfold _connect.
  eapply ensures_bind.
  { apply (ensures_keeps _ _ is_Some); [apply keeps_bindings_next|apply next_returns|].
    intros s l Hs. unfold holds_current. congruence. }
  intros b. cbv beta. apply ensures_pure. intros Hb.
  eapply ensures_bind; [apply (ensures_set_locals _ _ (λ _ s _, _connected s = false)); auto|].
  intros ?. cbv beta.
  eapply ensures_bind; [apply (ensures_set_self _ _ (λ _ s _, _connected s = false)); auto|].
  intros ?. cbv beta.
  eapply ensures_bind; [apply (ensures_gets _ _ (λ _ s _, _connected s = false)); auto|].
  intros p.
  eapply ensures_bind.
  { apply (ensures_keeps _ _ is_Some);
      [apply keeps_bindings_staging|apply staging_returns|].
    intros s l Hs. unfold holds_current. congruence. }
  intros placed. cbv beta. apply ensures_pure. intros Hplaced.
  eapply ensures_bind;
    [apply (ensures_set_self _ _ (λ _ s _, is_Some (_cur_batch s))); auto|].
  intros ?. cbv beta.
  eapply ensures_bind;
    [apply (ensures_set_self _ _ (λ _ s _, is_Some (_cur_batch s))); auto|].
  intros ?. cbv beta.
  apply ensures_set_locals. auto.
Qed.

Lemma ensures_call_connect d rank ws :
  ensures (λ s _, _connected s = false) (call_connect d rank ws)
          (λ _ s _, is_Some (_cur_batch s)) holds_current.
Proof.
  unfold call_connect.
  eapply ensures_bind; [apply (ensures_gets _ _ (λ _ s _, _connected s = false)); auto|].
  intros [|v]; [apply ensures_connect_body|].
  apply ensures_raise. intros s l Hs. unfold holds_current. congruence.
Qed.

(** [progress] on an engine that was not [reset]: when it returns the
    engine has a current batch, and when it raises a connected engine
    still has one. *)
Lemma ensures_progress d rank ws :
  ensures (λ s _, holds_current s) (progress d rank ws)
          (λ _ s _, is_Some (_cur_batch s)) holds_current.
Proof.
  unfold progress. apply ensures_call.
  eapply ensures_bind.
  { apply (ensures_gets _ _ (λ c s _, _connected s = c ∧ holds_current s)). auto. }
  intros connected.
  eapply ensures_bind.
  { instantiate (1 := λ _ s _, is_Some (_cur_batch s)).
    destruct connected; unfold when; simpl.
    - apply ensures_ret. intros s l [Hc Hs]. by apply Hs.
    - eapply ensures_weaken; [|apply ensures_call_connect]. by intros s l [Hc _]. }
  intros ?. cbv beta.
  eapply ensures_bind.
  { apply (ensures_keeps _ _ is_Some); [apply keeps_bindings_next|apply next_returns|].
    by intros s l Hs _. }
  intros b. cbv beta. apply ensures_pure. intros Hb.
  set (P := λ (s : TrainPipelineBase) (l : Locals),
              is_Some (_cur_batch s) ∧ is_Some (next_batch l)).
  eapply ensures_bind; [apply (ensures_set_locals _ _ (λ _, P)); by split|].
  intros ?. cbv beta.
  eapply ensures_bind; [apply (ensures_gets _ _ (λ _, P)); auto|].
  intros c.
  eapply ensures_bind; [apply (ensures_set_locals _ _ (λ _, P)); auto|].
  intros ?. cbv beta.
  eapply ensures_bind.
  { instantiate (1 := λ _, P). destruct c.
    - apply ensures_ret. auto.
    - apply ensures_raise. by intros s l [Hs _] _. }
  intros ?. cbv beta.
  eapply ensures_bind; [apply (ensures_gets _ _ (λ _, P)); auto|].
  intros p.
  assert (∀ s l, P s l → holds_current s) as HP by (by intros s l [Hs _] _).
  repeat keeps_step. destruct x5 as [r cb]. repeat keeps_step.
  eapply ensures_bind.
  { apply (ensures_gets _ _ (λ nb s _, is_Some nb ∧ True)). by intros w [_ Hn]. }
  intros nb. cbv beta. apply ensures_pure. intros Hnb.
  eapply ensures_bind;
    [apply (ensures_set_self _ _ (λ _ s _, is_Some (_cur_batch s))); auto|].
  intros ?. cbv beta.
  eapply ensures_bind.
  { apply (ensures_keeps _ _ is_Some);
      [apply keeps_bindings_staging|apply staging_returns|].
    by intros s l Hs _. }
  intros placed. cbv beta. apply ensures_pure. intros Hplaced.
  eapply ensures_bind;
    [apply (ensures_set_self _ _ (λ _ s _, is_Some (_cur_batch s))); auto|].
  intros ?. cbv beta.
  destruct (training p), (_optimizer p); unfold when, ensures; intros w Hw; simpl;
    first [ done | by intros _ ].
Qed.

Lemma progress_holds_current d rank ws w :
  holds_current (self w) → holds_current (self (progress d rank ws w).2).
Proof.
  intros Hw. pose proof (ensures_progress d rank ws w Hw) as H.
  destruct (progress d rank ws w) as [[x|e] w']; simpl in *; [by intros _|done].
Qed.

(** Without [reset], a connected engine has a current batch after any
    number of [progress] calls, whatever they raised. *)
Lemma run_commands_holds_current d rank ws cs w :
  CallReset ∉ cs → holds_current (self w) →
  holds_current (self (run_commands d rank ws cs w)).
Proof.
  revert w. induction cs as [|c cs IH]; intros w Hcs Hw; [done|].
  apply not_elem_of_cons in Hcs as [Hc Hcs]. destruct c; [|done].
  simpl. apply IH; [done|]. by apply progress_holds_current.
Qed.

Lemma run_commands_app d rank ws cs1 cs2 w :
  run_commands d rank ws (cs1 ++ cs2) w
  = run_commands d rank ws cs2 (run_commands d rank ws cs1 w).
Proof. revert w. induction cs1 as [|c cs1 IH]; intros w; [done|]. simpl. apply IH. Qed.

(** Once [reset] was called the engine has no current batch any more. *)
Lemma run_commands_with_reset d rank ws cs w :
  CallReset ∈ cs → is_reset (self (run_commands d rank ws cs w)).
Proof.
  intros (cs1 & cs2 & ->)%list_elem_of_split. rewrite run_commands_app.
  change (run_commands d rank ws (CallReset :: cs2) ?w')
    with (run_commands d rank ws cs2 (reset w').2).
  apply run_commands_after_reset, reset_is_reset.
Qed.

Lemma held_between_calls w :
  locals w = no_locals →
  held w = match _cur_batch (self w) with Some r => [r] | None => [] end.
Proof. intros Hl. unfold held. rewrite Hl. by destruct (_cur_batch (self w)). Qed.

End CurrentBatch.

(** * The claims about what the engine holds and what placement returns *)

(** C8 (as amended): in every execution of a fresh engine (any sequence
    of [progress] and [reset] calls with one mode flag, whatever they
    raise) the engine never references more than 2 batches at once, and
    no local survives a call.  When the iterator of a connected engine
    is exhausted, [progress] raises [StopIteration] and leaves the
    attributes of the engine as they were, so the engine holds what it
    held before the call: exactly one batch, its current batch, when
    [reset] was never called in the execution, and none when [reset]
    was called, which is the one statement that clears
    [self._cur_batch]. *)
Theorem bounded_lookahead training crit opt sparse dense metrics batches d rank ws cs :
  let w := run_commands d rank ws cs
             (start (__init__ training crit opt sparse dense metrics) batches) in
  peak w ≤ 2
  ∧ locals w = no_locals
  ∧ (_connected (self w) = true → dataloader_iter w = [] →
     ∃ w', progress d rank ws w = (Raise StopIteration, w')
           ∧ peak w' ≤ 2 ∧ self w' = self w ∧ held w' = held w
           ∧ (CallReset ∉ cs → ∃ r, _cur_batch (self w') = Some r ∧ held w' = [r])
           ∧ (CallReset ∈ cs → _cur_batch (self w') = None ∧ held w' = [])).
Proof.
  intros w.
  assert (between_calls d w) as Hw
    by apply run_commands_between_calls, start_between_calls.
  destruct Hw as (Hl & Hp & Hc & Hcur) eqn:Hw'. clear Hw'.
  split; [done|]. split; [done|]. intros Hcon Hiter.
  destruct (progress_exhausted d rank ws w Hcon Hiter)
    as (w' & Hrun & _ & _ & Hs & Hl' & _).
  assert (held w' = held w) as Hheld by (unfold held; by rewrite Hs, Hl', Hl).
  exists w'. split; [done|]. split; [|split; [done|split; [done|split]]].
  - pose proof (progress_between_calls d rank ws w) as Hb.
    rewrite Hrun in Hb. by apply Hb.
  - intros Hcs.
    destruct (run_commands_holds_current d rank ws cs
                (start (__init__ training crit opt sparse dense metrics) batches) Hcs)
      as [r Hr]; [done|exact Hcon|].
    fold w in Hr. exists r. rewrite Hs. split; [done|].
    by rewrite (held_between_calls w' Hl'), Hs, Hr.
  - intros Hcs.
    destruct (run_commands_with_reset d rank ws cs
                (start (__init__ training crit opt sparse dense metrics) batches) Hcs)
      as [_ Hnone].
    fold w in Hnone. rewrite Hs. split; [done|].
    by rewrite (held_between_calls w' Hl'), Hs, Hnone.
Qed.

Lemma bounded_lookahead_witness :
  let w0 := start (__init__ true true true (Some (cuda 0)) (Some (cuda 0)) 0)
              [example_batch 0; example_batch 10] in
  (let w := run_commands false 0 1 [CallProgress; CallProgress] w0 in
   _connected (self w) = true ∧ dataloader_iter w = []
   ∧ (CallReset ∉ [CallProgress; CallProgress])
   ∧ peak w ≤ 2 ∧ locals w = no_locals
   ∧ ∃ w', progress false 0 1 w = (Raise StopIteration, w')
           ∧ peak w' ≤ 2 ∧ self w' = self w ∧ held w' = held w
           ∧ ∃ r, _cur_batch (self w') = Some r ∧ held w' = [r])
  ∧ (let w := run_commands false 0 1 [CallProgress; CallProgress; CallReset] w0 in
     _connected (self w) = true ∧ dataloader_iter w = []
     ∧ (CallReset ∈ [CallProgress; CallProgress; CallReset])
     ∧ peak w ≤ 2 ∧ locals w = no_locals
     ∧ ∃ w', progress false 0 1 w = (Raise StopIteration, w')
             ∧ peak w' ≤ 2 ∧ self w' = self w ∧ held w' = held w
             ∧ _cur_batch (self w') = None ∧ held w' = []).
Proof.
  intros w0.
  assert (CallReset ∉ [CallProgress; CallProgress]) as Hfree
    by (rewrite !elem_of_cons, elem_of_nil; intuition discriminate).
  assert (CallReset ∈ [CallProgress; CallProgress; CallReset]) as Hreset
    by (rewrite !elem_of_cons; auto).
  split.
  - destruct (bounded_lookahead true true true (Some (cuda 0)) (Some (cuda 0)) 0
                [example_batch 0; example_batch 10] false 0 1 [CallProgress; CallProgress])
      as (Hp & Hl & Hex).
    destruct (Hex eq_refl eq_refl) as (w' & Hrun & Hp' & Hs & Hh & Hone & _).
    split; [reflexivity|]. split; [reflexivity|]. split; [exact Hfree|].
    split; [exact Hp|]. split; [exact Hl|].
    exists w'. split; [exact Hrun|]. split; [exact Hp'|]. split; [exact Hs|].
    split; [exact Hh|]. exact (Hone Hfree).
  - destruct (bounded_lookahead true true true (Some (cuda 0)) (Some (cuda 0)) 0
                [example_batch 0; example_batch 10] false 0 1
                [CallProgress; CallProgress; CallReset])
      as (Hp & Hl & Hex).
    destruct (Hex eq_refl eq_refl) as (w' & Hrun & Hp' & Hs & Hh & _ & Hnone).
    split; [reflexivity|]. split; [reflexivity|]. split; [exact Hreset|].
    split; [exact Hp|]. split; [exact Hl|].
    exists w'. split; [exact Hrun|]. split; [exact Hp'|]. split; [exact Hs|].
    split; [exact Hh|]. exact (Hnone Hreset).
Defined.

(** C10: [put_data_in_device] has two kinds of result.  With distributed
    batches it returns a new object, the 3-tuple of the relocated dense
    features, sparse features and labels, and leaves the batch as it is;
    otherwise it returns the batch object it was given, whose three
    attributes it has assigned: the dense features and the labels are
    section [rank] of the relocated tensors, the sparse features are
    relocated.  The engine reads attributes of the result: started on
    distributed batches, [connect] succeeds and the following [progress]
    raises [AttributeError]; started on a replicated batch, both
    succeed. *)
Theorem placement_result_depends_on_mode w r b dd sd rank ws nb :
  heap w !! r = Some (BatchObject b) → splittable b → rank < ws →
  (∃ w', put_data_in_device (Some r) dd sd true rank ws nb w
           = (Ok (Some (length (heap w))), w')
         ∧ heap w' = heap w ++ [TupleObject (tensor_to (dense_features b) dd)
                                  (kjt_to (sparse_features b) sd)
                                  (tensor_to (labels b) dd)]
         ∧ heap w' !! r = Some (BatchObject b))
  ∧ (∃ w', put_data_in_device (Some r) dd sd false rank ws nb w = (Ok (Some r), w')
           ∧ heap w' = <[r := BatchObject (place_batch dd sd rank ws b)]> (heap w)
           ∧ heap w' !! r = Some (BatchObject (place_batch dd sd rank ws b)))
  ∧ ∀ training crit opt sparse dense metrics b1 rest,
      let w0 := start (__init__ training crit opt sparse dense metrics) (b :: b1 :: rest) in
      (∃ w1, connect true rank ws w0 = (Ok tt, w1)
             ∧ (progress true rank ws w1).1 = Raise AttributeError)
      ∧ ((training = true → crit = true ∧ opt = true) →
         ∃ w1 w2, connect false rank ws w0 = (Ok tt, w1)
                  ∧ progress false rank ws w1 = (Ok tt, w2)).
Proof.
  intros Hr Hb Hrank.
  assert (r < length (heap w)) as Hlt by by eapply lookup_lt_Some.
  split; [|split].
  - eexists. split; [by apply put_data_in_device_dist|]. split; [done|].
    simpl. by apply lookup_app_l_Some.
  - eexists. split; [by apply put_data_in_device_place|]. split; [done|].
    simpl. by apply list_lookup_insert_eq.
  - intros training crit opt sparse dense metrics b1 rest w0. split.
    + apply connect_then_progress_dist.
    + intros Hrun. by apply connect_then_progress_local.
Qed.

Lemma placement_result_depends_on_mode_witness :
  let w := store_of (example_batch 0) in
  let b := example_batch 0 in
  let dd := Some (cuda 0) in
  let sd := Some cpu in
  ((∃ w', put_data_in_device (Some 0) dd sd true 0 1 true w
            = (Ok (Some (length (heap w))), w')
          ∧ heap w' = heap w ++ [TupleObject (tensor_to (dense_features b) dd)
                                   (kjt_to (sparse_features b) sd)
                                   (tensor_to (labels b) dd)]
          ∧ heap w' !! 0 = Some (BatchObject b))
   ∧ (∃ w', put_data_in_device (Some 0) dd sd false 0 1 true w = (Ok (Some 0), w')
            ∧ heap w' = <[0 := BatchObject (place_batch dd sd 0 1 b)]> (heap w)
            ∧ heap w' !! 0 = Some (BatchObject (place_batch dd sd 0 1 b)))
   ∧ ∀ training crit opt sparse dense metrics b1 rest,
       let w0 := start (__init__ training crit opt sparse dense metrics) (b :: b1 :: rest) in
       (∃ w1, connect true 0 1 w0 = (Ok tt, w1)
              ∧ (progress true 0 1 w1).1 = Raise AttributeError)
       ∧ ((training = true → crit = true ∧ opt = true) →
          ∃ w1 w2, connect false 0 1 w0 = (Ok tt, w1)
                   ∧ progress false 0 1 w1 = (Ok tt, w2)))
  ∧ place_batch dd sd 0 1 b ≠ b.
Proof.
  intros w b dd sd. split.
  - apply (placement_result_depends_on_mode (store_of (example_batch 0)) 0 (example_batch 0)
             (Some (cuda 0)) (Some cpu) 0 1 true).
    + reflexivity.
    + by split.
    + lia.
  - discriminate.
Defined.
